(** * Project Harmony: the encrypted semantic memory store

    A shallow embedding of [services/securityUtils.ts] (key handling,
    [encryptData], [decryptData], [redactPII]), [services/vectorDbService.ts]
    (the [VectorDbService] class), [services/geminiService.ts] (provider
    configuration, the chat stream of Ollama, image requests) and of the
    memory part of [handleSend] in [components/ChatInterface.tsx],
    together with the platform functions they call ([btoa], [atob],
    [TextEncoder], [TextDecoder], regular expression replacement, an
    IndexedDB object store).

    Conventions.
    - A JavaScript string is the list of its UTF-16 code units ([list N]).
    - A [Uint8Array] is a [list byte].
    - A JavaScript [number] is a binary64 float ([PrimFloat.float]).
    - A promise that settles is a [result]: [Ok v] when it resolves,
      [Err e] when it rejects.  Randomness, the clock, the embedding
      provider, the number of arguments the engine takes in a call and
      the fate of the requests made of IndexedDB are explicit arguments.
    - Calls of [getPersistentKey] are followed step by step, so that
      calls that run at the same time can be interleaved, and a call
      whose promise never settles is told from one that rejects.

    Left out: the memory of an engine, and the interleaving of the calls
    of [VectorDbService], which are taken one after the other once the
    two promises of the constructor have settled. *)

From Stdlib Require Import NArith ZArith Lia List Bool Floats String Ascii.
From Stdlib Require Import Sorting.Sorted Sorting.Permutation.
From Stdlib Require Strings.Byte.
From stdpp Require Import base tactics option list strings gmap.
Import ListNotations.

Ltac Zify.zify_post_hook ::= Z.to_euclidean_division_equations.

(* ===================================================================== *)
(** * Part I: the model                                                   *)
(* ===================================================================== *)

(** ** JavaScript values *)

Definition jsstring := list N.

Abbreviation byte := Init.Byte.byte.

(** A string literal of the source, as code units. *)
Definition js (s : string) : jsstring :=
  List.map N_of_ascii (list_ascii_of_string s).

(** Storing a number into a [Uint8Array] keeps it modulo 256. *)
Definition u8 (n : N) : byte :=
  match Byte.of_N (n mod 256) with
  | Some b => b
  | None => Byte.x00
  end.

(** [String.fromCharCode(...bytes)]: one code unit per byte. *)
Definition fromCharCode (bs : list byte) : jsstring := List.map Byte.to_N bs.

(** What the modelled code can throw or reject with. *)
Inductive JsError : Type :=
| InvalidCharacterError   (* DOMException of atob / btoa *)
| OperationError          (* DOMException of SubtleCrypto.decrypt *)
| RangeError              (* a call with more arguments than the engine takes *)
| ProviderError           (* getEmbedding rejected *)
| ConstraintError         (* IDBObjectStore.add on a key already present *)
| RequestError            (* the [error] of a request of IndexedDB that failed *)
| DbOpenError             (* indexedDB.open failed *)
| Null.                   (* [null]: the [error] of a transaction that has not aborted *)

Inductive result (A : Type) : Type :=
| Ok (a : A)
| Err (e : JsError).
Arguments Ok {A} a.
Arguments Err {A} e.

Definition bind {A B : Type} (m : result A) (f : A -> result B) : result B :=
  match m with
  | Ok a => f a
  | Err e => Err e
  end.

Notation "'let*' x ':=' m 'in' k" := (bind m (fun x => k))
  (at level 10, x name, m at level 100, k at level 200).

(** ** Base64: [btoa] and [atob] *)

Module Base64.

Local Open Scope N_scope.

(** The alphabet of RFC 4648, table 1. *)
Definition b64_char (i : N) : N :=
  if i <? 26 then 65 + i
  else if i <? 52 then 97 + (i - 26)
  else if i <? 62 then 48 + (i - 52)
  else if i =? 62 then 43
  else 47.

Definition b64_index (c : N) : option N :=
  if (65 <=? c) && (c <=? 90) then Some (c - 65)
  else if (97 <=? c) && (c <=? 122) then Some (c - 97 + 26)
  else if (48 <=? c) && (c <=? 57) then Some (c - 48 + 52)
  else if c =? 43 then Some 62
  else if c =? 47 then Some 63
  else None.

Definition pad : N := 61.

(** Forgiving-base64 encode: three bytes give four characters, a last
    group of one or two bytes is padded with [=]. *)
Fixpoint encode (bs : list byte) : jsstring :=
  match bs with
  | [] => []
  | [a] =>
      let a := Byte.to_N a in
      [b64_char (a / 4); b64_char ((a mod 4) * 16); pad; pad]
  | [a; b] =>
      let a := Byte.to_N a in
      let b := Byte.to_N b in
      [b64_char (a / 4); b64_char ((a mod 4) * 16 + b / 16);
       b64_char ((b mod 16) * 4); pad]
  | a :: b :: c :: rest =>
      let a := Byte.to_N a in
      let b := Byte.to_N b in
      let c := Byte.to_N c in
      b64_char (a / 4) :: b64_char ((a mod 4) * 16 + b / 16)
        :: b64_char ((b mod 16) * 4 + c / 64) :: b64_char (c mod 64)
        :: encode rest
  end.

(** [btoa(data)] throws on a code unit above U+00FF. *)
Definition btoa (data : jsstring) : result jsstring :=
  if forallb (fun c => c <=? 255) data
  then Ok (encode (List.map u8 data))
  else Err InvalidCharacterError.

Definition is_ascii_whitespace (c : N) : bool :=
  (c =? 9) || (c =? 10) || (c =? 12) || (c =? 13) || (c =? 32).

(** Step 2 of forgiving-base64 decode: a string that ends with one or
    two [=] loses them. *)
Fixpoint strip_padding (d : jsstring) : jsstring :=
  match d with
  | [] => []
  | [p] => if p =? pad then [] else [p]
  | [p; q] =>
      if q =? pad then (if p =? pad then [] else [p]) else [p; q]
  | c :: (_ :: _ :: _) as r => c :: strip_padding r
  end.

Fixpoint indices (d : jsstring) : option (list N) :=
  match d with
  | [] => Some []
  | c :: r =>
      match b64_index c, indices r with
      | Some i, Some ixs => Some (i :: ixs)
      | _, _ => None
      end
  end.

(** The buffer of 24 bits is read as three bytes; 18 left-over bits give
    two bytes and 12 give one, the low bits being discarded. *)
Fixpoint decode_sextets (s : list N) : list byte :=
  match s with
  | a :: b :: c :: d :: rest =>
      let buf := ((a * 64 + b) * 64 + c) * 64 + d in
      u8 (buf / 65536) :: u8 (buf / 256) :: u8 buf :: decode_sextets rest
  | [a; b; c] =>
      let buf := ((a * 64 + b) * 64 + c) / 4 in
      [u8 (buf / 256); u8 buf]
  | [a; b] =>
      let buf := (a * 64 + b) / 16 in
      [u8 buf]
  | _ => []
  end.

(** Forgiving-base64 decode (WHATWG Infra); [None] is failure. *)
Definition decode (data : jsstring) : option (list byte) :=
  let d1 := List.filter (fun c => negb (is_ascii_whitespace c)) data in
  let d2 := if N.of_nat (length d1) mod 4 =? 0 then strip_padding d1 else d1 in
  if N.of_nat (length d2) mod 4 =? 1 then None
  else option_map decode_sextets (indices d2).

(** [atob(data)]: the decoded bytes as a string of code units below 256. *)
Definition atob (data : jsstring) : result jsstring :=
  match decode data with
  | Some bs => Ok (fromCharCode bs)
  | None => Err InvalidCharacterError
  end.

End Base64.

(** ** UTF-8: [TextEncoder] and [TextDecoder] *)

Module Utf8.

Local Open Scope N_scope.

Definition is_lead (c : N) : bool := (0xD800 <=? c) && (c <=? 0xDBFF).
Definition is_trail (c : N) : bool := (0xDC00 <=? c) && (c <=? 0xDFFF).

Definition replacement : N := 0xFFFD.
Definition BOM : N := 0xFEFF.

(** Conversion of a string to scalar values (a [USVString]): a surrogate
    pair is one code point, a lone surrogate becomes U+FFFD. *)
Fixpoint to_scalars (s : jsstring) : list N :=
  match s with
  | [] => []
  | c :: rest =>
      if is_lead c then
        match rest with
        | d :: rest' =>
            if is_trail d
            then (0x10000 + (c - 0xD800) * 0x400 + (d - 0xDC00)) :: to_scalars rest'
            else replacement :: to_scalars rest
        | [] => [replacement]
        end
      else if is_trail c then replacement :: to_scalars rest
      else c :: to_scalars rest
  end.

(** The code units of a code point. *)
Definition code_units (cp : N) : jsstring :=
  if cp <? 0x10000 then [cp]
  else [0xD800 + (cp - 0x10000) / 0x400; 0xDC00 + (cp - 0x10000) mod 0x400].

Definition from_scalars (cps : list N) : jsstring :=
  List.concat (List.map code_units cps).

(** The UTF-8 encoder of the Encoding standard, for one code point. *)
Definition continuation (cp : N) (k : N) : byte :=
  u8 (N.lor 0x80 (N.land (N.shiftr cp (6 * k)) 0x3F)).

Definition encode_cp (cp : N) : list byte :=
  if cp <=? 0x7F then [u8 cp]
  else if cp <=? 0x7FF then
    [u8 (N.shiftr cp 6 + 0xC0); continuation cp 0]
  else if cp <=? 0xFFFF then
    [u8 (N.shiftr cp 12 + 0xE0); continuation cp 1; continuation cp 0]
  else
    [u8 (N.shiftr cp 18 + 0xF0); continuation cp 2; continuation cp 1;
     continuation cp 0].

(** [new TextEncoder().encode(text)] *)
Definition TextEncoder_encode (text : jsstring) : list byte :=
  List.concat (List.map encode_cp (to_scalars text)).

(** The state of the UTF-8 decoder. *)
Record dstate : Type := mk_dstate {
  d_cp : N;
  d_needed : N;
  d_seen : N;
  d_lower : N;
  d_upper : N
}.

Definition d_init : dstate := mk_dstate 0 0 0 0x80 0xBF.

(** A byte read while no sequence is open. *)
Definition lead (b : N) : dstate * list N :=
  if b <=? 0x7F then (d_init, [b])
  else if (0xC2 <=? b) && (b <=? 0xDF) then
    (mk_dstate (N.land b 0x1F) 1 0 0x80 0xBF, [])
  else if (0xE0 <=? b) && (b <=? 0xEF) then
    (mk_dstate (N.land b 0xF) 2 0
       (if b =? 0xE0 then 0xA0 else 0x80)
       (if b =? 0xED then 0x9F else 0xBF), [])
  else if (0xF0 <=? b) && (b <=? 0xF4) then
    (mk_dstate (N.land b 0x7) 3 0
       (if b =? 0xF0 then 0x90 else 0x80)
       (if b =? 0xF4 then 0x8F else 0xBF), [])
  else (d_init, [replacement]).

(** One byte of input: the new state and the code points emitted.  A
    byte that cannot continue the open sequence closes it with U+FFFD
    and is read again as a first byte. *)
Definition step (st : dstate) (b : N) : dstate * list N :=
  if d_needed st =? 0 then lead b
  else if (b <? d_lower st) || (d_upper st <? b) then
    let '(st', out) := lead b in (st', replacement :: out)
  else
    let cp := N.lor (N.shiftl (d_cp st) 6) (N.land b 0x3F) in
    if d_seen st + 1 =? d_needed st then (d_init, [cp])
    else (mk_dstate cp (d_needed st) (d_seen st + 1) 0x80 0xBF, []).

Fixpoint run (st : dstate) (bs : list byte) : list N :=
  match bs with
  | [] => if d_needed st =? 0 then [] else [replacement]
  | b :: r => let '(st', out) := step st (Byte.to_N b) in out ++ run st' r
  end.

(** A byte order mark at the head of the output is dropped ([ignoreBOM]
    is false by default). *)
Definition strip_bom (cps : list N) : list N :=
  match cps with
  | c :: r => if c =? BOM then r else cps
  | [] => []
  end.

(** [new TextDecoder().decode(bytes)]: UTF-8, not fatal. *)
Definition TextDecoder_decode (bs : list byte) : jsstring :=
  from_scalars (strip_bom (run d_init bs)).

Definition starts_with_bom (s : jsstring) : bool :=
  match s with
  | c :: _ => c =? BOM
  | [] => false
  end.

(** [String.prototype.isWellFormed]: no lone surrogate. *)
Fixpoint isWellFormed (s : jsstring) : bool :=
  match s with
  | [] => true
  | c :: rest =>
      if is_lead c then
        match rest with
        | d :: rest' => is_trail d && isWellFormed rest'
        | [] => false
        end
      else negb (is_trail c) && (c <? 0x10000) && isWellFormed rest
  end.

End Utf8.

(** ** The cipher: [encryptData] and [decryptData] *)

(** The cryptographic primitive backend ([window.crypto.subtle] with
    [{ name: "AES-GCM", iv }]): encryption returns ciphertext followed by
    the tag, decryption returns the plaintext or fails.  [CryptoKey] is
    the type of the keys [generateKey] makes in [getPersistentKey]:
    256-bit AES-GCM keys with both usages.  The one law is the contract of
    an AEAD scheme for the 96-bit nonces the code draws. *)
Class AeadBackend : Type := {
  CryptoKey : Type;
  subtle_encrypt : CryptoKey -> list byte -> list byte -> list byte;
  subtle_decrypt : CryptoKey -> list byte -> list byte -> option (list byte);
  subtle_correct : forall key iv plaintext,
    length iv = 12%nat ->
    subtle_decrypt key iv (subtle_encrypt key iv plaintext) = Some plaintext
}.

(** [window.crypto.getRandomValues(new Uint8Array(12))]: twelve bytes. *)
Record Nonce : Type := mk_Nonce {
  nonce_bytes : list byte;
  nonce_length : length nonce_bytes = 12%nat
}.

(** The engine: the number of arguments it takes in one call.  A call
    with more, as a spread of a long array makes, throws a [RangeError]. *)
Class Engine : Type := {
  argument_limit : nat
}.

Section Cipher.

Context {backend : AeadBackend} {engine : Engine}.

(** [String.fromCharCode(...combined)] hands every byte of [combined] to
    the call as an argument of its own. *)
Definition encryptData (text : jsstring) (key : CryptoKey) (iv : Nonce)
  : result jsstring :=
  let encoded := Utf8.TextEncoder_encode text in
  let encrypted := subtle_encrypt key (nonce_bytes iv) encoded in
  let combined := nonce_bytes iv ++ encrypted in
  if Nat.leb (length combined) argument_limit
  then Base64.btoa (fromCharCode combined)
  else Err RangeError.

Definition decryptData (encryptedBase64 : jsstring) (key : CryptoKey)
  : result jsstring :=
  let* binary := Base64.atob encryptedBase64 in
  let bytes := List.map u8 binary in
  let iv := take 12 bytes in
  let data := drop 12 bytes in
  match subtle_decrypt key iv data with
  | Some decrypted => Ok (Utf8.TextDecoder_decode decrypted)
  | None => Err OperationError
  end.

End Cipher.

(** ** Regular expressions and [String.prototype.replace] *)

Module Regex.

(** The patterns the source uses: character classes, concatenation and
    greedy quantifiers.  Capture groups are not recorded, the
    replacement strings of the source refer to none. *)
Inductive regex : Type :=
| Eps
| Class (p : N -> bool)
| Seq (r1 r2 : regex)
| Quant (r : regex) (min : nat) (max : option nat).

Definition concat (rs : list regex) : regex := fold_right Seq Eps rs.

Definition cont : Type := jsstring -> option jsstring.
Definition matcher : Type := jsstring -> cont -> option jsstring.

(** RepeatMatcher of ECMA-262 (greedy).  The state is the input that is
    left and a successful match returns what follows it.  An iteration
    that is not required and consumes nothing is rejected.  [fuel]
    bounds the iterations: each uses up a required repetition or at
    least one character. *)
Fixpoint repeat_matcher (m : matcher) (fuel : nat) (min : nat)
    (max : option nat) (x : jsstring) (c : cont) : option jsstring :=
  match fuel with
  | O => None
  | S fuel' =>
      match max with
      | Some O => c x
      | _ =>
          let d : cont := fun y =>
            if Nat.eqb min 0 && Nat.eqb (length y) (length x) then None
            else repeat_matcher m fuel' (Nat.pred min) (option_map Nat.pred max) y c in
          match min with
          | O =>
              match m x d with
              | Some z => Some z
              | None => c x
              end
          | S _ => m x d
          end
      end
  end.

Fixpoint compile (r : regex) : matcher :=
  match r with
  | Eps => fun x c => c x
  | Class p => fun x c =>
      match x with
      | ch :: x' => if p ch then c x' else None
      | [] => None
      end
  | Seq r1 r2 => fun x c => compile r1 x (fun y => compile r2 y c)
  | Quant r' min max => fun x c =>
      repeat_matcher (compile r') (S (min + length x)) min max x c
  end.

(** A match of [r] that starts at the head of [x]: what is left of [x]
    behind it. *)
Definition match_here (r : regex) (x : jsstring) : option jsstring :=
  compile r x Some.

(** [s.replace(/r/g, t)] for a replacement [t] without [$]: the
    leftmost match is replaced and the search resumes behind it; after
    an empty match one character is copied. *)
Fixpoint replace_loop (fuel : nat) (r : regex) (t : jsstring) (s : jsstring)
  : jsstring :=
  match fuel with
  | O => s
  | S fuel' =>
      let copy :=
        match s with
        | [] => []
        | ch :: s' => ch :: replace_loop fuel' r t s'
        end in
      match match_here r s with
      | Some rest =>
          if Nat.ltb (length rest) (length s)
          then t ++ replace_loop fuel' r t rest
          else t ++ copy
      | None => copy
      end
  end.

Definition replace_all (r : regex) (t : jsstring) (s : jsstring) : jsstring :=
  replace_loop (S (length s)) r t s.


Local Open Scope N_scope.

Definition chr (a : ascii) : regex := Class (N.eqb (N_of_ascii a)).

Definition in_range (lo hi : ascii) (c : N) : bool :=
  (N_of_ascii lo <=? c) && (c <=? N_of_ascii hi).

Definition one_of (s : string) (c : N) : bool :=
  existsb (N.eqb c) (js s).

(** [\d] *)
Definition digit (c : N) : bool := in_range "0" "9" c.

(** [\s]: WhiteSpace and LineTerminator code points. *)
Definition space (c : N) : bool :=
  ((9 <=? c) && (c <=? 13)) || (c =? 32) || (c =? 0xA0) || (c =? 0x1680)
  || ((0x2000 <=? c) && (c <=? 0x200A)) || (c =? 0x2028) || (c =? 0x2029)
  || (c =? 0x202F) || (c =? 0x205F) || (c =? 0x3000) || (c =? 0xFEFF).

Definition alpha (c : N) : bool := in_range "a" "z" c || in_range "A" "Z" c.

(** [[a-zA-Z0-9._%+-]] *)
Definition email_local (c : N) : bool := alpha c || digit c || one_of "._%+-" c.

(** [[a-zA-Z0-9.-]] *)
Definition email_domain (c : N) : bool := alpha c || digit c || one_of ".-" c.

(** [[\s.-]] *)
Definition separator (c : N) : bool := space c || one_of ".-" c.

Definition plus (r : regex) : regex := Quant r 1 None.
Definition at_least (n : nat) (r : regex) : regex := Quant r n None.
Definition times (n : nat) (r : regex) : regex := Quant r n (Some n).
Definition between (n k : nat) (r : regex) : regex := Quant r n (Some k).
Definition opt (r : regex) : regex := Quant r 0 (Some 1%nat).

End Regex.

(** ** [redactPII] *)

Section Redaction.

Import Regex.

(** [/[a-zA-Z0-9._%+-]+@[a-zA-Z0-9.-]+\.[a-zA-Z]{2,}/g] *)
Definition email_pattern : regex :=
  concat [plus (Class email_local); chr "@"; plus (Class email_domain);
          chr "."; at_least 2 (Class alpha)].

(** [/(\+\d{1,2}\s?)?\(?\d{3}\)?[\s.-]?\d{3}[\s.-]?\d{4}/g] *)
Definition phone_pattern : regex :=
  concat [opt (concat [chr "+"; between 1 2 (Class digit); opt (Class space)]);
          opt (chr "("); times 3 (Class digit); opt (chr ")");
          opt (Class separator); times 3 (Class digit);
          opt (Class separator); times 4 (Class digit)].

Definition EMAIL_REDACTED : jsstring := js "[EMAIL_REDACTED]".
Definition PHONE_REDACTED : jsstring := js "[PHONE_REDACTED]".

Definition redact_emails (text : jsstring) : jsstring :=
  replace_all email_pattern EMAIL_REDACTED text.

Definition redact_phones (text : jsstring) : jsstring :=
  replace_all phone_pattern PHONE_REDACTED text.

Definition redactPII (text : jsstring) : jsstring :=
  let redacted := redact_emails text in
  let redacted := redact_phones redacted in
  redacted.

End Redaction.

(** ** Key management: [getPersistentKey] and [createSessionKey] *)

Definition KEY_ID : string := "master-session-key".

(** A request of IndexedDB: [onsuccess] with its result, or [onerror]
    with [request.error]. *)
Definition idb_request {A : Type} (succeeds : bool) (value : A) : result A :=
  if succeeds then Ok value else Err RequestError.

Section KeyManager.

Context {backend : AeadBackend}.

(** The database [harmony-security]: whether [indexedDB.open] succeeds,
    and the object store [keys]. *)
Record KeyDb : Type := mk_KeyDb {
  opens : bool;
  keys : gmap string CryptoKey
}.

Definition openKeyDB (db : KeyDb) : result unit :=
  if opens db then Ok tt else Err DbOpenError.

(** What one call of [getPersistentKey] meets. *)
Record KeyEnv : Type := mk_KeyEnv {
  get_succeeds : bool;              (* the request of [store.get(KEY_ID)] *)
  generateKey : option CryptoKey;   (* [None]: [generateKey] rejects *)
  put_completes : bool              (* the write transaction completes *)
}.

(** Where a call of [getPersistentKey] stands.  At each of these points
    the call waits for an event, and other calls can go on meanwhile. *)
Inductive KeyCall : Type :=
| Called                          (* waits for [openKeyDB()] *)
| Requested                       (* waits for the request of [store.get(KEY_ID)] *)
| Generating                      (* [request.result] was empty: waits for [generateKey] *)
| Writing (newKey : CryptoKey)    (* waits for the transaction of [put(newKey, KEY_ID)] *)
| Settled (outcome : result CryptoKey)
| Abandoned.                      (* nothing is left that settles the promise *)

(** The call goes on to the next point where it waits.  The read-only
    transaction sees the store as it is when the request is served, and
    [put] writes whatever the store holds by then.  The handler
    [onsuccess] catches nothing: when [generateKey] rejects, or the write
    transaction does not complete, neither [resolve] nor [reject] is ever
    called. *)
Definition key_step (env : KeyEnv) (call : KeyCall) (db : KeyDb) : KeyCall * KeyDb :=
  match call with
  | Called =>
      match openKeyDB db with
      | Ok _ => (Requested, db)
      | Err e => (Settled (Err e), db)
      end
  | Requested =>
      match idb_request (get_succeeds env) (keys db !! KEY_ID) with
      | Ok (Some stored) => (Settled (Ok stored), db)
      | Ok None => (Generating, db)
      | Err e => (Settled (Err e), db)
      end
  | Generating =>
      match generateKey env with
      | Some newKey => (Writing newKey, db)
      | None => (Abandoned, db)
      end
  | Writing newKey =>
      if put_completes env
      then (Settled (Ok newKey), mk_KeyDb (opens db) (<[KEY_ID := newKey]> (keys db)))
      else (Abandoned, db)
  | Settled _ | Abandoned => (call, db)
  end.

(** A call of [getPersistentKey] that no other call overlaps: its four
    steps, one after the other. *)
Definition getPersistentKey (env : KeyEnv) (db : KeyDb) : KeyCall * KeyDb :=
  let '(call, db) := key_step env Called db in
  let '(call, db) := key_step env call db in
  let '(call, db) := key_step env call db in
  key_step env call db.

(** [return getPersistentKey()] *)
Definition createSessionKey (env : KeyEnv) (db : KeyDb) : KeyCall * KeyDb :=
  getPersistentKey env db.

(** Calls that run at the same time, each with what it meets and where it
    stands; a call of [createSessionKey] is a call of [getPersistentKey].
    [schedule] names, event after event, the call that goes on.  Every
    order of the events is a schedule; IndexedDB rules some of them out,
    as a transaction waits for the read-write transactions on its store
    that were created before it. *)
Fixpoint run_calls (schedule : list nat) (calls : list (KeyEnv * KeyCall)) (db : KeyDb)
  : list (KeyEnv * KeyCall) * KeyDb :=
  match schedule with
  | [] => (calls, db)
  | i :: schedule' =>
      match calls !! i with
      | Some (env, call) =>
          let '(call', db') := key_step env call db in
          run_calls schedule' (<[i := (env, call')]> calls) db'
      | None => run_calls schedule' calls db
      end
  end.

End KeyManager.

(** ** The vector store: [services/vectorDbService.ts] *)

Inductive DocType : Type := chat | memory.

Module Doc.
Record VectorDocument : Type := mk {
  id : jsstring;
  content : jsstring;
  vector : list float;
  timestamp : N;
  type : DocType
}.
End Doc.
Abbreviation VectorDocument := Doc.VectorDocument.

Module Ctx.
Record MemoryContext : Type := mk {
  text : jsstring;
  timestamp : N;
  score : float
}.
End Ctx.
Abbreviation MemoryContext := Ctx.MemoryContext.

(** *** Math utilities *)

Section Math.

Local Open Scope float_scope.

(** [b[i]] is [undefined] beyond the length of [b], and a product with
    it is NaN. *)
Fixpoint dotProduct_from (sum : float) (a b : list float) : float :=
  match a with
  | [] => sum
  | x :: a' =>
      match b with
      | y :: b' => dotProduct_from (sum + x * y) a' b'
      | [] => dotProduct_from (sum + x * nan) a' []
      end
  end.

Definition dotProduct (a b : list float) : float := dotProduct_from 0 a b.

Definition magnitude (a : list float) : float :=
  PrimFloat.sqrt (fold_left (fun sum x => sum + x * x) a 0).

Definition cosineSimilarity (a b : list float) : float :=
  let magA := magnitude a in
  let magB := magnitude b in
  if (magA =? 0) || (magB =? 0) then 0
  else dotProduct a b / (magA * magB).

End Math.

(** *** The object store [vectors], with key path [id] *)

(** Keys that are strings compare by code units. *)
Fixpoint key_compare (a b : jsstring) : comparison :=
  match a, b with
  | [], [] => Eq
  | [], _ :: _ => Lt
  | _ :: _, [] => Gt
  | x :: a', y :: b' =>
      match N.compare x y with
      | Eq => key_compare a' b'
      | c => c
      end
  end.

(** The records of an object store, in ascending order of their keys. *)
Definition ObjectStore : Type := list VectorDocument.

(** [objectStore.add(doc)]: a record under a key that is present already
    is refused; the request fails with a [ConstraintError]. *)
Fixpoint idb_add (doc : VectorDocument) (store : ObjectStore) : result ObjectStore :=
  match store with
  | [] => Ok [doc]
  | d :: rest =>
      match key_compare (Doc.id doc) (Doc.id d) with
      | Lt => Ok (doc :: store)
      | Eq => Err ConstraintError
      | Gt => let* rest' := idb_add doc rest in Ok (d :: rest')
      end
  end.

(** [objectStore.getAll()]: every record, in key order. *)
Definition idb_getAll (store : ObjectStore) : list VectorDocument := store.

Definition idb_clear (store : ObjectStore) : ObjectStore := [].

(** *** Array methods *)

(** [Array.prototype.sort(comparefn)]: a stable sort; [x] stays before [y]
    unless [comparefn(x, y) > 0] (a NaN counts as [0]).  This is the order
    every engine gives when the comparisons are consistent with one
    another.  When they are not, as with a NaN among numbers that differ,
    the order is left to the engine, and this is but one of those it may
    give: the elements are the same, their order need not be. *)
Fixpoint sort_insert {A : Type} (comparefn : A -> A -> float) (x : A) (l : list A)
  : list A :=
  match l with
  | [] => [x]
  | y :: l' =>
      if (0 <? comparefn x y)%float then y :: sort_insert comparefn x l'
      else x :: l
  end.

Definition array_sort {A : Type} (comparefn : A -> A -> float) (l : list A)
  : list A :=
  fold_right (sort_insert comparefn) [] l.

(** [array.slice(0, end)] for an integer [end]; a negative [end] counts
    from the back. *)
Definition slice_to {A : Type} (stop : Z) (l : list A) : list A :=
  if (stop <? 0)%Z then take (Z.to_nat (Z.of_nat (length l) + stop)) l
  else take (Z.to_nat stop) l.

(** *** The service *)

(** What one call of [addDocument] draws from its environment. *)
Record Entropy : Type := mk_Entropy {
  iv : Nonce;                (* getRandomValues *)
  uuid : jsstring;           (* crypto.randomUUID() *)
  now : N;                   (* Date.now() *)
  embedding_first : bool     (* getEmbedding settles before encryptData *)
}.

(** [Promise.all([p, q])]: of two rejections, the one that comes first. *)
Definition Promise_all2 {A B : Type} (p_first : bool) (p : result A) (q : result B)
  : result (A * B) :=
  match p, q with
  | Ok a, Ok b => Ok (a, b)
  | Err e, Ok _ => Err e
  | Ok _, Err e => Err e
  | Err e, Err e' => Err (if p_first then e else e')
  end.

Definition ENCRYPTED_MEMORY : jsstring := js "[Encrypted Memory]".

Section VectorDb.

Context {backend : AeadBackend} {engine : Engine}.

(** The two promises the constructor creates, as they have settled. *)
Record VectorDbService : Type := mk_VectorDbService {
  dbPromise : result unit;
  keyPromise : result CryptoKey
}.

(** The constructor, when no other call of [getPersistentKey] overlaps
    its own.  While [keyPromise] has not settled every call of the service
    waits; when it never does there is no service to speak of. *)
Definition new_VectorDbService (env : KeyEnv) (kdb : KeyDb) (db_opens : bool)
  : option VectorDbService * KeyDb :=
  let '(call, kdb') := getPersistentKey env kdb in
  (match call with
   | Settled key =>
       Some (mk_VectorDbService (if db_opens then Ok tt else Err DbOpenError) key)
   | _ => None
   end, kdb').

(** The embedding provider, [getEmbedding]. *)
Variable getEmbedding : jsstring -> result (list float).

(** The first half of [addDocument]: the record it builds. *)
Definition new_document (this : VectorDbService) (rnd : Entropy)
    (text : jsstring) (type : DocType) : result VectorDocument :=
  let* _ := dbPromise this in
  let* key := keyPromise this in
  let* both :=
    Promise_all2 (embedding_first rnd)
      (getEmbedding text) (encryptData text key (iv rnd)) in
  let '(vector, encryptedContent) := both in
  Ok (Doc.mk (uuid rnd) encryptedContent vector (now rnd) type).

(** [tx.onerror] runs while the error of the request is dispatched: the
    transaction has not aborted yet and [tx.error] is still [null]. *)
Definition addDocument (this : VectorDbService) (rnd : Entropy)
    (text : jsstring) (type : DocType) (store : ObjectStore)
  : result unit * ObjectStore :=
  match new_document this rnd text type with
  | Err e => (Err e, store)
  | Ok doc =>
      match idb_add doc store with
      | Ok store' => (Ok tt, store')
      | Err _ => (Err Null, store)
      end
  end.

Definition scored : Type := VectorDocument * float.

(** [scoredDocs], sorted by score descending. *)
Definition scoredDocs (queryVector : list float) (allDocs : list VectorDocument)
  : list scored :=
  array_sort (fun a b => (snd b - snd a)%float)
    (List.map (fun doc => (doc, cosineSimilarity queryVector (Doc.vector doc))) allDocs).

(** The body of [topDocs.map(async (doc) => ...)] with its [catch]. *)
Definition decrypt_entry (key : CryptoKey) (doc : scored) : MemoryContext :=
  match decryptData (Doc.content (fst doc)) key with
  | Ok text => Ctx.mk text (Doc.timestamp (fst doc)) (snd doc)
  | Err _ => Ctx.mk ENCRYPTED_MEMORY (Doc.timestamp (fst doc)) (snd doc)
  end.

(** [scoredDocs.slice(0, limit)] *)
Definition topDocs (queryVector : list float) (limit : Z)
    (allDocs : list VectorDocument) : list scored :=
  slice_to limit (scoredDocs queryVector allDocs).

(** [reads]: whether the request of [getAll] succeeds. *)
Definition search (this : VectorDbService) (query : jsstring) (limit : Z)
    (reads : bool) (store : ObjectStore) : result (list MemoryContext) :=
  let* _ := dbPromise this in
  let* key := keyPromise this in
  let* queryVector := getEmbedding query in
  let* allDocs := idb_request reads (idb_getAll store) in
  if Nat.eqb (length allDocs) 0 then Ok []
  else Ok (List.map (decrypt_entry key) (topDocs queryVector limit allDocs)).

Definition clear (this : VectorDbService) (store : ObjectStore)
  : result unit * ObjectStore :=
  match dbPromise this with
  | Err e => (Err e, store)
  | Ok _ => (Ok tt, idb_clear store)
  end.

(** *** The memory steps of [handleSend] ([ChatInterface.tsx]) *)

(** [String.prototype.trim] leaves nothing of a blank input. *)
Definition is_blank (input : jsstring) : bool :=
  forallb Regex.space input.

(** The literal [0.65], as the double it denotes. *)
Definition RELEVANCE : float := 0x1.4cccccccccccdp-1%float.

(** Step 1: the context handed to the model; [doc.score > 0.65]. *)
Definition retrieve_context (this : VectorDbService) (cleanInput : jsstring)
    (reads : bool) (store : ObjectStore) : list MemoryContext :=
  match search this cleanInput 3 reads store with
  | Ok contextDocs => List.filter (fun doc => (RELEVANCE <? Ctx.score doc)%float) contextDocs
  | Err _ => []
  end.

(** [streamChat] is a parameter: from the context and the redacted input
    to the full response, or a failure.  The two [addDocument] calls of
    step 3 are both started; they are taken in the order of the source. *)
Definition handleSend
    (streamChat : list MemoryContext -> jsstring -> result jsstring)
    (this : VectorDbService) (rnd1 rnd2 : Entropy)
    (input : jsstring) (isLoading : bool) (reads : bool) (store : ObjectStore)
  : ObjectStore :=
  if is_blank input || isLoading then store
  else
    let cleanInput := redactPII input in
    let contextDocs := retrieve_context this cleanInput reads store in
    match streamChat contextDocs cleanInput with
    | Err _ => store
    | Ok fullResponse =>
        let '(_, store1) := addDocument this rnd1 cleanInput chat store in
        let '(_, store2) := addDocument this rnd2 fullResponse chat store1 in
        store2
    end.

End VectorDb.

(** ** The AI service: [services/geminiService.ts] *)

(** What a call of the service can throw or reject with. *)
Inductive Thrown : Type :=
| TypeError                       (* a property of [undefined] or [null] is read *)
| SyntaxError                     (* JSON.parse *)
| Error (message : jsstring)      (* new Error(message) *)
| Foreign (reason : N).           (* what a platform promise rejected with *)

(** A promise of the service that settles. *)
Inductive settled (A : Type) : Type :=
| Resolved (a : A)
| Rejected (reason : Thrown).
Arguments Resolved {A} a.
Arguments Rejected {A} reason.

(** *** Strings *)

(** [s.split(sep)] for a separator of one code unit. *)
Fixpoint split_on (sep : N) (s : jsstring) : list jsstring :=
  match s with
  | [] => [[]]
  | c :: s' =>
      if N.eqb c sep then [] :: split_on sep s'
      else
        match split_on sep s' with
        | piece :: pieces => (c :: piece) :: pieces
        | [] => [[c]]
        end
  end.

(** [s.endsWith(c)] for one code unit. *)
Definition endsWith (c : N) (s : jsstring) : bool :=
  match last s with
  | Some d => N.eqb d c
  | None => false
  end.

Definition COMMA : N := N_of_ascii ",".
Definition SLASH : N := N_of_ascii "/".
Definition LF : N := 10%N.
Definition QUOTE : N := 34%N.

(** *** JSON values *)

#[local] Unset Elimination Schemes.

(** What [JSON.parse] and [response.json()] return. *)
Inductive json : Type :=
| JNull
| JBool (b : bool)
| JNumber (x : float)
| JString (s : jsstring)
| JArray (items : list json)
| JObject (fields : list (jsstring * json)).

#[local] Set Elimination Schemes.

(** A value or [undefined]. *)
Definition jsvalue : Type := option json.

(** ToBoolean *)
Definition truthy (v : jsvalue) : bool :=
  match v with
  | None | Some JNull => false
  | Some (JBool b) => b
  | Some (JNumber x) => negb (PrimFloat.eqb x 0 || PrimFloat.is_nan x)
  | Some (JString s) => negb (Nat.eqb (length s) 0)
  | Some (JArray _) | Some (JObject _) => true
  end.

Fixpoint own_property (k : jsstring) (fields : list (jsstring * json)) : jsvalue :=
  match fields with
  | [] => None
  | (k', v) :: rest => if decide (k' = k) then Some v else own_property k rest
  end.

(** [v.k] for the names the source reads ([message], [content],
    [response], [models], [name]), none of which is inherited: an own
    property of an object, [undefined] on any other value, a [TypeError]
    on [null]. *)
Definition get_property (k : string) (v : json) : settled jsvalue :=
  match v with
  | JNull => Rejected TypeError
  | JObject fields => Resolved (own_property (js k) fields)
  | _ => Resolved None
  end.

(** [v?.k] where [v] may be [undefined] *)
Definition get_opt (k : string) (v : jsvalue) : jsvalue :=
  match v with
  | Some (JObject fields) => own_property (js k) fields
  | _ => None
  end.

(** *** Provider configuration *)

Inductive AIProvider : Type := GEMINI | OLLAMA.

(** The module variables [currentProvider], [localModelName] and
    [localBaseUrl]. *)
Record ProviderConfig : Type := mk_ProviderConfig {
  currentProvider : AIProvider;
  localModelName : jsstring;
  localBaseUrl : jsstring
}.

Definition initial_ProviderConfig : ProviderConfig :=
  mk_ProviderConfig GEMINI (js "llama3") (js "http://localhost:11434").

(** [if (s) x = s]: an argument that is left out or empty changes nothing. *)
Definition or_keep (s : option jsstring) (old : jsstring) : jsstring :=
  match s with
  | Some (c :: s') => c :: s'
  | _ => old
  end.

Definition setProviderConfig (provider : AIProvider) (model url : option jsstring)
    (cfg : ProviderConfig) : ProviderConfig :=
  mk_ProviderConfig provider (or_keep model (localModelName cfg))
    (or_keep url (localBaseUrl cfg)).

(** *** Ollama *)

Module History.
Record item : Type := mk { role : jsstring; parts : list jsstring }.
End History.

Module Ollama.
Record message : Type := mk { role : jsstring; content : jsstring }.
End Ollama.

(** The requests the service sends with [fetch]. *)
Inductive Request : Type :=
| GET (url : jsstring)
| POST_chat (url : jsstring) (model : jsstring) (messages : list Ollama.message).

(** The body of a response is read chunk by chunk; [ending] is the
    rejection of a [read()], if one fails after the chunks. *)
Record Body : Type := mk_Body {
  chunks : list (list byte);
  ending : option Thrown
}.

Record Response : Type := mk_Response {
  ok : bool;
  statusText : jsstring;
  body : option Body;
  parsed : settled json          (* response.json() *)
}.

(** [data.models.map((m) => m.name)] *)
Definition model_names (data : json) : settled (list jsvalue) :=
  match get_property "models" data with
  | Rejected e => Rejected e
  | Resolved (Some (JArray models)) =>
      fold_right
        (fun m acc =>
           match get_property "name" m, acc with
           | Resolved name, Resolved rest => Resolved (name :: rest)
           | Rejected e, _ => Rejected e
           | Resolved _, Rejected e => Rejected e
           end)
        (Resolved []) models
  | Resolved _ => Rejected TypeError
  end.

(** [getOllamaModels]: the names, or [[]] on any failure. *)
Definition getOllamaModels (fetch : Request -> settled Response) (baseUrl : jsstring)
  : list jsvalue :=
  let url := if endsWith SLASH baseUrl then removelast baseUrl else baseUrl in
  match fetch (GET (url ++ js "/api/tags")) with
  | Rejected _ => []
  | Resolved response =>
      if negb (ok response) then []
      else
        match parsed response with
        | Rejected _ => []
        | Resolved data =>
            match model_names data with
            | Resolved l => l
            | Rejected _ => []
            end
        end
  end.

(** The history in the format of Ollama; [h.parts[0].text] throws when
    [parts] is empty. *)
Fixpoint to_ollama_messages (history : list History.item) : settled (list Ollama.message) :=
  match history with
  | [] => Resolved []
  | h :: rest =>
      match History.parts h with
      | [] => Rejected TypeError
      | text :: _ =>
          match to_ollama_messages rest with
          | Resolved messages =>
              Resolved
                (Ollama.mk (if decide (History.role h = js "user")
                            then js "user" else js "assistant") text
                   :: messages)
          | Rejected e => Rejected e
          end
      end
  end.

(** A [TextDecoder] that is fed with [{ stream: true }]: the state of the
    UTF-8 decoder is kept between the calls, and so is what was seen of
    a byte order mark. *)
Record TextDecoder : Type := mk_TextDecoder {
  pending : Utf8.dstate;
  BOM_seen : bool
}.

Definition new_TextDecoder : TextDecoder := mk_TextDecoder Utf8.d_init false.

Fixpoint decode_bytes (st : Utf8.dstate) (bs : list byte) : Utf8.dstate * list N :=
  match bs with
  | [] => (st, [])
  | b :: rest =>
      let '(st', out) := Utf8.step st (Byte.to_N b) in
      let '(st'', out') := decode_bytes st' rest in
      (st'', out ++ out')
  end.

Definition decode_stream (decoder : TextDecoder) (value : list byte)
  : TextDecoder * jsstring :=
  let '(st, out) := decode_bytes (pending decoder) value in
  let shown := if BOM_seen decoder then out else Utf8.strip_bom out in
  (mk_TextDecoder st (BOM_seen decoder || negb (Nat.eqb (length out) 0)),
   Utf8.from_scalars shown).

(** The system message [streamOllamaChat] sends to [onChunk] before it
    rethrows. *)
Definition system_error (cfg : ProviderConfig) : jsstring :=
  [LF; LF] ++ js "[System Error]: Could not connect to Local LLM at "
    ++ localBaseUrl cfg ++ js "." ++ [LF; LF] ++ js "Potential fixes:" ++ [LF]
    ++ js "1. Ensure Ollama is running ('ollama serve')." ++ [LF]
    ++ js "2. Allow browser requests by setting environment variable: OLLAMA_ORIGINS="
    ++ [QUOTE] ++ js "*" ++ [QUOTE].

(** What the reading loop keeps from one turn to the next. *)
Record Reading : Type := mk_Reading {
  decoder : TextDecoder;
  buffer : jsstring
}.

Definition new_Reading : Reading := mk_Reading new_TextDecoder [].

Section Ollama.

Variable JSON_parse : jsstring -> option json.
Variable fetch : Request -> settled Response.

(** The body of [for (const line of lines)]: the calls of [onChunk] a
    line gives rise to.  What is thrown in it is caught. *)
Definition on_line (line : jsstring) : list json :=
  if is_blank line then []
  else
    match JSON_parse line with
    | None => []
    | Some data =>
        match get_property "message" data with
        | Rejected _ => []
        | Resolved message =>
            let content := get_opt "content" message in
            if truthy content then option_list content
            else
              match get_property "response" data with
              | Resolved response =>
                  if truthy response then option_list response else []
              | Rejected _ => []
              end
        end
    end.

(** One turn of the loop with a chunk [value]: the calls of [onChunk]. *)
Definition read_value (r : Reading) (value : list byte) : Reading * list json :=
  let '(decoder', text) := decode_stream (decoder r) value in
  let lines := split_on LF (buffer r ++ text) in
  (mk_Reading decoder' (List.last lines []), flat_map on_line (removelast lines)).

Fixpoint read_loop (r : Reading) (values : list (list byte)) : list json :=
  match values with
  | [] => []
  | value :: rest =>
      let '(r', calls) := read_value r value in calls ++ read_loop r' rest
  end.

(** [streamOllamaChat]: the calls of [onChunk], in order, and how the
    promise settles. *)
Definition streamOllamaChat (cfg : ProviderConfig) (history : list History.item)
    (newMessage : jsstring) : list json * settled unit :=
  let failed (calls : list json) (e : Thrown) :=
    (calls ++ [JString (system_error cfg)], Rejected e) in
  match to_ollama_messages history with
  | Rejected e => failed [] e
  | Resolved messages =>
      let messages := messages ++ [Ollama.mk (js "user") newMessage] in
      match fetch (POST_chat (localBaseUrl cfg ++ js "/api/chat")
                     (localModelName cfg) messages) with
      | Rejected e => failed [] e
      | Resolved response =>
          if negb (ok response)
          then failed [] (Error (js "Ollama API Error: " ++ statusText response))
          else
            match body response with
            | None => failed [] (Error (js "No response body"))
            | Some stream =>
                let calls := read_loop new_Reading (chunks stream) in
                match ending stream with
                | None => (calls, Resolved tt)
                | Some e => failed calls e
                end
            end
      end
  end.

End Ollama.

(** *** Gemini *)

Definition MODEL_VISION : jsstring := js "gemini-2.5-flash".
Definition MODEL_IMAGE : jsstring := js "gemini-2.5-flash-image".

Module Part.
Record Blob : Type := mk_Blob { mimeType : option jsstring; data : option jsstring }.
Record Part : Type := mk { inlineData : option Blob; text : option jsstring }.
End Part.
Abbreviation Part := Part.Part.

(** [{ model, contents: { parts }, config }] *)
Record GenerateRequest : Type := mk_GenerateRequest {
  request_model : jsstring;
  request_parts : list Part;
  aspectRatio : option jsstring
}.

Record Content : Type := mk_Content { parts : option (list Part) }.
Record Candidate : Type := mk_Candidate { content : option Content }.

(** [response.text] and [response.candidates] *)
Record GenerateResponse : Type := mk_GenerateResponse {
  response_text : option jsstring;
  candidates : option (list Candidate)
}.

(** What the chat stream of the SDK yields: the [text] of each chunk,
    and the error that ends the iteration, if one does. *)
Record ChatStream : Type := mk_ChatStream {
  chunk_texts : list (option jsstring);
  stream_error : option Thrown
}.

Definition OLLAMA_VISION_NOTICE : jsstring :=
  js "Visual analysis is currently optimized for Gemini Cloud. Please switch provider to use Vision features.".
Definition NO_ANALYSIS : jsstring := js "No analysis available.".
Definition DATA_URL_PREFIX : jsstring := js "data:image/png;base64,".

Section Gemini.

Variable JSON_parse : jsstring -> option json.
Variable fetch : Request -> settled Response.
Variable sendMessageStream : list History.item -> jsstring -> settled ChatStream.
Variable generateContent : GenerateRequest -> settled GenerateResponse.

(** [streamChat]: the calls of [onChunk] and how the promise settles. *)
Definition streamChat (cfg : ProviderConfig) (history : list History.item)
    (newMessage : jsstring) : list json * settled unit :=
  match currentProvider cfg with
  | OLLAMA => streamOllamaChat JSON_parse fetch cfg history newMessage
  | GEMINI =>
      match sendMessageStream history newMessage with
      | Rejected e => ([], Rejected e)
      | Resolved result =>
          (flat_map
             (fun text =>
                match text with
                | Some (c :: t) => [JString (c :: t)]
                | _ => []
                end) (chunk_texts result),
           match stream_error result with
           | None => Resolved tt
           | Some e => Rejected e
           end)
      end
  end.

Definition analyzeImage (cfg : ProviderConfig) (base64Image prompt : jsstring)
  : settled jsstring :=
  match currentProvider cfg with
  | OLLAMA => Resolved OLLAMA_VISION_NOTICE
  | GEMINI =>
      match generateContent
              (mk_GenerateRequest MODEL_VISION
                 [Part.mk (Some (Part.mk_Blob (Some (js "image/jpeg")) (Some base64Image)))
                    None;
                  Part.mk None (Some prompt)]
                 None) with
      | Resolved response =>
          Resolved (match response_text response with
                    | Some (c :: t) => c :: t
                    | _ => NO_ANALYSIS
                    end)
      | Rejected e => Rejected e
      end
  end.

(** The loop that collects the images of a response: the parts of the
    first candidate that carry data. *)
Definition images_of (response : GenerateResponse) : list jsstring :=
  match candidates response with
  | Some (mk_Candidate (Some (mk_Content (Some parts))) :: _) =>
      flat_map
        (fun part =>
           match Part.inlineData part with
           | Some blob =>
               match Part.data blob with
               | Some (c :: d) => [DATA_URL_PREFIX ++ c :: d]
               | _ => []
               end
           | None => []
           end) parts
  | _ => []
  end.

Definition generateImage (cfg : ProviderConfig) (prompt : jsstring)
  : settled (list jsstring) :=
  match currentProvider cfg with
  | OLLAMA => Rejected (Error (js "Image generation requires Gemini Cloud."))
  | GEMINI =>
      match generateContent
              (mk_GenerateRequest MODEL_IMAGE [Part.mk None (Some prompt)]
                 (Some (js "1:1"))) with
      | Resolved response => Resolved (images_of response)
      | Rejected e => Rejected e
      end
  end.

(** [base64Image.split(',')[1] || base64Image] *)
Definition base64Data (base64Image : jsstring) : jsstring :=
  match split_on COMMA base64Image with
  | _ :: (c :: d) :: _ => c :: d
  | _ => base64Image
  end.

(** The request [editImage] sends. *)
Definition edit_request (base64Image prompt : jsstring) : GenerateRequest :=
  mk_GenerateRequest MODEL_IMAGE
    [Part.mk (Some (Part.mk_Blob (Some (js "image/png")) (Some (base64Data base64Image))))
       None;
     Part.mk None (Some prompt)]
    (Some (js "1:1")).

Definition editImage (cfg : ProviderConfig) (base64Image prompt : jsstring)
  : settled (list jsstring) :=
  match currentProvider cfg with
  | OLLAMA => Rejected (Error (js "Image editing requires Gemini Cloud."))
  | GEMINI =>
      match generateContent (edit_request base64Image prompt) with
      | Resolved response => Resolved (images_of response)
      | Rejected e => Rejected e
      end
  end.

End Gemini.

(* ===================================================================== *)
(** * Part II: notions used in the statements                             *)
(* ===================================================================== *)

(** ** Codecs *)

Section CodecNotions.

Local Open Scope N_scope.

(** The six-bit groups of a byte sequence. *)
Fixpoint sextets (bs : list byte) : list N :=
  match bs with
  | [] => []
  | [a] => let a := Byte.to_N a in [a / 4; (a mod 4) * 16]
  | [a; b] =>
      let a := Byte.to_N a in
      let b := Byte.to_N b in
      [a / 4; (a mod 4) * 16 + b / 16; (b mod 16) * 4]
  | a :: b :: c :: rest =>
      let a := Byte.to_N a in
      let b := Byte.to_N b in
      let c := Byte.to_N c in
      a / 4 :: (a mod 4) * 16 + b / 16 :: (b mod 16) * 4 + c / 64 :: c mod 64
        :: sextets rest
  end.

(** The decoder on a whole byte sequence: the state it reaches and
    what it emits. *)
Fixpoint steps (st : Utf8.dstate) (bs : list byte) : Utf8.dstate * list N :=
  match bs with
  | [] => (st, [])
  | b :: r =>
      let '(st', out) := Utf8.step st (Byte.to_N b) in
      let '(st'', out') := steps st' r in
      (st'', out ++ out')
  end.

(** Unicode scalar values: code points that are not surrogates. *)
Definition is_scalar (cp : N) : Prop :=
  cp < 0x110000 /\ ~ (0xD800 <= cp <= 0xDFFF).

End CodecNotions.

(** ** The language of a pattern *)

Section RegexNotions.

Import Regex.

(** [n] words of [L], one after the other. *)
Fixpoint power (L : jsstring -> Prop) (n : nat) (w : jsstring) : Prop :=
  match n with
  | O => w = []
  | S n' => exists u v, w = u ++ v /\ L u /\ power L n' v
  end.

Definition within (n min : nat) (max : option nat) : Prop :=
  min <= n /\ forall k, max = Some k -> n <= k.

(** The words a pattern matches. *)
Fixpoint Lang (r : regex) (w : jsstring) : Prop :=
  match r with
  | Eps => w = []
  | Class p => exists ch, w = [ch] /\ p ch = true
  | Seq r1 r2 => exists u v, w = u ++ v /\ Lang r1 u /\ Lang r2 v
  | Quant r' min max => exists n, within n min max /\ power (Lang r') n w
  end.

(** A quantifier [{min,max}] with [max < min] is a syntax error. *)
Fixpoint well_formed (r : regex) : bool :=
  match r with
  | Eps | Class _ => true
  | Seq r1 r2 => well_formed r1 && well_formed r2
  | Quant r' min max =>
      well_formed r' && match max with Some k => Nat.leb min k | None => true end
  end.

(** A matcher finds only words of [L] ... *)
Definition sound (L : jsstring -> Prop) (m : matcher) : Prop :=
  forall x c z, m x c = Some z ->
    exists w y, x = w ++ y /\ L w /\ c y = Some z.

(** ... and fails only if no word of [L] at the head of the input is
    accepted by the continuation. *)
Definition complete (L : jsstring -> Prop) (m : matcher) : Prop :=
  forall x c, m x c = None ->
    forall w y, x = w ++ y -> L w -> c y = None.

(** No substring of [s] is a word of [r]. *)
Definition nomatch (r : regex) (s : jsstring) : Prop :=
  forall pre w post, s = pre ++ w ++ post -> ~ Lang r w.

(** The characters the words of a pattern are made of. *)
Fixpoint alphabet (r : regex) (ch : N) : bool :=
  match r with
  | Eps => false
  | Class p => p ch
  | Seq r1 r2 => alphabet r1 ch || alphabet r2 ch
  | Quant r' _ _ => alphabet r' ch
  end.

(** A replacement text is guarded against [r] when it is fenced by two
    characters outside the alphabet of [r] and holds no word of [r]. *)
Definition guarded (r : regex) (t : jsstring) : Prop :=
  exists b1 body b2,
    t = b1 :: body ++ [b2]
    /\ alphabet r b1 = false /\ alphabet r b2 = false /\ nomatch r body.

(** While the characters of [pre] were copied, no match began at any
    of them. *)
Definition unmatched (r : regex) (pre s : jsstring) : Prop :=
  forall p1 p2, pre = p1 ++ p2 -> p2 <> [] -> match_here r (p2 ++ s) = None.

(** What a word of a pattern must contain. *)
Definition needs (r : regex) (q : N -> bool) : Prop :=
  forall w, Lang r w -> exists ch, In ch w /\ q ch = true.

(** A continuation returns a suffix no longer than its input. *)
Definition shrinking (c : cont) : Prop :=
  forall y res, c y = Some res -> length res <= length y.

(** On inputs of at most [n] characters followed by [z], [c1] and [c2]
    agree as long as the result of [c1] still ends with all of [z]. *)
Definition stable (z : jsstring) (n : nat) (c1 c2 : cont) : Prop :=
  forall y, length y <= n ->
    (forall res, c1 (y ++ z) = Some res -> length z <= length res ->
                 exists res', res = res' ++ z /\ c2 y = Some res')
    /\ (c1 (y ++ z) = None -> c2 y = None).

Definition stable_matcher (m : matcher) : Prop :=
  forall z n c1 c2, shrinking c1 -> stable z n c1 c2 ->
    stable z n (fun x => m x c1) (fun x => m x c2).

(** The code units of [s] that the global scan for [r] replaces. *)
Fixpoint marks_loop (fuel : nat) (r : regex) (s : jsstring) : list bool :=
  match fuel with
  | O => repeat false (length s)
  | S fuel' =>
      let copy :=
        match s with
        | [] => []
        | _ :: s' => false :: marks_loop fuel' r s'
        end in
      match match_here r s with
      | Some rest =>
          if Nat.ltb (length rest) (length s)
          then repeat true (length s - length rest) ++ marks_loop fuel' r rest
          else copy
      | None => copy
      end
  end.

Definition marks (r : regex) (s : jsstring) : list bool :=
  marks_loop (S (length s)) r s.

(** Two scans marked the same code unit. *)
Fixpoint overlap (a b : list bool) : bool :=
  match a, b with
  | x :: a', y :: b' => (x && y) || overlap a' b'
  | _, _ => false
  end.

End RegexNotions.

(** ** Stores and sequences of calls *)

(** Where a call of [getPersistentKey] can stand while a key is stored
    and no call has found the store empty: it reads, and writes nothing. *)
Definition reads_only {backend : AeadBackend} (key : CryptoKey) (call : KeyCall) : Prop :=
  match call with
  | Called | Requested => True
  | Settled (Ok key') => key' = key
  | Settled (Err _) => True
  | Generating | Writing _ | Abandoned => False
  end.

(** Ascending keys. *)
Definition key_lt (a b : VectorDocument) : Prop :=
  key_compare (Doc.id a) (Doc.id b) = Lt.

Section Sequences.

Context {backend : AeadBackend} {engine : Engine}.
Variable getEmbedding : jsstring -> result (list float).

(** A sequence of [addDocument] calls: the records that were added, in
    the order of the calls, and the store at the end. *)
Fixpoint add_sequence (this : VectorDbService)
    (calls : list (Entropy * jsstring * DocType)) (store : ObjectStore)
  : list VectorDocument * ObjectStore :=
  match calls with
  | [] => ([], store)
  | (rnd, text, type) :: calls' =>
      let '(outcome, store') := addDocument getEmbedding this rnd text type store in
      let '(added, final) := add_sequence this calls' store' in
      match outcome, new_document getEmbedding this rnd text type with
      | Ok _, Ok doc => (doc :: added, final)
      | _, _ => (added, final)
      end
  end.

End Sequences.

(** ** A reference backend and a sample environment

    The plaintext reversed, followed by a sixteen-byte checksum of key,
    nonce and plaintext as its tag.  It has nothing of AES-GCM but the law
    of [AeadBackend], which is all the model asks of the backend; it
    serves to run the model on examples. *)

Definition checksum (k : byte) (iv plaintext : list byte) : list byte :=
  let sum :=
    fold_right (fun b acc => (Byte.to_N b + acc)%N) (Byte.to_N k) (iv ++ plaintext) in
  repeat (u8 sum) 16.

Definition mirror_encrypt (k : byte) (iv plaintext : list byte) : list byte :=
  rev plaintext ++ checksum k iv plaintext.

Definition mirror_decrypt (k : byte) (iv data : list byte) : option (list byte) :=
  if Nat.ltb (length data) 16 then None
  else
    let n := (length data - 16)%nat in
    let plaintext := rev (take n data) in
    if decide (List.map Byte.to_N (drop n data)
               = List.map Byte.to_N (checksum k iv plaintext))
    then Some plaintext else None.

#[local] Instance mirror_backend : AeadBackend.
Proof.
  refine {| CryptoKey := byte;
            subtle_encrypt := mirror_encrypt;
            subtle_decrypt := mirror_decrypt |}.
  intros key iv plaintext _. unfold mirror_decrypt, mirror_encrypt.
  assert (Htag : length (checksum key iv plaintext) = 16%nat) by apply repeat_length.
  rewrite length_app, Htag, length_rev.
  destruct (Nat.ltb_spec (length plaintext + 16) 16); [lia|].
  replace (length plaintext + 16 - 16)%nat with (length (rev plaintext))
    by (rewrite length_rev; lia).
  rewrite take_app_length, drop_app_length, rev_involutive.
  now rewrite decide_True.
Defined.

(** An engine that takes 4096 arguments in a call. *)
#[local] Instance sample_engine : Engine := {| argument_limit := 4096 |}.

(** Twelve bytes to stand for a drawn nonce. *)
Definition sample_nonce : Nonce :=
  mk_Nonce (List.map u8 [3; 1; 4; 1; 5; 9; 2; 6; 5; 3; 5; 8]%N) eq_refl.

Definition sample_service : VectorDbService (backend := mirror_backend) :=
  mk_VectorDbService (Ok tt) (Ok Byte.x2a).

Definition sample_entropy (uuid : string) (now : N) : Entropy :=
  mk_Entropy sample_nonce (js uuid) now true.

(** An embedding provider that looks at the first letter only, and fails
    on the empty text. *)
Definition axis_embedding (text : jsstring) : result (list float) :=
  match text with
  | [] => Err ProviderError
  | ch :: _ =>
      if N.eqb ch (N_of_ascii "x") then Ok [1; 0]%float
      else if N.eqb ch (N_of_ascii "y") then Ok [0; 1]%float
      else if N.eqb ch (N_of_ascii "z") then Ok [-1; 0]%float
      else Ok [1; 1]%float
  end.

(** ** Notions for the further properties *)

(** A JavaScript string: code units of sixteen bits. *)
Definition is_string (s : jsstring) : Prop := Forall (fun c => (c < 0x10000)%N) s.

(** [String.prototype.toWellFormed]: every lone surrogate becomes
    U+FFFD. *)
Fixpoint toWellFormed (s : jsstring) : jsstring :=
  match s with
  | [] => []
  | c :: rest =>
      if Utf8.is_lead c then
        match rest with
        | d :: rest' =>
            if Utf8.is_trail d then c :: d :: toWellFormed rest'
            else Utf8.replacement :: toWellFormed rest
        | [] => [Utf8.replacement]
        end
      else if Utf8.is_trail c then Utf8.replacement :: toWellFormed rest
      else c :: toWellFormed rest
  end.

(** A character that neither pattern of [redactPII] can match: not a
    letter, a digit or white space, and none of [._%+-@()]. *)
Definition delimiter (b : N) : bool :=
  negb (Regex.alpha b || Regex.digit b || Regex.space b || Regex.one_of "._%+-@()" b).

(** Scores from the highest to the lowest. *)
Definition descending (scores : list float) : Prop :=
  StronglySorted (fun a b => (b <=? a)%float = true) scores.

(** A number of the given sign that is neither zero nor NaN. *)
Definition signed (s : bool) (r : spec_float) : Prop :=
  match r with
  | S754_finite s' _ _ | S754_infinity s' => s' = s
  | _ => False
  end.

(** The text a streaming decoder makes of all the chunks of a body. *)
Definition stream_text (values : list (list byte)) : jsstring :=
  snd (decode_stream new_TextDecoder (List.concat values)).

(** The states the UTF-8 decoder can be in: the code point that is being
    put together cannot come out below U+0010. *)
Definition open_sequence (st : Utf8.dstate) : Prop :=
  Utf8.d_needed st = 0%N
  \/ (128 <= Utf8.d_lower st /\ Utf8.d_upper st <= 191
      /\ 16 <= Utf8.d_cp st * 64 + (Utf8.d_lower st - 128))%N.

(** A sequence of [setProviderConfig] calls, the first at the head. *)
Definition configure (calls : list (AIProvider * option jsstring * option jsstring))
    (cfg : ProviderConfig) : ProviderConfig :=
  fold_left (fun cfg '(provider, model, url) => setProviderConfig provider model url cfg)
    calls cfg.

(** ** More values to run the model on *)

(** Three records whose vectors point along the axes and the diagonal. *)
Definition sample_store : ObjectStore :=
  [Doc.mk (js "1d4e") [] [0; 1]%float 7 chat;
   Doc.mk (js "7f00") [] [1; 1]%float 8 chat;
   Doc.mk (js "c0a8") [] [1; 0]%float 9 memory].

(** A response with two images and a part of text, to run the model
    on. *)
Definition sample_response : GenerateResponse :=
  mk_GenerateResponse None
    (Some [mk_Candidate
             (Some (mk_Content
                      (Some [Part.mk (Some (Part.mk_Blob (Some (js "image/png"))
                                              (Some (js "iVBORw0KGgo=")))) None;
                             Part.mk None (Some (js "a cover"));
                             Part.mk (Some (Part.mk_Blob None (Some (js "R0lGODdh")))) None])))]).

(** An Ollama server at the default address that lists one model. *)
Definition sample_fetch (request : Request) : settled Response :=
  match request with
  | GET url =>
      if decide (url = js "http://localhost:11434/api/tags")
      then Resolved
             (mk_Response true (js "OK") None
                (Resolved
                   (JObject
                      [(js "models",
                        JArray [JObject [(js "name", JString (js "llama3:latest"))]])])))
      else Rejected (Foreign 0)
  | POST_chat _ _ _ => Rejected (Foreign 0)
  end.

(* ===================================================================== *)
(** * Part III: properties                                                *)
(* ===================================================================== *)

(** Case analysis on the comparisons of [N] in the goal. *)
Ltac case_cmp :=
  repeat match goal with
         | |- context [N.leb ?a ?b] => destruct (N.leb_spec a b)
         | |- context [N.ltb ?a ?b] => destruct (N.ltb_spec a b)
         | |- context [N.eqb ?a ?b] => destruct (N.eqb_spec a b)
         | H : context [N.leb ?a ?b] |- _ => destruct (N.leb_spec a b)
         | H : context [N.ltb ?a ?b] |- _ => destruct (N.ltb_spec a b)
         | H : context [N.eqb ?a ?b] |- _ => destruct (N.eqb_spec a b)
         end.

(** Comparisons of [N] that arithmetic settles are replaced by their
    value. *)
Ltac eval_cmp :=
  repeat match goal with
         | |- context [N.leb ?a ?b] =>
             first [ replace (N.leb a b) with true by (symmetry; apply N.leb_le; lia)
                   | replace (N.leb a b) with false by (symmetry; apply N.leb_gt; lia) ]
         | |- context [N.ltb ?a ?b] =>
             first [ replace (N.ltb a b) with true by (symmetry; apply N.ltb_lt; lia)
                   | replace (N.ltb a b) with false by (symmetry; apply N.ltb_ge; lia) ]
         | |- context [N.eqb ?a ?b] =>
             first [ replace (N.eqb a b) with true by (symmetry; apply N.eqb_eq; lia)
                   | replace (N.eqb a b) with false by (symmetry; apply N.eqb_neq; lia) ]
         end;
  cbn [andb orb negb].

(** ** The platform model on known values *)

Example atob_Man : Base64.atob (js "TWFu") = Ok (js "Man").
Proof. reflexivity. Qed.

Example atob_whitespace_and_padding :
  Base64.atob (js " TW Fu") = Ok (js "Man")
  /\ Base64.atob (js "TQ==") = Ok (js "M")
  /\ Base64.atob (js "TQ") = Ok (js "M").
Proof. repeat split; reflexivity. Qed.

Example atob_failure :
  Base64.atob (js "T") = Err InvalidCharacterError
  /\ Base64.atob (js "TQ=") = Err InvalidCharacterError.
Proof. split; reflexivity. Qed.

Example btoa_Ma : Base64.btoa (js "Ma") = Ok (js "TWE=").
Proof. reflexivity. Qed.

Example encode_euro_sign :
  List.map Byte.to_N (Utf8.TextEncoder_encode [0x20AC]%N) = [0xE2; 0x82; 0xAC]%N.
Proof. reflexivity. Qed.

Example encode_surrogate_pair :
  List.map Byte.to_N (Utf8.TextEncoder_encode [0xD83D; 0xDE00]%N)
  = [0xF0; 0x9F; 0x98; 0x80]%N.
Proof. reflexivity. Qed.

Example decode_replaces_ill_formed_bytes :
  Utf8.TextDecoder_decode (List.map u8 [0xFF; 0x41; 0xE2; 0x82]%N)
  = [0xFFFD; 0x41; 0xFFFD]%N.
Proof. reflexivity. Qed.

Example cosineSimilarity_bounds :
  cosineSimilarity [3; 4]%float [3; 4]%float = 1%float
  /\ cosineSimilarity [3; 4]%float [-3; -4]%float = (-1)%float
  /\ cosineSimilarity [0; 0]%float [1; 2]%float = 0%float.
Proof. repeat split; reflexivity. Qed.

Example array_sort_descending :
  array_sort (fun a b => (b - a)%float) [1; 3; 2; 3; 0]%float = [3; 3; 2; 1; 0]%float.
Proof. reflexivity. Qed.

Example replace_empty_matches :
  Regex.replace_all (Regex.Quant (Regex.chr "b") 0 None) (js "-") (js "abc")
  = js "-a--c-".
Proof. vm_compute. reflexivity. Qed.

Example redactPII_backtracks :
  redactPII (js "john.doe+tag@mail.example.co.uk!") = js "[EMAIL_REDACTED]!"
  /\ redactPII (js "a@b.c") = js "a@b.c"
  /\ redactPII (js "+1 (555) 123-4567") = js "[PHONE_REDACTED]"
  /\ redactPII (js "1234567890123") = js "[PHONE_REDACTED]123".
Proof. repeat split; vm_compute; reflexivity. Qed.

(** ** Bytes *)

Lemma u8_to_N (b : byte) : u8 (Byte.to_N b) = b.
Proof.
  unfold u8. pose proof (Byte.to_N_bounded b) as Hb.
  rewrite N.mod_small by lia. now rewrite Byte.of_to_N.
Qed.

Lemma to_N_u8 (n : N) : Byte.to_N (u8 n) = (n mod 256)%N.
Proof.
  unfold u8. destruct (Byte.of_N (n mod 256)) as [b|] eqn:E.
  - now apply Byte.to_of_N.
  - apply Byte.of_N_None_iff in E. lia.
Qed.

Lemma u8_eq (n : N) (b : byte) : (n mod 256)%N = Byte.to_N b -> u8 n = b.
Proof. intros E. unfold u8. now rewrite E, Byte.of_to_N. Qed.

Lemma to_N_u8_small (n : N) : (n < 256)%N -> Byte.to_N (u8 n) = n.
Proof. intros. rewrite to_N_u8. apply N.mod_small. lia. Qed.

Lemma map_u8_fromCharCode (bs : list byte) : List.map u8 (fromCharCode bs) = bs.
Proof.
  unfold fromCharCode. induction bs as [|b bs IH]; simpl; [done|].
  now rewrite u8_to_N, IH.
Qed.

Lemma fromCharCode_bounded (bs : list byte) :
  forallb (fun c => (c <=? 255)%N) (fromCharCode bs) = true.
Proof.
  induction bs as [|b bs IH]; simpl; [done|].
  rewrite IH, andb_true_r. apply N.leb_le, Byte.to_N_bounded.
Qed.

(** ** Base64 *)

Section Base64Facts.

Import Base64.
Local Open Scope N_scope.

(** Lists three elements at a time. *)
Lemma list_ind3 {A : Type} (P : list A -> Prop) :
  P [] -> (forall a, P [a]) -> (forall a b, P [a; b]) ->
  (forall a b c l, P l -> P (a :: b :: c :: l)) ->
  forall l, P l.
Proof.
  intros H0 H1 H2 H3 l.
  enough (P l /\ (forall a, P (a :: l)) /\ (forall a b, P (a :: b :: l))) by tauto.
  induction l as [|x l (IH0 & IH1 & IH2)]; [by auto|].
  split; [apply IH1|]. split; [intros; apply IH2|].
  intros a b. apply H3, IH0.
Qed.

Lemma b64_char_not_pad (i : N) : (b64_char i =? pad) = false.
Proof. unfold b64_char, pad. case_cmp; lia. Qed.

Lemma b64_char_not_whitespace (i : N) : is_ascii_whitespace (b64_char i) = false.
Proof. unfold b64_char, is_ascii_whitespace. case_cmp; simpl; lia. Qed.

(** A property of all numbers below a bound, by enumeration. *)
Lemma forall_below (f : N -> bool) (n : nat) :
  forallb f (List.map N.of_nat (seq 0 n)) = true ->
  forall i, i < N.of_nat n -> f i = true.
Proof.
  intros Hall i Hi. rewrite forallb_forall in Hall. apply Hall.
  apply in_map_iff. exists (N.to_nat i). split; [lia|].
  apply in_seq. lia.
Qed.

Lemma b64_index_char (i : N) : i < 64 -> b64_index (b64_char i) = Some i.
Proof.
  intros Hi.
  pose (f := fun i => match b64_index (b64_char i) with
                      | Some j => j =? i
                      | None => false
                      end).
  assert (Hf : f i = true) by (apply (forall_below f 64); [reflexivity|exact Hi]).
  unfold f in Hf. destruct (b64_index (b64_char i)); [|discriminate].
  apply N.eqb_eq in Hf. now subst.
Qed.

Lemma sextets_bounded (bs : list byte) : Forall (fun i => i < 64) (sextets bs).
Proof.
  induction bs as [|a|a b|a b c l IH] using list_ind3; simpl;
    try pose proof (Byte.to_N_bounded a); try pose proof (Byte.to_N_bounded b);
    try pose proof (Byte.to_N_bounded c);
    repeat (apply Forall_cons; split; [lia|]); auto.
Qed.

Lemma encode_not_whitespace (bs : list byte) :
  List.filter (fun c => negb (is_ascii_whitespace c)) (encode bs) = encode bs.
Proof.
  induction bs as [|a|a b|a b c l IH] using list_ind3;
    cbn [encode List.filter]; rewrite ?b64_char_not_whitespace;
    cbn [negb List.filter]; rewrite ?IH; reflexivity.
Qed.

Lemma encode_length (bs : list byte) : N.of_nat (length (encode bs)) mod 4 = 0.
Proof.
  induction bs as [|a|a b|a b c l IH] using list_ind3; simpl; try reflexivity.
  change (N.of_nat (S (S (S (S (length (encode l))))))) with
    (N.of_nat (4 + length (encode l))).
  lia.
Qed.

Lemma strip_padding_encode (bs : list byte) :
  strip_padding (encode bs) = List.map b64_char (sextets bs).
Proof.
  induction bs as [|a|a b|a b c l IH] using list_ind3.
  - reflexivity.
  - reflexivity.
  - cbn -[b64_char]. now rewrite b64_char_not_pad.
  - assert (Hcons : forall x y z l', strip_padding (x :: y :: z :: l')
                                     = x :: strip_padding (y :: z :: l'))
      by reflexivity.
    cbn [encode sextets List.map].
    rewrite !Hcons. do 3 f_equal.
    destruct (encode l) as [|x [|y l']] eqn:E.
    + destruct l as [|? [|? [|? ?]]]; try discriminate E.
      cbn -[b64_char]. now rewrite b64_char_not_pad.
    + exfalso. pose proof (encode_length l) as Hl. rewrite E in Hl. discriminate Hl.
    + rewrite <- E in *. rewrite <- IH.
      rewrite E. reflexivity.
Qed.

Lemma indices_map_char (sx : list N) :
  Forall (fun i => i < 64) sx -> indices (List.map b64_char sx) = Some sx.
Proof.
  induction 1 as [|i sx Hi _ IH]; [reflexivity|].
  cbn [List.map indices]. now rewrite b64_index_char, IH.
Qed.

Lemma sextets_length (bs : list byte) :
  N.of_nat (length (sextets bs)) mod 4 <> 1.
Proof.
  induction bs as [|a|a b|a b c l IH] using list_ind3; cbn [sextets length]; lia.
Qed.

Lemma decode_sextets_sextets (bs : list byte) : decode_sextets (sextets bs) = bs.
Proof.
  induction bs as [|a|a b|a b c l IH] using list_ind3; [reflexivity|..];
    pose proof (Byte.to_N_bounded a); try pose proof (Byte.to_N_bounded b);
    try pose proof (Byte.to_N_bounded c);
    cbn [sextets decode_sextets]; rewrite ?IH;
    repeat first [apply u8_eq; lia | progress f_equal].
Qed.

Lemma decode_encode (bs : list byte) : decode (encode bs) = Some bs.
Proof.
  unfold decode. rewrite encode_not_whitespace, encode_length.
  cbn [N.eqb]. rewrite strip_padding_encode, length_map.
  destruct (N.eqb_spec (N.of_nat (length (sextets bs)) mod 4) 1) as [E|_].
  - now apply sextets_length in E.
  - rewrite indices_map_char by apply sextets_bounded.
    cbn [option_map]. now rewrite decode_sextets_sextets.
Qed.

(** [btoa] of the string of a byte array. *)
Lemma btoa_fromCharCode (bs : list byte) : btoa (fromCharCode bs) = Ok (encode bs).
Proof. unfold btoa. now rewrite fromCharCode_bounded, map_u8_fromCharCode. Qed.

End Base64Facts.

(** ** UTF-8 *)

Section Utf8Facts.

Import Utf8.
Local Open Scope N_scope.

(** Shifts and masks as arithmetic. *)
Lemma lor_shiftl (a b n : N) : b < 2 ^ n -> N.lor (N.shiftl a n) b = a * 2 ^ n + b.
Proof.
  intros Hb.
  assert (Hdisjoint : N.land (N.shiftl a n) b = 0).
  { apply N.bits_inj. intros m. rewrite N.land_spec, N.bits_0.
    destruct (N.lt_ge_cases m n) as [Hm|Hm].
    - now rewrite N.shiftl_spec_low.
    - rewrite <- (N.mod_small b (2 ^ n)) by exact Hb.
      rewrite N.mod_pow2_bits_high by exact Hm. apply andb_false_r. }
  rewrite <- N.lxor_lor, <- N.add_nocarry_lxor by exact Hdisjoint.
  now rewrite N.shiftl_mul_pow2.
Qed.

Lemma land_mask (a n : N) : N.land a (N.ones n) = a mod 2 ^ n.
Proof. apply N.land_ones. Qed.

Lemma lor_0x80 (y : N) : y < 64 -> N.lor 0x80 y = 128 + y.
Proof. intros. apply (lor_shiftl 2 y 6). exact H. Qed.

Lemma to_N_continuation (cp k : N) :
  Byte.to_N (continuation cp k) = 128 + (cp / 2 ^ (6 * k)) mod 64.
Proof.
  unfold continuation. rewrite N.shiftr_div_pow2.
  change 0x3F with (N.ones 6). rewrite land_mask. change (2 ^ 6) with 64.
  assert ((cp / 2 ^ (6 * k)) mod 64 < 64) by (apply N.mod_lt; discriminate).
  rewrite lor_0x80 by assumption.
  apply to_N_u8_small. lia.
Qed.

Lemma run_app (st : dstate) (bs rest : list byte) :
  run st (bs ++ rest) = snd (steps st bs) ++ run (fst (steps st bs)) rest.
Proof.
  revert st. induction bs as [|b bs IH]; intros st; [reflexivity|].
  cbn [app run steps]. destruct (step st (Byte.to_N b)) as [st' out].
  rewrite IH. destruct (steps st' bs) as [st'' out']. cbn [fst snd].
  now rewrite app_assoc.
Qed.

Lemma lead_ascii (b : N) : b <= 0x7F -> lead b = (d_init, [b]).
Proof. intros. unfold lead. now eval_cmp. Qed.

Lemma lead_two (a : N) :
  2 <= a < 32 -> lead (0xC0 + a) = (mk_dstate a 1 0 0x80 0xBF, []).
Proof.
  intros. unfold lead. change 0x1F with (N.ones 5). rewrite land_mask.
  change (2 ^ 5) with 32. replace ((0xC0 + a) mod 32) with a by lia.
  now eval_cmp.
Qed.

Lemma lead_three (a : N) :
  a < 16 ->
  lead (0xE0 + a) =
    (mk_dstate a 2 0 (if a =? 0 then 0xA0 else 0x80) (if a =? 13 then 0x9F else 0xBF), []).
Proof.
  intros. unfold lead. change 0xF with (N.ones 4). rewrite land_mask.
  change (2 ^ 4) with 16. replace ((0xE0 + a) mod 16) with a by lia.
  destruct (N.eqb_spec a 0), (N.eqb_spec a 13); try lia; now eval_cmp.
Qed.

Lemma lead_four (a : N) :
  a <= 4 ->
  lead (0xF0 + a) =
    (mk_dstate a 3 0 (if a =? 0 then 0x90 else 0x80) (if a =? 4 then 0x8F else 0xBF), []).
Proof.
  intros. unfold lead. change 0x7 with (N.ones 3). rewrite land_mask.
  change (2 ^ 3) with 8. replace ((0xF0 + a) mod 8) with a by lia.
  destruct (N.eqb_spec a 0), (N.eqb_spec a 4); try lia; now eval_cmp.
Qed.

(** A continuation byte inside the bounds of the open sequence. *)
Lemma step_continuation (st : dstate) (x : N) :
  d_needed st <> 0 -> x < 64 ->
  d_lower st <= 128 + x <= d_upper st ->
  step st (128 + x) =
    if d_seen st + 1 =? d_needed st then (d_init, [d_cp st * 64 + x])
    else (mk_dstate (d_cp st * 64 + x) (d_needed st) (d_seen st + 1) 0x80 0xBF, []).
Proof.
  intros Hn Hx Hb. unfold step.
  destruct (N.eqb_spec (d_needed st) 0) as [|_]; [done|].
  destruct (N.ltb_spec (128 + x) (d_lower st)); [lia|].
  destruct (N.ltb_spec (d_upper st) (128 + x)); [lia|]. cbn [orb].
  change 0x3F with (N.ones 6). rewrite land_mask. change (2 ^ 6) with 64.
  replace ((128 + x) mod 64) with x by lia.
  rewrite lor_shiftl by (change (2 ^ 6) with 64; lia).
  reflexivity.
Qed.

Lemma step_init (b : N) : step d_init b = lead b.
Proof. reflexivity. Qed.

(** The decoder reads the encoding of a scalar value back, and is left
    in its initial state. *)
Lemma steps_encode_cp (cp : N) :
  is_scalar cp -> steps d_init (encode_cp cp) = (d_init, [cp]).
Proof.
  intros [Hmax Hsur]. unfold encode_cp.
  destruct (N.leb_spec cp 0x7F);
    [|destruct (N.leb_spec cp 0x7FF); [|destruct (N.leb_spec cp 0xFFFF)]];
    cbn [steps]; rewrite ?N.shiftr_div_pow2, ?to_N_continuation;
    change (2 ^ 18) with 262144; change (2 ^ 12) with 4096;
    change (2 ^ (6 * 2)) with 4096; change (2 ^ (6 * 1)) with 64;
    change (2 ^ 6) with 64; change (2 ^ (6 * 0)) with 1.
  - rewrite to_N_u8_small, step_init, lead_ascii by lia. reflexivity.
  - rewrite to_N_u8_small, step_init, (N.add_comm _ 0xC0), lead_two by lia.
    rewrite step_continuation by (cbn [d_needed d_lower d_upper]; lia).
    cbn [d_needed d_seen d_cp]. eval_cmp. cbn [app]. do 2 f_equal. lia.
  - rewrite to_N_u8_small, step_init, (N.add_comm _ 0xE0), lead_three by lia.
    rewrite step_continuation
      by (cbn [d_needed d_lower d_upper];
          destruct (N.eqb_spec (cp / 4096) 0), (N.eqb_spec (cp / 4096) 13); lia).
    cbn [d_needed d_seen d_cp]. eval_cmp.
    rewrite step_continuation by (cbn [d_needed d_lower d_upper]; lia).
    cbn [d_needed d_seen d_cp]. eval_cmp. cbn [app]. do 2 f_equal. lia.
  - rewrite to_N_u8_small, step_init, (N.add_comm _ 0xF0), lead_four by lia.
    rewrite step_continuation
      by (cbn [d_needed d_lower d_upper];
          destruct (N.eqb_spec (cp / 262144) 0), (N.eqb_spec (cp / 262144) 4); lia).
    cbn [d_needed d_seen d_cp]. eval_cmp.
    rewrite step_continuation by (cbn [d_needed d_lower d_upper]; lia).
    cbn [d_needed d_seen d_cp]. eval_cmp.
    rewrite step_continuation by (cbn [d_needed d_lower d_upper]; lia).
    cbn [d_needed d_seen d_cp]. eval_cmp. cbn [app]. do 2 f_equal. lia.
Qed.

Lemma run_encode_cp (cp : N) (rest : list byte) :
  is_scalar cp -> run d_init (encode_cp cp ++ rest) = cp :: run d_init rest.
Proof. intros H. now rewrite run_app, steps_encode_cp. Qed.

Lemma run_encode (cps : list N) :
  Forall is_scalar cps -> run d_init (List.concat (List.map encode_cp cps)) = cps.
Proof.
  induction 1 as [|cp cps Hcp _ IH]; [reflexivity|].
  cbn [List.map List.concat]. now rewrite run_encode_cp, IH.
Qed.

(** Well-formed strings and their scalar values. *)
Lemma to_scalars_unit (c : N) (s : jsstring) :
  is_lead c = false -> is_trail c = false ->
  to_scalars (c :: s) = c :: to_scalars s.
Proof. intros Hl Ht. cbn [to_scalars]. now rewrite Hl, Ht. Qed.

Lemma isWellFormed_unit (c : N) (s : jsstring) :
  is_lead c = false ->
  isWellFormed (c :: s) = negb (is_trail c) && (c <? 0x10000) && isWellFormed s.
Proof. intros Hl. cbn [isWellFormed]. now rewrite Hl. Qed.

Lemma is_scalar_unit (c : N) :
  is_lead c = false -> is_trail c = false -> c < 0x10000 -> is_scalar c.
Proof.
  unfold is_lead, is_trail, is_scalar. intros Hl Ht Hc. split; [lia|].
  intros [? ?]. revert Hl Ht. case_cmp; cbn [andb]; try lia; intros; discriminate.
Qed.

Lemma to_scalars_well_formed (s : jsstring) :
  isWellFormed s = true ->
  Forall is_scalar (to_scalars s) /\ from_scalars (to_scalars s) = s.
Proof.
  enough (Hboth : (isWellFormed s = true ->
                   Forall is_scalar (to_scalars s) /\ from_scalars (to_scalars s) = s)
                  /\ forall c, isWellFormed (c :: s) = true ->
                       Forall is_scalar (to_scalars (c :: s))
                       /\ from_scalars (to_scalars (c :: s)) = c :: s)
    by apply Hboth.
  assert (Hunit : forall c s',
    (isWellFormed s' = true ->
     Forall is_scalar (to_scalars s') /\ from_scalars (to_scalars s') = s') ->
    is_lead c = false -> isWellFormed (c :: s') = true ->
    Forall is_scalar (to_scalars (c :: s'))
    /\ from_scalars (to_scalars (c :: s')) = c :: s').
  { intros c s' IH Hl. rewrite isWellFormed_unit by exact Hl.
    intros [[Ht%negb_true_iff Hc%N.ltb_lt]%andb_true_iff Hs]%andb_true_iff.
    destruct (IH Hs) as [Hsc Hfrom]. rewrite to_scalars_unit by assumption.
    split; [apply Forall_cons; split; [now apply is_scalar_unit|exact Hsc]|].
    unfold from_scalars in *. cbn [List.map List.concat]. rewrite Hfrom.
    unfold code_units. now eval_cmp. }
  induction s as [|d s [IH0 IH1]].
  - split; [by split|]. intros c. destruct (is_lead c) eqn:Hc.
    + cbn [isWellFormed]. now rewrite Hc.
    + now apply Hunit.
  - split; [apply IH1|]. intros c. destruct (is_lead c) eqn:Hc.
    + cbn [isWellFormed to_scalars]. rewrite Hc.
      destruct (is_trail d) eqn:Hd; [|discriminate]. cbn [andb]. intros Hs.
      destruct (IH0 Hs) as [Hsc Hfrom]. unfold is_lead, is_trail in Hc, Hd.
      apply andb_true_iff in Hc as [Hc1%N.leb_le Hc2%N.leb_le].
      apply andb_true_iff in Hd as [Hd1%N.leb_le Hd2%N.leb_le].
      split.
      * apply Forall_cons. split; [unfold is_scalar; lia|exact Hsc].
      * unfold from_scalars in *. cbn [List.map List.concat]. rewrite Hfrom.
        unfold code_units. eval_cmp. cbn [app]. f_equal; [lia|f_equal; lia].
    + apply Hunit; [apply IH1|exact Hc].
Qed.

Lemma strip_bom_to_scalars (s : jsstring) :
  isWellFormed s = true -> starts_with_bom s = false ->
  strip_bom (to_scalars s) = to_scalars s.
Proof.
  destruct s as [|c s]; [reflexivity|].
  cbn [isWellFormed starts_with_bom to_scalars]. unfold BOM.
  intros Hwf Hbom%N.eqb_neq. destruct (is_lead c) eqn:Hc.
  - destruct s as [|d s]; [discriminate|].
    destruct (is_trail d); [|discriminate].
    unfold strip_bom, BOM. now eval_cmp.
  - destruct (is_trail c); [discriminate|].
    unfold strip_bom, BOM. now eval_cmp.
Qed.

(** [TextDecoder] reads back what [TextEncoder] wrote. *)
Lemma decode_encode_text (s : jsstring) :
  isWellFormed s = true -> starts_with_bom s = false ->
  TextDecoder_decode (TextEncoder_encode s) = s.
Proof.
  intros Hwf Hbom. unfold TextDecoder_decode, TextEncoder_encode.
  destruct (to_scalars_well_formed s Hwf) as [Hsc Hfrom].
  now rewrite run_encode, strip_bom_to_scalars.
Qed.

End Utf8Facts.

(** ** The cipher *)

Section CipherFacts.

Context {backend : AeadBackend} {engine : Engine}.

Lemma encryptData_eq (text : jsstring) (key : CryptoKey) (iv : Nonce) :
  encryptData text key iv =
    let encrypted := subtle_encrypt key (nonce_bytes iv) (Utf8.TextEncoder_encode text) in
    if Nat.leb (12 + length encrypted) argument_limit
    then Ok (Base64.encode (nonce_bytes iv ++ encrypted))
    else Err RangeError.
Proof.
  unfold encryptData. cbv zeta. rewrite length_app, (nonce_length iv).
  destruct (Nat.leb _ _); [apply btoa_fromCharCode|reflexivity].
Qed.

(** A blob of [encryptData]: nonce and ciphertext were few enough to be
    the arguments of a call. *)
Lemma encryptData_Ok (text blob : jsstring) (key : CryptoKey) (iv : Nonce) :
  encryptData text key iv = Ok blob ->
  let encrypted := subtle_encrypt key (nonce_bytes iv) (Utf8.TextEncoder_encode text) in
  (12 + length encrypted <= argument_limit)%nat
  /\ blob = Base64.encode (nonce_bytes iv ++ encrypted).
Proof.
  rewrite encryptData_eq. cbv zeta.
  destruct (Nat.leb_spec (12 + length (subtle_encrypt key (nonce_bytes iv)
                                         (Utf8.TextEncoder_encode text))) argument_limit);
    [|done].
  intros [= <-]. by split.
Qed.

(** [encryptData] fails in one way. *)
Lemma encryptData_Err (text : jsstring) (key : CryptoKey) (iv : Nonce) (e : JsError) :
  encryptData text key iv = Err e ->
  let encrypted := subtle_encrypt key (nonce_bytes iv) (Utf8.TextEncoder_encode text) in
  e = RangeError /\ (argument_limit < 12 + length encrypted)%nat.
Proof.
  rewrite encryptData_eq. cbv zeta.
  destruct (Nat.leb_spec (12 + length (subtle_encrypt key (nonce_bytes iv)
                                         (Utf8.TextEncoder_encode text))) argument_limit);
    [done|].
  intros [= <-]. by split.
Qed.

(** What [decryptData] does with a blob, case by case. *)
Lemma decryptData_cases (blob : jsstring) (key : CryptoKey) :
  decryptData blob key =
    match Base64.decode blob with
    | None => Err InvalidCharacterError
    | Some bytes =>
        match subtle_decrypt key (take 12 bytes) (drop 12 bytes) with
        | Some decrypted => Ok (Utf8.TextDecoder_decode decrypted)
        | None => Err OperationError
        end
    end.
Proof.
  unfold decryptData, Base64.atob. destruct (Base64.decode blob) as [bytes|];
    [|reflexivity].
  cbn [bind]. now rewrite map_u8_fromCharCode.
Qed.

Lemma decryptData_encode (iv : Nonce) (data : list byte) (key : CryptoKey) :
  decryptData (Base64.encode (nonce_bytes iv ++ data)) key =
    match subtle_decrypt key (nonce_bytes iv) data with
    | Some decrypted => Ok (Utf8.TextDecoder_decode decrypted)
    | None => Err OperationError
    end.
Proof.
  rewrite decryptData_cases, decode_encode.
  pose proof (nonce_length iv) as Hlen.
  rewrite take_app_length', drop_app_length' by (symmetry; exact Hlen). reflexivity.
Qed.

(** Decryption of an encrypted text returns the text as [TextDecoder]
    reads the bytes [TextEncoder] wrote. *)
Lemma decrypt_encrypt (text blob : jsstring) (key : CryptoKey) (iv : Nonce) :
  encryptData text key iv = Ok blob ->
  decryptData blob key = Ok (Utf8.TextDecoder_decode (Utf8.TextEncoder_encode text)).
Proof.
  intros [_ ->]%encryptData_Ok. rewrite decryptData_encode.
  now rewrite subtle_correct by apply nonce_length.
Qed.

End CipherFacts.

(** ** Round trip of [encryptData] and [decryptData] *)

(** C1 (as amended): for every well-formed plaintext that does not begin
    with U+FEFF, every key and every nonce: when [encryptData] resolves,
    [decryptData] of its blob under the same key returns the plaintext;
    and [encryptData] rejects, with a [RangeError], only when nonce and
    ciphertext are more bytes than the engine takes as arguments. *)
Theorem decrypt_encrypt_roundtrip {backend : AeadBackend} {engine : Engine}
    (p : jsstring) (k : CryptoKey) (iv : Nonce) :
  Utf8.isWellFormed p = true ->
  Utf8.starts_with_bom p = false ->
  match encryptData p k iv with
  | Ok blob => decryptData blob k = Ok p
  | Err e =>
      e = RangeError
      /\ (argument_limit
          < 12 + length (subtle_encrypt k (nonce_bytes iv) (Utf8.TextEncoder_encode p)))%nat
  end.
Proof.
  intros Hwf Hbom. destruct (encryptData p k iv) as [blob|e] eqn:E.
  - rewrite (decrypt_encrypt _ _ _ _ E). f_equal. now apply decode_encode_text.
  - exact (encryptData_Err _ _ _ _ E).
Qed.

Lemma decrypt_encrypt_roundtrip_witness :
  exists blob,
    encryptData (backend := mirror_backend) (engine := sample_engine)
      (js "write a chorus about rain") Byte.x2a sample_nonce = Ok blob
    /\ decryptData blob Byte.x2a = Ok (js "write a chorus about rain").
Proof.
  pose proof (decrypt_encrypt_roundtrip (backend := mirror_backend)
                (engine := sample_engine) (js "write a chorus about rain")
                Byte.x2a sample_nonce eq_refl eq_refl) as H.
  destruct (encryptData _ _ _) as [blob|e] eqn:E.
  - exists blob. split; [reflexivity|exact H].
  - vm_compute in E. discriminate E.
Defined.

(** C1 fails as stated: a plaintext that begins with U+FEFF loses it, and
    a lone surrogate comes back as U+FFFD, whatever the backend, the
    engine, the key and the nonce. *)
Lemma roundtrip_counterexample :
  [0xFEFF; 97]%N <> [97]%N
  /\ [0xD800]%N <> [0xFFFD]%N
  /\ (forall (backend : AeadBackend) (engine : Engine) (k : CryptoKey) (iv : Nonce)
        (blob : jsstring),
        (encryptData [0xFEFF; 97]%N k iv = Ok blob -> decryptData blob k = Ok [97]%N)
        /\ (encryptData [0xD800]%N k iv = Ok blob -> decryptData blob k = Ok [0xFFFD]%N))
  /\ (let* blob := encryptData (backend := mirror_backend) (engine := sample_engine)
                     [0xFEFF; 97]%N Byte.x2a sample_nonce in
      decryptData blob Byte.x2a) = Ok [97]%N
  /\ (let* blob := encryptData (backend := mirror_backend) (engine := sample_engine)
                     [0xD800]%N Byte.x2a sample_nonce in
      decryptData blob Byte.x2a) = Ok [0xFFFD]%N.
Proof.
  split; [discriminate|]. split; [discriminate|]. split; [|split; vm_compute; reflexivity].
  intros backend engine k iv blob. split; intros E; now rewrite (decrypt_encrypt _ _ _ _ E).
Qed.

(** A text of more bytes than the engine takes arguments: [encryptData]
    rejects. *)
Example encryptData_long_text :
  encryptData (backend := mirror_backend) (engine := sample_engine)
    (repeat 97%N 4100) Byte.x2a sample_nonce
  = Err RangeError.
Proof. vm_compute. reflexivity. Qed.

(** ** Failures of [decryptData] *)

(** C9 (as amended): [decryptData] raises [InvalidCharacterError] exactly
    when the blob is not forgiving-base64, [OperationError] exactly when
    the blob decodes and the backend rejects nonce and data, and succeeds
    otherwise; it raises nothing else. *)
Theorem decryptData_failures {backend : AeadBackend}
    (blob : jsstring) (key : CryptoKey) :
  match decryptData blob key with
  | Ok text =>
      exists bytes decrypted,
        Base64.decode blob = Some bytes
        /\ subtle_decrypt key (take 12 bytes) (drop 12 bytes) = Some decrypted
        /\ text = Utf8.TextDecoder_decode decrypted
  | Err e =>
      (e = InvalidCharacterError /\ Base64.decode blob = None)
      \/ (e = OperationError
          /\ exists bytes,
               Base64.decode blob = Some bytes
               /\ subtle_decrypt key (take 12 bytes) (drop 12 bytes) = None)
  end.
Proof.
  rewrite decryptData_cases.
  destruct (Base64.decode blob) as [bytes|]; [|left; by split].
  destruct (subtle_decrypt key (take 12 bytes) (drop 12 bytes)) as [decrypted|] eqn:E.
  - by exists bytes, decrypted.
  - right. split; [done|]. by exists bytes.
Qed.

(** C9 fails as stated: a blob that is not base64 makes [atob] raise
    [InvalidCharacterError] before any tag is looked at. *)
Lemma decryptData_counterexample :
  InvalidCharacterError <> OperationError
  /\ forall (backend : AeadBackend) (key : CryptoKey),
       decryptData (js "!") key = Err InvalidCharacterError.
Proof. split; [discriminate|]. intros. reflexivity. Qed.

(** ** Regular expressions: the matcher and the language of a pattern *)

Section RegexFacts.

Import Regex.

Lemma within_succ (n min : nat) (max : option nat) :
  max <> Some O -> within n (Nat.pred min) (option_map Nat.pred max) ->
  within (S n) min max.
Proof.
  intros Hmax [Hmin Hle]. split; [lia|].
  intros k ->. destruct k as [|k]; [done|].
  specialize (Hle k eq_refl). lia.
Qed.

Lemma within_pred (n min : nat) (max : option nat) :
  within (S n) min max -> within n (Nat.pred min) (option_map Nat.pred max).
Proof.
  intros [Hmin Hle]. split; [lia|].
  destruct max as [k|]; [|discriminate]. intros k' [= <-].
  specialize (Hle k eq_refl). lia.
Qed.

Lemma within_zero (max : option nat) : within 0 0 max.
Proof. split; [lia|]. intros; lia. Qed.

Lemma repeat_matcher_sound (L : jsstring -> Prop) (m : matcher) :
  sound L m ->
  forall fuel min max x c z,
    (forall k, max = Some k -> min <= k) ->
    repeat_matcher m fuel min max x c = Some z ->
    exists n w y, x = w ++ y /\ within n min max /\ power L n w /\ c y = Some z.
Proof.
  intros Hm. induction fuel as [|fuel IH]; intros min max x c z Hwf; [discriminate|].
  cbn [repeat_matcher].
  assert (Hstop : c x = Some z -> min = O ->
    exists n w y, x = w ++ y /\ within n min max /\ power L n w /\ c y = Some z).
  { intros Hc ->. exists O, [], x.
    split; [done|]. split; [apply within_zero|]. by split. }
  destruct (decide (max = Some O)) as [->|Hmax].
  { intros Hc. apply Hstop; [exact Hc|]. specialize (Hwf O eq_refl). lia. }
  assert (Hwf' : forall k, option_map Nat.pred max = Some k -> Nat.pred min <= k).
  { destruct max as [[|k]|]; try done. intros k' [= <-].
    specialize (Hwf (S k) eq_refl). lia. }
  assert (Hiter : forall d : cont,
    (forall y, d y = Some z ->
               repeat_matcher m fuel (Nat.pred min) (option_map Nat.pred max) y c = Some z) ->
    m x d = Some z ->
    exists n w y, x = w ++ y /\ within n min max /\ power L n w /\ c y = Some z).
  { intros d Hd Hmd. apply Hm in Hmd as (u & y1 & -> & Hu & Hdy).
    apply Hd, IH in Hdy as (n & v & y & -> & Hn & Hv & Hc); [|exact Hwf'].
    exists (S n), (u ++ v), y. rewrite app_assoc.
    split; [done|]. split; [now apply within_succ|]. split; [|done].
    by exists u, v. }
  assert (Hd : forall y,
    (if Nat.eqb min 0 && Nat.eqb (length y) (length x) then None
     else repeat_matcher m fuel (Nat.pred min) (option_map Nat.pred max) y c) = Some z ->
    repeat_matcher m fuel (Nat.pred min) (option_map Nat.pred max) y c = Some z).
  { intros y. now destruct (Nat.eqb min 0 && Nat.eqb (length y) (length x)). }
  destruct max as [[|k]|]; [done| |]; destruct min as [|min'];
    try (intros Hmd; now apply (Hiter _ Hd)).
  all: match goal with
       | |- context [match ?t with Some _ => _ | None => _ end] => destruct t eqn:Hmd
       end;
    [intros [= ->]; now apply (Hiter _ Hd)|].
  all: intros Hc; now apply Hstop.
Qed.

Lemma compile_sound (r : regex) :
  well_formed r = true -> sound (Lang r) (compile r).
Proof.
  induction r as [|p|r1 IH1 r2 IH2|r' IH min max]; cbn [well_formed compile Lang].
  - intros _ x c z Hc. by exists [], x.
  - intros _ [|ch x] c z; [discriminate|].
    destruct (p ch) eqn:Hp; [|discriminate]. intros Hc.
    exists [ch], x. split; [done|]. split; [by exists ch|done].
  - intros [Hwf1 Hwf2]%andb_true_iff x c z Hz.
    apply (IH1 Hwf1) in Hz as (u & y1 & -> & Hu & Hz).
    apply (IH2 Hwf2) in Hz as (v & y & -> & Hv & Hz).
    exists (u ++ v), y. rewrite app_assoc. split; [done|]. split; [by exists u, v|done].
  - intros [Hwf Hmax]%andb_true_iff x c z Hz.
    apply (repeat_matcher_sound _ _ (IH Hwf)) in Hz as (n & w & y & -> & Hn & Hw & Hz).
    + exists w, y. split; [done|]. split; [by exists n|done].
    + intros k ->. now apply Nat.leb_le.
Qed.

Lemma within_weaken (n : nat) (max : option nat) :
  within (S n) 0 max -> within n 0 max.
Proof.
  intros [_ Hle]. split; [lia|]. intros k Hk. specialize (Hle k Hk). lia.
Qed.

Lemma repeat_matcher_complete (L : jsstring -> Prop) (m : matcher) :
  complete L m ->
  forall n fuel min max x c,
    min + length x < fuel ->
    repeat_matcher m fuel min max x c = None ->
    forall w y, x = w ++ y -> within n min max -> power L n w -> c y = None.
Proof.
  intros Hm. induction n as [|n IH]; intros fuel min max x c Hfuel Hnone w y -> Hn Hw.
  - cbn [power] in Hw. subst w. destruct Hn as [Hmin _].
    assert (min = O) as -> by lia.
    destruct fuel as [|fuel]; [lia|]. cbn [repeat_matcher] in Hnone.
    destruct max as [[|k]|]; [exact Hnone| |].
    all: match type of Hnone with
         | context [match ?t with Some _ => _ | None => _ end] => destruct t
         end; [discriminate|exact Hnone].
  - destruct Hw as (u & v & -> & Hu & Hv).
    destruct fuel as [|fuel]; [lia|]. cbn [repeat_matcher] in Hnone.
    assert (Hmax : max <> Some O).
    { intros ->. destruct Hn as [_ Hle]. specialize (Hle O eq_refl). lia. }
    pose (d := fun y' : jsstring =>
      if Nat.eqb min 0 && Nat.eqb (length y') (length ((u ++ v) ++ y)) then None
      else repeat_matcher m fuel (Nat.pred min) (option_map Nat.pred max) y' c).
    assert (Hmd : m ((u ++ v) ++ y) d = None /\ (min = O -> c ((u ++ v) ++ y) = None)).
    { destruct max as [[|k]|]; [done| |]; destruct min as [|min']; fold d in Hnone.
      all: try (split; [exact Hnone|discriminate]).
      all: destruct (m ((u ++ v) ++ y) d); [discriminate|]; by split. }
    destruct Hmd as [Hmd Hc].
    assert (Hd : d (v ++ y) = None).
    { apply (Hm _ _ Hmd u (v ++ y)); [now rewrite app_assoc|exact Hu]. }
    unfold d in Hd.
    destruct (Nat.eqb min 0 && Nat.eqb (length (v ++ y)) (length ((u ++ v) ++ y)))
      eqn:Hempty.
    + (* the iteration consumed nothing and none is required *)
      apply andb_true_iff in Hempty as [->%Nat.eqb_eq Hlen%Nat.eqb_eq].
      assert (u = []) as ->.
      { rewrite !length_app in Hlen. destruct u; [done|]. cbn in Hlen. lia. }
      cbn [app] in *.
      refine (IH (S fuel) O max (v ++ y) c Hfuel _ v y eq_refl (within_weaken _ _ Hn) Hv).
      cbn [repeat_matcher].
      destruct max as [[|k]|]; [done| |]; fold d; rewrite Hmd; now apply Hc.
    + refine (IH fuel (Nat.pred min) (option_map Nat.pred max) (v ++ y) c _ Hd v y
                eq_refl (within_pred _ _ _ Hn) Hv).
      apply andb_false_iff in Hempty as [Hmin%Nat.eqb_neq|Hlen%Nat.eqb_neq];
        rewrite !length_app in *; lia.
Qed.

Lemma compile_complete (r : regex) : complete (Lang r) (compile r).
Proof.
  induction r as [|p|r1 IH1 r2 IH2|r' IH min max]; cbn [compile Lang].
  - intros x c Hc w y -> ->. exact Hc.
  - intros x c Hc w y -> (ch & -> & Hp). cbn [app] in Hc. now rewrite Hp in Hc.
  - intros x c Hc w y -> (u & v & -> & Hu & Hv).
    rewrite <- app_assoc in Hc.
    apply (IH2 _ c (IH1 _ _ Hc u (v ++ y) eq_refl Hu) v y eq_refl Hv).
  - intros x c Hc w y -> (n & Hn & Hw).
    apply (repeat_matcher_complete _ _ IH n _ _ _ _ c (Nat.lt_succ_diag_r _) Hc w y
             eq_refl Hn Hw).
Qed.

(** [match_here] decides whether a word of the pattern heads the input. *)
Lemma match_here_sound (r : regex) (x rest : jsstring) :
  well_formed r = true -> match_here r x = Some rest ->
  exists w, x = w ++ rest /\ Lang r w.
Proof.
  intros Hwf Hm. apply (compile_sound r Hwf) in Hm as (w & y & -> & Hw & [= ->]).
  by exists w.
Qed.

Lemma match_here_complete (r : regex) (w y : jsstring) :
  Lang r w -> match_here r (w ++ y) <> None.
Proof.
  intros Hw Hnone.
  now pose proof (compile_complete r _ _ Hnone w y eq_refl Hw).
Qed.

(** *** Strings without a match *)

Lemma nomatch_sub (r : regex) (pre s post : jsstring) :
  nomatch r (pre ++ s ++ post) -> nomatch r s.
Proof.
  intros H p w q ->. apply (H (pre ++ p) w (q ++ post)).
  now rewrite <- !app_assoc.
Qed.

Lemma nomatch_prefix (r : regex) (s post : jsstring) :
  nomatch r (s ++ post) -> nomatch r s.
Proof. apply (nomatch_sub r [] s post). Qed.

Lemma nomatch_suffix (r : regex) (pre s : jsstring) :
  nomatch r (pre ++ s) -> nomatch r s.
Proof. intros H. apply (nomatch_sub r pre s []). now rewrite app_nil_r. Qed.

Lemma power_Forall (L : jsstring -> Prop) (P : N -> Prop) :
  (forall w, L w -> Forall P w) -> forall n w, power L n w -> Forall P w.
Proof.
  intros HL. induction n as [|n IH]; intros w; cbn [power].
  - intros ->. constructor.
  - intros (u & v & -> & Hu & Hv). apply Forall_app. split; [now apply HL|now apply IH].
Qed.

Lemma Lang_alphabet (r : regex) (w : jsstring) :
  Lang r w -> Forall (fun ch => alphabet r ch = true) w.
Proof.
  revert w. induction r as [|p|r1 IH1 r2 IH2|r' IH min max]; intros w;
    cbn [Lang alphabet].
  - intros ->. constructor.
  - intros (ch & -> & Hp). by repeat constructor.
  - intros (u & v & -> & Hu & Hv). apply Forall_app. split.
    + eapply Forall_impl; [now apply IH1|]. cbn. intros ch ->. reflexivity.
    + eapply Forall_impl; [now apply IH2|]. cbn. intros ch ->. apply orb_true_r.
  - intros (n & _ & Hw). revert Hw. apply power_Forall. exact IH.
Qed.

(** A word that avoids [b] lies on one side of it. *)
Lemma barrier_split (l1 l2 p1 w p2 : jsstring) (b : N) :
  l1 ++ b :: l2 = p1 ++ w ++ p2 -> ~ In b w ->
  (exists q, l1 = p1 ++ w ++ q) \/ (exists q, l2 = q ++ w ++ p2).
Proof.
  intros E Hb. apply app_eq_app in E as [l [[-> E]|[-> E]]].
  - symmetry in E. apply app_eq_app in E as [l' [[-> E]|[-> E]]].
    + left. now exists l'.
    + destruct l' as [|b' l'].
      * left. exists []. now rewrite !app_nil_r.
      * injection E as <- _. exfalso. apply Hb, in_app_iff. right. now left.
  - destruct l as [|b' l].
    + destruct w as [|b' w].
      * left. exists []. now rewrite !app_nil_r.
      * injection E as <- _. exfalso. apply Hb. now left.
    + injection E as <- ->. right. now exists l.
Qed.

Lemma nomatch_barrier (r : regex) (u v : jsstring) (b : N) :
  alphabet r b = false -> nomatch r u -> nomatch r v -> nomatch r (u ++ b :: v).
Proof.
  intros Hb Hu Hv pre w post E Hw.
  assert (Hin : ~ In b w).
  { intros Hin. apply Lang_alphabet in Hw.
    rewrite List.Forall_forall in Hw. apply Hw in Hin. congruence. }
  destruct (barrier_split _ _ _ _ _ _ E Hin) as [[q ->]|[q ->]].
  - now apply (Hu pre w q).
  - now apply (Hv q w post).
Qed.

Lemma nomatch_token (r : regex) (t u v : jsstring) :
  guarded r t -> nomatch r u -> nomatch r v -> nomatch r (u ++ t ++ v).
Proof.
  intros (b1 & body & b2 & -> & Hb1 & Hb2 & Hbody) Hu Hv.
  cbn [app]. rewrite <- app_assoc. cbn [app].
  apply nomatch_barrier; [exact Hb1|exact Hu|].
  now apply nomatch_barrier.
Qed.


(** *** Global replacement *)

(** Nothing is replaced in a string without a match. *)
Lemma replace_loop_clean (r : regex) (t : jsstring) (fuel : nat) (s : jsstring) :
  well_formed r = true -> nomatch r s -> replace_loop fuel r t s = s.
Proof.
  intros Hwf. revert s. induction fuel as [|fuel IH]; intros s Hs; [reflexivity|].
  cbn [replace_loop]. destruct (match_here r s) as [rest|] eqn:E.
  - apply match_here_sound in E as (w & -> & Hw); [|exact Hwf].
    now destruct (Hs [] w rest).
  - destruct s as [|ch s]; [reflexivity|]. f_equal.
    apply IH, (nomatch_suffix r [ch]), Hs.
Qed.

(** Replacing the matches of [r] by a text guarded against [r'] leaves
    a string without a match of [r'] without one. *)
Lemma replace_loop_keeps (r r' : regex) (t : jsstring) (fuel : nat) :
  well_formed r = true -> guarded r' t ->
  forall s pre, nomatch r' (pre ++ s) -> nomatch r' (pre ++ replace_loop fuel r t s).
Proof.
  intros Hwf Ht. induction fuel as [|fuel IH]; intros s pre Hs; [exact Hs|].
  cbn [replace_loop].
  assert (Hcopy : nomatch r' (pre ++ match s with
                                     | [] => []
                                     | ch :: s' => ch :: replace_loop fuel r t s'
                                     end)).
  { destruct s as [|ch s']; [exact Hs|].
    rewrite (cons_middle ch pre), app_assoc. apply IH.
    now rewrite <- app_assoc. }
  destruct (match_here r s) as [rest|] eqn:E; [|exact Hcopy].
  apply match_here_sound in E as (w & -> & Hw); [|exact Hwf].
  destruct (Nat.ltb (length rest) (length (w ++ rest))).
  - apply nomatch_token; [exact Ht|now apply nomatch_prefix in Hs|].
    apply (IH rest []). cbn [app]. now apply nomatch_suffix, nomatch_suffix in Hs.
  - apply nomatch_token; [exact Ht|now apply nomatch_prefix in Hs|].
    now apply nomatch_suffix in Hcopy.
Qed.

Lemma unmatched_nomatch (r : regex) (pre s : jsstring) :
  ~ Lang r [] -> unmatched r pre s -> nomatch r pre.
Proof.
  intros Hnil Hpre p w q -> Hw.
  destruct w as [|ch w]; [now apply Hnil|].
  apply (match_here_complete r (ch :: w) (q ++ s) Hw).
  rewrite app_assoc. now apply (Hpre p).
Qed.

Lemma unmatched_snoc (r : regex) (pre s : jsstring) (ch : N) :
  unmatched r pre (ch :: s) -> match_here r (ch :: s) = None ->
  unmatched r (pre ++ [ch]) s.
Proof.
  intros Hpre Hch p1 p2 E Hp2.
  destruct (exists_last Hp2) as (p2' & last & ->).
  rewrite app_assoc in E. apply app_inj_tail in E as [-> <-].
  rewrite <- app_assoc. cbn [app].
  destruct p2' as [|ch' p2']; [exact Hch|]. now apply (Hpre p1).
Qed.

(** After the matches of [r] are replaced by a text guarded against
    [r], no match of [r] is left. *)
Lemma replace_loop_self (r : regex) (t : jsstring) (fuel : nat) :
  well_formed r = true -> ~ Lang r [] -> guarded r t ->
  forall s pre, length s < fuel -> unmatched r pre s ->
                nomatch r (pre ++ replace_loop fuel r t s).
Proof.
  intros Hwf Hnil Ht. induction fuel as [|fuel IH]; intros s pre Hfuel Hpre; [lia|].
  cbn [replace_loop]. destruct (match_here r s) as [rest|] eqn:E.
  - apply match_here_sound in E as (w & -> & Hw); [|exact Hwf].
    destruct w as [|ch w]; [now destruct Hnil|].
    destruct (Nat.ltb_spec (length rest) (length ((ch :: w) ++ rest))) as [_|Hlen];
      [|rewrite length_app in Hlen; cbn [length] in Hlen; lia].
    apply nomatch_token; [exact Ht|now apply unmatched_nomatch in Hpre|].
    apply (IH rest []).
    + rewrite length_app in Hfuel. cbn [length] in Hfuel. lia.
    + intros p1 p2 E. symmetry in E. now apply app_eq_nil in E as [_ ->].
  - destruct s as [|ch s].
    + rewrite app_nil_r. now apply unmatched_nomatch in Hpre.
    + rewrite (cons_middle ch pre), app_assoc. apply IH.
      * cbn [length] in Hfuel. lia.
      * now apply unmatched_snoc.
Qed.

Lemma replace_all_clean (r : regex) (t s : jsstring) :
  well_formed r = true -> nomatch r s -> replace_all r t s = s.
Proof. apply replace_loop_clean. Qed.

Lemma replace_all_keeps (r r' : regex) (t s : jsstring) :
  well_formed r = true -> guarded r' t -> nomatch r' s ->
  nomatch r' (replace_all r t s).
Proof.
  intros Hwf Ht Hs.
  exact (replace_loop_keeps r r' t (S (length s)) Hwf Ht s [] Hs).
Qed.

Lemma replace_all_self (r : regex) (t s : jsstring) :
  well_formed r = true -> ~ Lang r [] -> guarded r t ->
  nomatch r (replace_all r t s).
Proof.
  intros Hwf Hnil Ht.
  refine (replace_loop_self r t (S (length s)) Hwf Hnil Ht s [] _ _).
  - lia.
  - intros p1 p2 E. symmetry in E. now apply app_eq_nil in E as [_ ->].
Qed.

(** *** What a word of a pattern must contain *)

Lemma needs_not_nil (r : regex) (q : N -> bool) : needs r q -> ~ Lang r [].
Proof. intros Hq Hnil. now destruct (Hq [] Hnil) as (ch & [] & _). Qed.

Lemma needs_nomatch (r : regex) (q : N -> bool) (s : jsstring) :
  needs r q -> forallb (fun ch => negb (q ch)) s = true -> nomatch r s.
Proof.
  intros Hq Hs pre w post -> Hw. destruct (Hq w Hw) as (ch & Hin & Hch).
  rewrite forallb_forall in Hs. specialize (Hs ch). rewrite Hch in Hs.
  discriminate Hs. apply in_app_iff. right. apply in_app_iff. now left.
Qed.

(** *** A match does not depend on what follows it *)

Lemma sound_shrinking (L : jsstring -> Prop) (m : matcher) (c : cont) :
  sound L m -> shrinking c -> shrinking (fun x => m x c).
Proof.
  intros Hm Hc y res Hres. apply Hm in Hres as (w & y' & -> & _ & Hres).
  apply Hc in Hres. rewrite length_app. lia.
Qed.

Lemma repeat_matcher_shrinking (L : jsstring -> Prop) (m : matcher)
    (fuel min : nat) (max : option nat) (c : cont) :
  sound L m -> (forall k, max = Some k -> min <= k) -> shrinking c ->
  shrinking (fun x => repeat_matcher m fuel min max x c).
Proof.
  intros Hm Hwf Hc y res Hres.
  apply (repeat_matcher_sound L m Hm) in Hres as (n & w & y' & -> & _ & _ & Hres);
    [|exact Hwf].
  apply Hc in Hres. rewrite length_app. lia.
Qed.

Lemma repeat_matcher_stable (L : jsstring -> Prop) (m : matcher) :
  sound L m -> stable_matcher m ->
  forall z c1 c2 n, shrinking c1 -> stable z n c1 c2 ->
  forall f1 f2 min max y,
    (forall k, max = Some k -> min <= k) ->
    length y <= n -> min + length (y ++ z) < f1 -> min + length y < f2 ->
    (forall res, repeat_matcher m f1 min max (y ++ z) c1 = Some res ->
                 length z <= length res ->
                 exists res', res = res' ++ z
                              /\ repeat_matcher m f2 min max y c2 = Some res')
    /\ (repeat_matcher m f1 min max (y ++ z) c1 = None ->
        repeat_matcher m f2 min max y c2 = None).
Proof.
  intros Hsound Hm z c1 c2 n Hc1 Hc.
  induction f1 as [|f1 IH]; intros f2 min max y Hwf Hy Hf1 Hf2; [lia|].
  destruct f2 as [|f2]; [lia|]. cbn [repeat_matcher].
  destruct (decide (max = Some O)) as [->|Hmax]; [exact (Hc y Hy)|].
  assert (Hwf' : forall k, option_map Nat.pred max = Some k -> Nat.pred min <= k).
  { destruct max as [[|k]|]; try done. intros k' [= <-].
    specialize (Hwf (S k) eq_refl). lia. }
  pose (d1 := fun y' : jsstring =>
    if Nat.eqb min 0 && Nat.eqb (length y') (length (y ++ z)) then None
    else repeat_matcher m f1 (Nat.pred min) (option_map Nat.pred max) y' c1).
  pose (d2 := fun y' : jsstring =>
    if Nat.eqb min 0 && Nat.eqb (length y') (length y) then None
    else repeat_matcher m f2 (Nat.pred min) (option_map Nat.pred max) y' c2).
  assert (Hd1 : shrinking d1).
  { intros y' res. unfold d1.
    destruct (Nat.eqb min 0 && Nat.eqb (length y') (length (y ++ z))); [done|].
    now apply (repeat_matcher_shrinking L m f1 _ _ c1 Hsound Hwf' Hc1). }
  assert (Hd : stable z (length y) d1 d2).
  { intros y' Hy'. unfold d1, d2.
    replace (Nat.eqb (length (y' ++ z)) (length (y ++ z)))
      with (Nat.eqb (length y') (length y))
      by (rewrite !length_app; destruct (Nat.eqb_spec (length y') (length y));
          symmetry; [apply Nat.eqb_eq|apply Nat.eqb_neq]; lia).
    destruct (Nat.eqb min 0 && Nat.eqb (length y') (length y)) eqn:E; [by split|].
    apply IH; [exact Hwf'|lia| |].
    - apply andb_false_iff in E as [E%Nat.eqb_neq|E%Nat.eqb_neq];
        rewrite !length_app in *; lia.
    - apply andb_false_iff in E as [E%Nat.eqb_neq|E%Nat.eqb_neq]; lia. }
  pose proof (Hm z (length y) d1 d2 Hd1 Hd y (Nat.le_refl _)) as [Hm1 Hm2].
  fold d1 d2.
  destruct max as [[|k]|]; [done| |]; destruct min as [|min']; try (by split).
  all: destruct (Hc y Hy) as [Hc1' Hc2'].
  all: destruct (m (y ++ z) d1) as [r1|] eqn:E1.
  all: try (split; [|discriminate]; intros res [= <-] Hres;
            destruct (Hm1 r1 eq_refl Hres) as (res' & -> & ->); by exists res').
  all: rewrite (Hm2 eq_refl); by split.
Qed.

Lemma compile_stable (r : regex) :
  well_formed r = true -> stable_matcher (compile r).
Proof.
  induction r as [|p|r1 IH1 r2 IH2|r' IH min max]; cbn [well_formed compile].
  - intros _ z n c1 c2 _ Hc. exact Hc.
  - intros _ z n c1 c2 Hc1 Hc [|ch y] Hy; cbn [app].
    + split; [|done]. destruct z as [|ch z]; [done|].
      destruct (p ch); [|done]. intros res Hres%Hc1. cbn [length]. lia.
    + destruct (p ch); [|by split]. apply Hc. cbn [length] in Hy. lia.
  - intros [Hwf1 Hwf2]%andb_true_iff z n c1 c2 Hc1 Hc.
    apply (IH1 Hwf1 z n (fun y => compile r2 y c1) (fun y => compile r2 y c2)).
    + exact (sound_shrinking _ _ _ (compile_sound r2 Hwf2) Hc1).
    + now apply IH2.
  - intros [Hwf Hmax]%andb_true_iff z n c1 c2 Hc1 Hc y Hy.
    apply (repeat_matcher_stable _ _ (compile_sound r' Hwf) (IH Hwf) z c1 c2 n Hc1 Hc);
      try lia.
    intros k ->. now apply Nat.leb_le.
Qed.

(** A match does not depend on what follows it. *)
Lemma match_here_stable (r : regex) (u z res : jsstring) :
  well_formed r = true ->
  match_here r (u ++ z) = Some res -> length z <= length res ->
  exists y, res = y ++ z /\ match_here r u = Some y.
Proof.
  intros Hwf Hres Hlen.
  assert (Hsome : shrinking Some) by (intros y ? [= <-]; lia).
  assert (Hst : stable z (length u) Some Some).
  { intros y _. split; [|done]. intros ? [= <-] _. by exists y. }
  destruct (compile_stable r Hwf z (length u) Some Some Hsome Hst u (Nat.le_refl _))
    as [H _].
  exact (H res Hres Hlen).
Qed.

(** *** Matches next to a character outside the alphabet *)

Lemma word_before_barrier (r : regex) (u v w res : jsstring) (b : N) :
  alphabet r b = false -> Lang r w -> u ++ b :: v = w ++ res ->
  exists q, u = w ++ q /\ res = q ++ b :: v.
Proof.
  intros Hb Hw E.
  assert (Hin : ~ In b w).
  { intros Hin. apply Lang_alphabet in Hw.
    rewrite List.Forall_forall in Hw. apply Hw in Hin. congruence. }
  destruct (barrier_split u v [] w res b E Hin) as [[q ->]|[q ->]].
  - exists q. split; [reflexivity|]. cbn [app] in E.
    rewrite <- app_assoc in E. now apply app_inv_head in E.
  - exfalso. apply (f_equal (@length N)) in E.
    rewrite !length_app in E. cbn [length] in E. rewrite !length_app in E. lia.
Qed.

Lemma match_here_barrier (r : regex) (u y v : jsstring) (b : N) :
  well_formed r = true -> alphabet r b = false ->
  match_here r u = Some y -> match_here r (u ++ b :: v) = Some (y ++ b :: v).
Proof.
  intros Hwf Hb Hu.
  destruct (match_here r (u ++ b :: v)) as [res|] eqn:E.
  - destruct (match_here_sound r _ _ Hwf E) as (w & Eq & Hw).
    destruct (word_before_barrier r u v w res b Hb Hw Eq) as (q & -> & ->).
    destruct (match_here_stable r (w ++ q) (b :: v) (q ++ b :: v) Hwf E)
      as (y' & Ey & Hy'); [rewrite length_app; lia|].
    rewrite Hu in Hy'. injection Hy' as ->. now rewrite Ey.
  - exfalso. destruct (match_here_sound r _ _ Hwf Hu) as (w & -> & Hw).
    rewrite <- app_assoc in E. exact (match_here_complete r w _ Hw E).
Qed.

Lemma match_here_barrier_None (r : regex) (u z v : jsstring) (b : N) :
  well_formed r = true -> alphabet r b = false ->
  match_here r (u ++ z) = None -> match_here r (u ++ b :: v) = None.
Proof.
  intros Hwf Hb Hu.
  destruct (match_here r (u ++ b :: v)) as [res|] eqn:E; [exfalso|reflexivity].
  destruct (match_here_sound r _ _ Hwf E) as (w & Eq & Hw).
  destruct (word_before_barrier r u v w res b Hb Hw Eq) as (q & -> & ->).
  rewrite <- app_assoc in Hu. exact (match_here_complete r w _ Hw Hu).
Qed.

(** *** A match and the replacements made behind it *)

Section Behind.

Variables (r r2 : regex) (b : N) (tl : jsstring).
Hypothesis Hwf : well_formed r = true.
Hypothesis Hb : alphabet r b = false.

Lemma match_here_replace_behind (fuel : nat) (rest u y : jsstring) :
  match_here r (u ++ rest) = Some (y ++ rest) ->
  match_here r (u ++ replace_loop fuel r2 (b :: tl) rest)
  = Some (y ++ replace_loop fuel r2 (b :: tl) rest).
Proof.
  revert rest u y. induction fuel as [|fuel IH]; intros rest u y H; [exact H|].
  cbn [replace_loop].
  assert (Hcopy :
    match_here r (u ++ match rest with
                       | [] => []
                       | ch :: s' => ch :: replace_loop fuel r2 (b :: tl) s'
                       end)
    = Some (y ++ match rest with
                 | [] => []
                 | ch :: s' => ch :: replace_loop fuel r2 (b :: tl) s'
                 end)).
  { destruct rest as [|ch rest1]; [exact H|].
    rewrite (cons_middle ch u), (cons_middle ch y), !app_assoc. apply IH.
    now rewrite <- !app_assoc. }
  assert (Htoken : forall s,
    match_here r (u ++ (b :: tl) ++ s) = Some (y ++ (b :: tl) ++ s)).
  { intros s. cbn [app]. apply match_here_barrier; [exact Hwf|exact Hb|].
    destruct (match_here_stable r u rest (y ++ rest) Hwf H) as (y' & Ey & Hy');
      [rewrite length_app; lia|].
    apply app_inv_tail in Ey. now subst. }
  destruct (match_here r2 rest) as [rest'|]; [|exact Hcopy].
  destruct (Nat.ltb (length rest') (length rest)); apply Htoken.
Qed.

Lemma match_here_None_replace_behind (fuel : nat) (rest u : jsstring) :
  match_here r (u ++ rest) = None ->
  match_here r (u ++ replace_loop fuel r2 (b :: tl) rest) = None.
Proof.
  revert rest u. induction fuel as [|fuel IH]; intros rest u H; [exact H|].
  cbn [replace_loop].
  assert (Hcopy :
    match_here r (u ++ match rest with
                       | [] => []
                       | ch :: s' => ch :: replace_loop fuel r2 (b :: tl) s'
                       end) = None).
  { destruct rest as [|ch rest1]; [exact H|].
    rewrite (cons_middle ch u), !app_assoc. apply IH. now rewrite <- !app_assoc. }
  assert (Htoken : forall s, match_here r (u ++ (b :: tl) ++ s) = None).
  { intros s. cbn [app]. exact (match_here_barrier_None r u rest _ b Hwf Hb H). }
  destruct (match_here r2 rest) as [rest'|]; [|exact Hcopy].
  destruct (Nat.ltb (length rest') (length rest)); apply Htoken.
Qed.

End Behind.

(** *** The code units a global scan replaces *)

Lemma overlap_comm (a b : list bool) : overlap a b = overlap b a.
Proof.
  revert b. induction a as [|x a IH]; intros [|y b]; cbn [overlap]; try reflexivity.
  now rewrite IH, andb_comm.
Qed.

Lemma replace_loop_fuel (r : regex) (t : jsstring) (f1 f2 : nat) (s : jsstring) :
  length s < f1 -> length s < f2 -> replace_loop f1 r t s = replace_loop f2 r t s.
Proof.
  revert f2 s. induction f1 as [|f1 IH]; intros [|f2] s H1 H2; try lia.
  cbn [replace_loop].
  assert (Hcopy : match s with [] => [] | ch :: s' => ch :: replace_loop f1 r t s' end
                  = match s with [] => [] | ch :: s' => ch :: replace_loop f2 r t s' end).
  { destruct s as [|ch s']; [reflexivity|]. cbn [length] in *. f_equal. apply IH; lia. }
  destruct (match_here r s) as [rest|]; [|exact Hcopy].
  destruct (Nat.ltb_spec (length rest) (length s)); [|now rewrite Hcopy].
  f_equal. apply IH; lia.
Qed.

Lemma marks_loop_fuel (r : regex) (f1 f2 : nat) (s : jsstring) :
  length s < f1 -> length s < f2 -> marks_loop f1 r s = marks_loop f2 r s.
Proof.
  revert f2 s. induction f1 as [|f1 IH]; intros [|f2] s H1 H2; try lia.
  cbn [marks_loop].
  assert (Hcopy : match s with [] => [] | _ :: s' => false :: marks_loop f1 r s' end
                  = match s with [] => [] | _ :: s' => false :: marks_loop f2 r s' end).
  { destruct s as [|ch s']; [reflexivity|]. cbn [length] in *. f_equal. apply IH; lia. }
  destruct (match_here r s) as [rest|]; [|exact Hcopy].
  destruct (Nat.ltb_spec (length rest) (length s)); [|exact Hcopy].
  f_equal. apply IH; lia.
Qed.

Section Scan.

Variables (r : regex) (t : jsstring).
Hypothesis Hwf : well_formed r = true.
Hypothesis Hnil : ~ Lang r [].

(** A match at the head is not empty. *)
Lemma match_here_shorter (s rest : jsstring) :
  match_here r s = Some rest -> length rest < length s.
Proof.
  intros H. destruct (match_here_sound r s rest Hwf H) as (w & -> & Hw).
  destruct w as [|ch w]; [done|]. rewrite length_app. cbn [length]. lia.
Qed.

Lemma replace_all_match (s rest : jsstring) :
  match_here r s = Some rest ->
  replace_all r t s = t ++ replace_all r t rest.
Proof.
  intros H. pose proof (match_here_shorter s rest H) as Hlen.
  unfold replace_all at 1. cbn [replace_loop]. rewrite H.
  destruct (Nat.ltb_spec (length rest) (length s)); [|lia].
  f_equal. apply replace_loop_fuel; lia.
Qed.

Lemma replace_all_copy (ch : N) (s : jsstring) :
  match_here r (ch :: s) = None ->
  replace_all r t (ch :: s) = ch :: replace_all r t s.
Proof.
  intros H. unfold replace_all at 1. cbn [replace_loop]. rewrite H. reflexivity.
Qed.

Lemma replace_all_nil : replace_all r t [] = [].
Proof.
  unfold replace_all. cbn [replace_loop length].
  destruct (match_here r []) as [rest|] eqn:E; [|reflexivity].
  apply match_here_shorter in E. cbn [length] in E. lia.
Qed.

Lemma marks_match (s rest : jsstring) :
  match_here r s = Some rest ->
  marks r s = repeat true (length s - length rest) ++ marks r rest.
Proof.
  intros H. pose proof (match_here_shorter s rest H) as Hlen.
  unfold marks at 1. cbn [marks_loop]. rewrite H.
  destruct (Nat.ltb_spec (length rest) (length s)); [|lia].
  f_equal. apply marks_loop_fuel; lia.
Qed.

Lemma marks_copy (ch : N) (s : jsstring) :
  match_here r (ch :: s) = None -> marks r (ch :: s) = false :: marks r s.
Proof.
  intros H. unfold marks at 1. cbn [marks_loop]. rewrite H. reflexivity.
Qed.

Lemma unmatched_cons (ch : N) (u s : jsstring) :
  unmatched r (ch :: u) s ->
  match_here r (ch :: u ++ s) = None /\ unmatched r u s.
Proof.
  intros H. split; [now apply (H [] (ch :: u))|].
  intros p1 p2 -> Hp2. now apply (H (ch :: p1) p2).
Qed.

Lemma replace_all_unmatched (u s : jsstring) :
  unmatched r u s -> replace_all r t (u ++ s) = u ++ replace_all r t s.
Proof.
  induction u as [|ch u IH]; [reflexivity|].
  intros [Hhead Htail]%unmatched_cons. cbn [app].
  now rewrite replace_all_copy, IH.
Qed.

(** Nothing of a guarded text is matched, whatever follows it. *)
Lemma guarded_unmatched (g s : jsstring) : guarded r g -> unmatched r g s.
Proof.
  intros (b1 & body & b2 & -> & Hb1 & Hb2 & Hbody) p1 p2 E Hp2.
  destruct (match_here r (p2 ++ s)) as [res|] eqn:Em; [exfalso|reflexivity].
  destruct (match_here_sound r _ _ Hwf Em) as (w & Eq & Hw).
  destruct (exists_last Hp2) as (q & last & ->).
  change (b1 :: body ++ [b2]) with ((b1 :: body) ++ [b2]) in E.
  rewrite app_assoc in E. apply app_inj_tail in E as [E <-].
  rewrite <- app_assoc in Eq. cbn [app] in Eq.
  destruct (word_before_barrier r q s w res b2 Hb2 Hw Eq) as (q' & -> & _).
  destruct p1 as [|x p1].
  - cbn [app] in E. destruct w as [|x w]; [done|].
    injection E as <- _. apply Lang_alphabet in Hw.
    apply Forall_cons in Hw as [Hx _]. congruence.
  - injection E as _ ->. now apply (Hbody p1 w q').
Qed.

End Scan.

(** *** Two patterns whose matches do not overlap *)

Section TwoPatterns.

Variables (r1 r2 : regex) (t1 t2 : jsstring).
Hypothesis Hwf1 : well_formed r1 = true.
Hypothesis Hwf2 : well_formed r2 = true.
Hypothesis Hnil1 : ~ Lang r1 [].
Hypothesis Hnil2 : ~ Lang r2 [].
Hypothesis Hg12 : guarded r1 t2.
Hypothesis Hg21 : guarded r2 t1.

(** Under the marks of a match of the one pattern the other pattern
    matched nothing. *)
Lemma marks_under (r : regex) (w rest : jsstring) (a : list bool) :
  well_formed r = true -> ~ Lang r [] ->
  overlap (repeat true (length w) ++ a) (marks r (w ++ rest)) = false ->
  unmatched r w rest /\ overlap a (marks r rest) = false.
Proof.
  intros Hwf Hnil. induction w as [|ch w IH]; intros H.
  - split; [|exact H]. intros p1 p2 E. symmetry in E. now apply app_eq_nil in E as [_ ->].
  - cbn [length repeat app] in H.
    destruct (match_here r (ch :: w ++ rest)) as [rest'|] eqn:E.
    + exfalso. pose proof (match_here_shorter r Hwf Hnil _ _ E) as Hlen.
      rewrite (marks_match r Hwf Hnil _ _ E) in H.
      destruct (length (ch :: w ++ rest) - length rest') eqn:En; [lia|].
      cbn [repeat app overlap andb orb] in H. discriminate H.
    + rewrite (marks_copy r _ _ E) in H. cbn [overlap andb orb] in H.
      destruct (IH H) as [Hu Ha]. split; [|exact Ha].
      intros p1 p2 Ep Hp2. destruct p1 as [|x p1].
      * cbn [app] in Ep. subst p2. exact E.
      * injection Ep as _ ->. now apply (Hu p1 p2).
Qed.

(** One step of the argument: a match of [r1] at the head. *)
Lemma order_step (ra rb : regex) (ta tb : jsstring) (x rest : jsstring) :
  well_formed ra = true -> well_formed rb = true ->
  ~ Lang ra [] -> ~ Lang rb [] -> guarded ra tb -> guarded rb ta ->
  match_here ra x = Some rest ->
  overlap (marks ra x) (marks rb x) = false ->
  overlap (marks ra rest) (marks rb rest) = false
  /\ replace_all rb tb (replace_all ra ta x)
     = ta ++ replace_all rb tb (replace_all ra ta rest)
  /\ replace_all ra ta (replace_all rb tb x)
     = ta ++ replace_all ra ta (replace_all rb tb rest).
Proof.
  intros Hwfa Hwfb Hnila Hnilb Hgab Hgba Hm Hov.
  destruct (match_here_sound ra x rest Hwfa Hm) as (w & -> & Hw).
  rewrite (marks_match ra Hwfa Hnila _ _ Hm) in Hov.
  replace (length (w ++ rest) - length rest) with (length w) in Hov
    by (rewrite length_app; lia).
  destruct (marks_under rb w rest _ Hwfb Hnilb Hov) as [Hu Hov'].
  split; [exact Hov'|]. split.
  - rewrite (replace_all_match ra ta Hwfa Hnila _ _ Hm).
    apply (replace_all_unmatched rb tb).
    now apply guarded_unmatched.
  - rewrite (replace_all_unmatched rb tb w rest Hu).
    apply (replace_all_match ra ta Hwfa Hnila).
    destruct Hgab as (b1 & body & b2 & -> & Hb1 & _).
    exact (match_here_replace_behind ra rb b1 (body ++ [b2]) Hwfa Hb1
             (S (length rest)) rest w [] Hm).
Qed.

Theorem replace_order (x : jsstring) :
  overlap (marks r1 x) (marks r2 x) = false ->
  replace_all r2 t2 (replace_all r1 t1 x) = replace_all r1 t1 (replace_all r2 t2 x).
Proof.
  remember (length x) as n eqn:En. revert x En.
  induction n as [n IH] using lt_wf_ind. intros x -> Hov.
  destruct (match_here r1 x) as [rest1|] eqn:E1.
  - destruct (order_step r1 r2 t1 t2 x rest1 Hwf1 Hwf2 Hnil1 Hnil2 Hg12 Hg21 E1 Hov)
      as (Hov' & -> & ->).
    f_equal. apply (IH (length rest1)); [|reflexivity|exact Hov'].
    exact (match_here_shorter r1 Hwf1 Hnil1 _ _ E1).
  - destruct (match_here r2 x) as [rest2|] eqn:E2.
    + rewrite overlap_comm in Hov.
      destruct (order_step r2 r1 t2 t1 x rest2 Hwf2 Hwf1 Hnil2 Hnil1 Hg21 Hg12 E2 Hov)
        as (Hov' & -> & ->).
      f_equal. rewrite overlap_comm in Hov'.
      apply (IH (length rest2)); [|reflexivity|exact Hov'].
      exact (match_here_shorter r2 Hwf2 Hnil2 _ _ E2).
    + destruct x as [|ch x].
      * now rewrite !(replace_all_nil r1 t1 Hwf1 Hnil1), !(replace_all_nil r2 t2 Hwf2 Hnil2),
          (replace_all_nil r1 t1 Hwf1 Hnil1).
      * rewrite (marks_copy r1 _ _ E1), (marks_copy r2 _ _ E2) in Hov.
        cbn [overlap andb orb] in Hov.
        rewrite (replace_all_copy r1 t1 _ _ E1), (replace_all_copy r2 t2 _ _ E2).
        destruct Hg12 as (b1 & body1 & b1' & -> & Hb1 & _).
        destruct Hg21 as (b2 & body2 & b2' & -> & Hb2 & _).
        rewrite (replace_all_copy r2).
        2: { exact (match_here_None_replace_behind r2 r1 b2 _ Hwf2 Hb2
                      (S (length x)) x [ch] E2). }
        rewrite (replace_all_copy r1).
        2: { exact (match_here_None_replace_behind r1 r2 b1 _ Hwf1 Hb1
                      (S (length x)) x [ch] E1). }
        f_equal. apply (IH (length x)); [cbn [length]; lia|reflexivity|exact Hov].
Qed.

End TwoPatterns.

End RegexFacts.

(** ** Redaction *)

Section RedactionFacts.

Import Regex.

Lemma email_pattern_well_formed : well_formed email_pattern = true.
Proof. reflexivity. Qed.

Lemma phone_pattern_well_formed : well_formed phone_pattern = true.
Proof. reflexivity. Qed.

(** An email match holds an [@]. *)
Lemma email_needs_at : needs email_pattern (N.eqb (N_of_ascii "@")).
Proof.
  intros w (u1 & v1 & -> & _ & u2 & v2 & -> & (ch & -> & Hch) & _).
  exists ch. split; [|exact Hch].
  apply in_app_iff. right. now left.
Qed.

(** A phone match holds a digit. *)
Lemma phone_needs_digit : needs phone_pattern digit.
Proof.
  intros w (u1 & v1 & -> & _ & u2 & v2 & -> & _ & u3 & v3 & -> & Hd & _).
  destruct Hd as (n & [Hn _] & Hp). destruct n as [|n]; [lia|].
  destruct Hp as (a & b & -> & (ch & -> & Hch) & _).
  exists ch. split; [|exact Hch].
  apply in_app_iff. right. apply in_app_iff. right. now left.
Qed.

Lemma guarded_email_EMAIL : guarded email_pattern EMAIL_REDACTED.
Proof.
  exists 91%N, (js "EMAIL_REDACTED"), 93%N. repeat split; try reflexivity.
  now apply (needs_nomatch _ _ _ email_needs_at).
Qed.

Lemma guarded_email_PHONE : guarded email_pattern PHONE_REDACTED.
Proof.
  exists 91%N, (js "PHONE_REDACTED"), 93%N. repeat split; try reflexivity.
  now apply (needs_nomatch _ _ _ email_needs_at).
Qed.

Lemma guarded_phone_PHONE : guarded phone_pattern PHONE_REDACTED.
Proof.
  exists 91%N, (js "PHONE_REDACTED"), 93%N. repeat split; try reflexivity.
  now apply (needs_nomatch _ _ _ phone_needs_digit).
Qed.

Lemma guarded_phone_EMAIL : guarded phone_pattern EMAIL_REDACTED.
Proof.
  exists 91%N, (js "EMAIL_REDACTED"), 93%N. repeat split; try reflexivity.
  now apply (needs_nomatch _ _ _ phone_needs_digit).
Qed.

(** No email match is left behind by [redact_emails], and none by
    [redact_phones] if there was none before. *)
Lemma redact_emails_clean (x : jsstring) : nomatch email_pattern (redact_emails x).
Proof.
  apply replace_all_self;
    [reflexivity|exact (needs_not_nil _ _ email_needs_at)|exact guarded_email_EMAIL].
Qed.

Lemma redact_phones_clean (x : jsstring) : nomatch phone_pattern (redact_phones x).
Proof.
  apply replace_all_self;
    [reflexivity|exact (needs_not_nil _ _ phone_needs_digit)|exact guarded_phone_PHONE].
Qed.

Lemma redact_phones_keeps (x : jsstring) :
  nomatch email_pattern x -> nomatch email_pattern (redact_phones x).
Proof. apply replace_all_keeps; [reflexivity|exact guarded_email_PHONE]. Qed.

Lemma redact_emails_id (x : jsstring) : nomatch email_pattern x -> redact_emails x = x.
Proof. apply replace_all_clean. reflexivity. Qed.

Lemma redact_phones_id (x : jsstring) : nomatch phone_pattern x -> redact_phones x = x.
Proof. apply replace_all_clean. reflexivity. Qed.

End RedactionFacts.

Example redactPII_coverage :
  redactPII (js "contact a@b.com or (555) 123-4567")
  = js "contact [EMAIL_REDACTED] or [PHONE_REDACTED]".
Proof. vm_compute. reflexivity. Qed.

(** C7 (as amended): when no email match of the input overlaps a phone
    match of it (the matches being those the global scan of the input
    finds for each pattern), replacing emails then phones and replacing
    phones then emails give the same text. *)
Theorem redaction_order (x : jsstring) :
  overlap (marks email_pattern x) (marks phone_pattern x) = false ->
  redact_phones (redact_emails x) = redact_emails (redact_phones x).
Proof.
  apply replace_order; try reflexivity.
  - exact (needs_not_nil _ _ email_needs_at).
  - exact (needs_not_nil _ _ phone_needs_digit).
  - exact guarded_email_PHONE.
  - exact guarded_phone_EMAIL.
Qed.

Lemma redaction_order_witness :
  redact_phones (redact_emails (js "contact a@b.com or (555) 123-4567"))
  = redact_emails (redact_phones (js "contact a@b.com or (555) 123-4567")).
Proof.
  apply (redaction_order (js "contact a@b.com or (555) 123-4567")).
  vm_compute. reflexivity.
Defined.

(** C7 fails as stated: digits before an [@] are an email's local part
    and a phone number at once, and the pattern applied first decides. *)
Lemma redaction_order_counterexample :
  redact_phones (redact_emails (js "5551234567@example.com"))
  = js "[EMAIL_REDACTED]"
  /\ redact_emails (redact_phones (js "5551234567@example.com"))
     = js "[PHONE_REDACTED]@example.com"
  /\ js "[EMAIL_REDACTED]" <> js "[PHONE_REDACTED]@example.com".
Proof. split; [|split]; [vm_compute; reflexivity..|discriminate]. Qed.

(** C8: [redactPII] is idempotent. *)
Theorem redactPII_idempotent (x : jsstring) :
  redactPII (redactPII x) = redactPII x.
Proof.
  assert (He : nomatch email_pattern (redactPII x))
    by apply redact_phones_keeps, redact_emails_clean.
  assert (Hp : nomatch phone_pattern (redactPII x)) by apply redact_phones_clean.
  unfold redactPII at 1. cbv zeta.
  rewrite (redact_emails_id _ He). exact (redact_phones_id _ Hp).
Qed.

(** ** The object store *)

Section StoreFacts.

Lemma key_compare_antisym (a b : jsstring) :
  key_compare a b = CompOpp (key_compare b a).
Proof.
  revert b. induction a as [|x a IH]; intros [|y b]; cbn [key_compare]; try reflexivity.
  rewrite (N.compare_antisym y x). destruct (N.compare y x); cbn [CompOpp]; auto.
Qed.

Lemma key_compare_Lt_trans (a b c : jsstring) :
  key_compare a b = Lt -> key_compare b c = Lt -> key_compare a c = Lt.
Proof.
  revert b c. induction a as [|x a IH]; intros [|y b] [|z c]; cbn [key_compare];
    try done.
  destruct (N.compare_spec x y) as [->|Hxy|Hxy]; [|intros _|done].
  - destruct (N.compare z y) eqn:E; rewrite (N.compare_antisym z y), E; cbn [CompOpp];
      [apply IH|done|done].
  - destruct (N.compare_spec y z) as [->|Hyz|Hyz]; [|intros _|done].
    + now apply N.compare_lt_iff in Hxy as ->.
    + assert (Hxz : (x < z)%N) by lia. now apply N.compare_lt_iff in Hxz as ->.
Qed.

Lemma idb_add_Permutation (doc : VectorDocument) (store store' : ObjectStore) :
  idb_add doc store = Ok store' -> Permutation (doc :: store) store'.
Proof.
  revert store'. induction store as [|d store IH]; intros store'; cbn [idb_add].
  - now intros [= <-].
  - destruct (key_compare (Doc.id doc) (Doc.id d)); [done|now intros [= <-]|].
    destruct (idb_add doc store) as [rest'|]; [|done]. cbn [bind]. intros [= <-].
    rewrite perm_swap. now apply perm_skip, IH.
Qed.

Lemma idb_add_sorted (doc : VectorDocument) (store store' : ObjectStore) :
  StronglySorted key_lt store -> idb_add doc store = Ok store' ->
  StronglySorted key_lt store'.
Proof.
  intros Hs. revert store'.
  induction Hs as [|d store Hs IH Hd]; intros store'; cbn [idb_add].
  - intros [= <-]. by repeat constructor.
  - destruct (key_compare (Doc.id doc) (Doc.id d)) eqn:E; [done| |].
    + intros [= <-]. constructor; [now constructor|].
      constructor; [exact E|].
      eapply Forall_impl; [exact Hd|]. intros d' Hd'.
      exact (key_compare_Lt_trans _ _ _ E Hd').
    + destruct (idb_add doc store) as [rest'|] eqn:Eadd; [|done].
      cbn [bind]. intros [= <-]. constructor; [now apply IH|].
      apply idb_add_Permutation in Eadd.
      eapply Permutation_Forall; [exact Eadd|].
      constructor; [|exact Hd].
      unfold key_lt. now rewrite key_compare_antisym, E.
Qed.

(** A failed [add] is a key that is taken. *)
Lemma idb_add_Err (doc : VectorDocument) (store : ObjectStore) (e : JsError) :
  idb_add doc store = Err e -> e = ConstraintError.
Proof.
  induction store as [|d store IH]; cbn [idb_add]; [done|].
  destruct (key_compare (Doc.id doc) (Doc.id d)); [now intros [= <-]|done|].
  destruct (idb_add doc store); [done|]. cbn [bind]. intros [= <-]. now apply IH.
Qed.

End StoreFacts.

(** ** Key management *)

Section KeyFacts.

Context {backend : AeadBackend}.

(** A call that no other call overlaps, case by case. *)
Lemma getPersistentKey_cases (env : KeyEnv) (db : KeyDb) :
  getPersistentKey env db =
    if opens db then
      if get_succeeds env then
        match keys db !! KEY_ID with
        | Some stored => (Settled (Ok stored), db)
        | None =>
            match generateKey env with
            | Some newKey =>
                if put_completes env
                then (Settled (Ok newKey),
                      mk_KeyDb (opens db) (<[KEY_ID := newKey]> (keys db)))
                else (Abandoned, db)
            | None => (Abandoned, db)
            end
        end
      else (Settled (Err RequestError), db)
    else (Settled (Err DbOpenError), db).
Proof.
  unfold getPersistentKey. cbn [key_step]. unfold openKeyDB.
  destruct (opens db) eqn:Ho; [|reflexivity]. cbn [key_step]. unfold idb_request.
  destruct (get_succeeds env); [|reflexivity].
  destruct (keys db !! KEY_ID) as [stored|]; [reflexivity|]. cbn [key_step].
  destruct (generateKey env) as [newKey|]; [|reflexivity]. cbn [key_step].
  rewrite Ho. now destruct (put_completes env).
Qed.

Lemma key_step_stored (key : CryptoKey) (env : KeyEnv) (call : KeyCall) (db : KeyDb) :
  keys db !! KEY_ID = Some key -> reads_only key call ->
  snd (key_step env call db) = db /\ reads_only key (fst (key_step env call db)).
Proof.
  intros Hk Hc. destruct call as [| | |newKey|outcome|]; try done; cbn [key_step].
  - unfold openKeyDB. now destruct (opens db).
  - rewrite Hk. unfold idb_request. now destruct (get_succeeds env).
Qed.

Lemma run_calls_stored (key : CryptoKey) (schedule : list nat)
    (calls : list (KeyEnv * KeyCall)) (db : KeyDb) :
  keys db !! KEY_ID = Some key ->
  Forall (fun c => reads_only key (snd c)) calls ->
  snd (run_calls schedule calls db) = db
  /\ Forall (fun c => reads_only key (snd c)) (fst (run_calls schedule calls db)).
Proof.
  intros Hk. revert calls. induction schedule as [|i schedule IH]; intros calls Hc;
    [by split|].
  cbn [run_calls]. destruct (calls !! i) as [[env call]|] eqn:Ei; [|now apply IH].
  assert (Hcall : reads_only key call).
  { rewrite Forall_lookup in Hc. exact (Hc i _ Ei). }
  destruct (key_step_stored key env call db Hk Hcall) as [Hdb Hcall'].
  destruct (key_step env call db) as [call' db']. cbn [fst snd] in Hdb, Hcall'.
  subst db'. apply IH. now apply Forall_insert.
Qed.

End KeyFacts.

(** C10 (as amended): [createSessionKey] is [getPersistentKey].  A call
    of either that no other call overlaps and that resolves leaves the
    key it returns in the store.  While a key is stored, calls of either,
    however they overlap, leave the store as it is, and those that
    resolve return the stored key; a call on its own resolves with it
    when the database opens and the read succeeds. *)
Theorem createSessionKey_getPersistentKey {backend : AeadBackend}
    (env : KeyEnv) (db : KeyDb) :
  createSessionKey env db = getPersistentKey env db
  /\ (forall key db',
        getPersistentKey env db = (Settled (Ok key), db') ->
        keys db' !! KEY_ID = Some key)
  /\ (forall key,
        keys db !! KEY_ID = Some key ->
        (opens db = true -> get_succeeds env = true ->
         createSessionKey env db = (Settled (Ok key), db)
         /\ getPersistentKey env db = (Settled (Ok key), db))
        /\ forall schedule calls,
             Forall (fun c => snd c = Called) calls ->
             snd (run_calls schedule calls db) = db
             /\ Forall (fun c => forall key', snd c = Settled (Ok key') -> key' = key)
                  (fst (run_calls schedule calls db))).
Proof.
  split; [reflexivity|]. split.
  - intros key db'. rewrite getPersistentKey_cases.
    destruct (opens db); [|done]. destruct (get_succeeds env); [|done].
    destruct (keys db !! KEY_ID) as [stored|] eqn:Hk; [now intros [= <- <-]|].
    destruct (generateKey env) as [newKey|]; [|done].
    destruct (put_completes env); [|done].
    intros [= <- <-]. cbn [keys]. apply lookup_insert_eq.
  - intros key Hk. split.
    + intros Ho Hg. unfold createSessionKey. rewrite getPersistentKey_cases.
      now rewrite Ho, Hg, Hk.
    + intros schedule calls Hcalls.
      assert (Hro : Forall (fun c => reads_only key (snd c)) calls).
      { eapply Forall_impl; [exact Hcalls|]. intros c ->. exact I. }
      destruct (run_calls_stored key schedule calls db Hk Hro) as [Hdb Hall].
      split; [exact Hdb|]. eapply Forall_impl; [exact Hall|].
      intros [env' call] Hc key' E. cbn [snd] in Hc, E. now subst call.
Qed.

(** C10 fails as stated: while no key is stored each call returns the key
    that was generated for it.  Two first calls on an empty store, one
    through each entry point, return two keys, also when they overlap;
    the store keeps the key that was written last, and it is this one a
    later call returns. *)
Lemma session_key_counterexample :
  let first := mk_KeyEnv (backend := mirror_backend) true (Some Byte.x01) true in
  let second := mk_KeyEnv (backend := mirror_backend) true (Some Byte.x02) true in
  let db := mk_KeyDb (backend := mirror_backend) true ∅ in
  Byte.x01 <> Byte.x02
  /\ fst (createSessionKey first db) = Settled (Ok Byte.x01)
  /\ fst (getPersistentKey second db) = Settled (Ok Byte.x02)
  /\ List.map snd (fst (run_calls [0; 1; 0; 1; 0; 1; 0; 1]%nat
                          [(first, Called); (second, Called)] db))
     = [Settled (Ok Byte.x01); Settled (Ok Byte.x02)]
  /\ fst (getPersistentKey first
            (snd (run_calls [0; 1; 0; 1; 0; 1; 0; 1]%nat
                    [(first, Called); (second, Called)] db)))
     = Settled (Ok Byte.x02).
Proof. split; [discriminate|]. repeat split; vm_compute; reflexivity. Qed.

(** ** The vector store service *)

Section ServiceFacts.

Context {backend : AeadBackend} {engine : Engine}.
Variable getEmbedding : jsstring -> result (list float).

Lemma new_document_Ok (this : VectorDbService) (rnd : Entropy)
    (text : jsstring) (type : DocType) (doc : VectorDocument) :
  new_document getEmbedding this rnd text type = Ok doc ->
  exists key vector encryptedContent,
    keyPromise this = Ok key
    /\ getEmbedding text = Ok vector
    /\ encryptData text key (iv rnd) = Ok encryptedContent
    /\ doc = Doc.mk (uuid rnd) encryptedContent vector (now rnd) type.
Proof.
  unfold new_document. destruct (dbPromise this); [|done].
  destruct (keyPromise this) as [key|]; [|done]. cbn [bind].
  destruct (getEmbedding text) as [vector|];
    destruct (encryptData text key (iv rnd)) as [encryptedContent|] eqn:E; try done.
  cbn [Promise_all2 bind]. intros [= <-]. by exists key, vector, encryptedContent.
Qed.

Lemma new_document_embedding_failure (this : VectorDbService) (rnd : Entropy)
    (text : jsstring) (type : DocType) (e : JsError) :
  getEmbedding text = Err e ->
  exists e', new_document getEmbedding this rnd text type = Err e'.
Proof.
  intros He. unfold new_document.
  destruct (dbPromise this) as [?|e1]; [|by exists e1].
  destruct (keyPromise this) as [key|e2]; [|by exists e2].
  cbn [bind]. rewrite He. destruct (encryptData text key (iv rnd)) as [blob|e'].
  - by exists e.
  - by exists (if embedding_first rnd then e else e').
Qed.

(** A call of [addDocument] that fails leaves the store as it was. *)
Lemma addDocument_Err (this : VectorDbService) (rnd : Entropy)
    (text : jsstring) (type : DocType) (store : ObjectStore) (e : JsError) :
  fst (addDocument getEmbedding this rnd text type store) = Err e ->
  snd (addDocument getEmbedding this rnd text type store) = store.
Proof.
  unfold addDocument. destruct (new_document getEmbedding this rnd text type) as [doc|];
    [|done].
  now destruct (idb_add doc store).
Qed.

Lemma addDocument_Ok (this : VectorDbService) (rnd : Entropy)
    (text : jsstring) (type : DocType) (store store' : ObjectStore) :
  addDocument getEmbedding this rnd text type store = (Ok tt, store') ->
  exists doc,
    new_document getEmbedding this rnd text type = Ok doc
    /\ idb_add doc store = Ok store'.
Proof.
  unfold addDocument. destruct (new_document getEmbedding this rnd text type) as [doc|];
    [|done].
  destruct (idb_add doc store) as [st|] eqn:E; [|done]. intros [= <-]. by exists doc.
Qed.

Lemma addDocument_sorted (this : VectorDbService) (rnd : Entropy)
    (text : jsstring) (type : DocType) (store : ObjectStore) :
  StronglySorted key_lt store ->
  StronglySorted key_lt (snd (addDocument getEmbedding this rnd text type store)).
Proof.
  intros Hs. unfold addDocument.
  destruct (new_document getEmbedding this rnd text type) as [doc|]; [|exact Hs].
  destruct (idb_add doc store) as [st|] eqn:E; [|exact Hs].
  exact (idb_add_sorted _ _ _ Hs E).
Qed.

(** *** Sorting and slicing *)

Lemma sort_insert_length {A : Type} (f : A -> A -> float) (x : A) (l : list A) :
  length (sort_insert f x l) = S (length l).
Proof.
  induction l as [|y l IH]; [reflexivity|]. cbn [sort_insert].
  destruct (0 <? f x y)%float; cbn [length]; now rewrite ?IH.
Qed.

Lemma array_sort_length {A : Type} (f : A -> A -> float) (l : list A) :
  length (array_sort f l) = length l.
Proof.
  induction l as [|x l IH]; [reflexivity|]. cbn [array_sort fold_right].
  fold (array_sort f l). now rewrite sort_insert_length, IH.
Qed.

Lemma sort_insert_Permutation {A : Type} (f : A -> A -> float) (x : A) (l : list A) :
  Permutation (x :: l) (sort_insert f x l).
Proof.
  induction l as [|y l IH]; [reflexivity|]. cbn [sort_insert].
  destruct (0 <? f x y)%float; [|reflexivity].
  rewrite perm_swap. now apply perm_skip.
Qed.

Lemma array_sort_Permutation {A : Type} (f : A -> A -> float) (l : list A) :
  Permutation l (array_sort f l).
Proof.
  induction l as [|x l IH]; [reflexivity|]. cbn [array_sort fold_right].
  fold (array_sort f l). rewrite <- sort_insert_Permutation. now apply perm_skip.
Qed.

Lemma slice_to_length {A B : Type} (stop : Z) (l : list A) (l' : list B) :
  length l = length l' -> length (slice_to stop l) = length (slice_to stop l').
Proof.
  intros E. unfold slice_to. rewrite E.
  destruct (stop <? 0)%Z; now rewrite !length_take, E.
Qed.

Lemma scoredDocs_length (queryVector : list float) (allDocs : list VectorDocument) :
  length (scoredDocs queryVector allDocs) = length allDocs.
Proof. unfold scoredDocs. now rewrite array_sort_length, length_map. Qed.

(** Whatever the store holds, a search that gets its two promises, the
    embedding of the query and the records resolves with one entry per
    selected record. *)
Lemma search_Ok (this : VectorDbService) (query : jsstring) (limit : Z)
    (store : ObjectStore) (key : CryptoKey) (queryVector : list float) :
  dbPromise this = Ok tt -> keyPromise this = Ok key ->
  getEmbedding query = Ok queryVector ->
  search getEmbedding this query limit true store
  = Ok (List.map (decrypt_entry key) (topDocs queryVector limit (idb_getAll store))).
Proof.
  intros Hdb Hkey Hq. unfold search. rewrite Hdb, Hkey, Hq. cbn [bind idb_request].
  destruct (idb_getAll store) as [|d l] eqn:E; [|reflexivity].
  cbn [length Nat.eqb]. unfold topDocs, scoredDocs, slice_to. cbn.
  now destruct (limit <? 0)%Z, (Z.to_nat _).
Qed.

(** The ways [search] rejects. *)
Lemma search_Err (this : VectorDbService) (query : jsstring) (limit : Z)
    (reads : bool) (store : ObjectStore) (e : JsError) :
  search getEmbedding this query limit reads store = Err e ->
  dbPromise this = Err e \/ keyPromise this = Err e \/ getEmbedding query = Err e
  \/ (reads = false /\ e = RequestError).
Proof.
  unfold search. intros E.
  destruct (dbPromise this) as [?|e1]; cbn [bind] in E; [|left; congruence].
  destruct (keyPromise this) as [key|e2]; cbn [bind] in E; [|right; left; congruence].
  destruct (getEmbedding query) as [queryVector|e3]; cbn [bind] in E;
    [|right; right; left; congruence].
  destruct reads; cbn [idb_request bind] in E.
  - now destruct (Nat.eqb _ _).
  - right; right; right. split; congruence.
Qed.

Lemma search_reads (this : VectorDbService) (query : jsstring) (limit : Z)
    (reads : bool) (store : ObjectStore) (results : list MemoryContext) :
  search getEmbedding this query limit reads store = Ok results -> reads = true.
Proof.
  unfold search. destruct (dbPromise this); [|done].
  destruct (keyPromise this); [|done]. destruct (getEmbedding query); [|done].
  now destruct reads.
Qed.

Lemma search_inv (this : VectorDbService) (query : jsstring) (limit : Z)
    (reads : bool) (store : ObjectStore) (results : list MemoryContext) :
  search getEmbedding this query limit reads store = Ok results ->
  exists key queryVector,
    keyPromise this = Ok key /\ getEmbedding query = Ok queryVector
    /\ results = List.map (decrypt_entry key) (topDocs queryVector limit (idb_getAll store)).
Proof.
  intros Hs. pose proof (search_reads _ _ _ _ _ _ Hs) as ->.
  destruct (dbPromise this) as [[]|] eqn:Hdb;
    [|unfold search in Hs; now rewrite Hdb in Hs].
  destruct (keyPromise this) as [key|] eqn:Hkey;
    [|unfold search in Hs; now rewrite Hdb, Hkey in Hs].
  destruct (getEmbedding query) as [queryVector|] eqn:Hq;
    [|unfold search in Hs; now rewrite Hdb, Hkey, Hq in Hs].
  rewrite (search_Ok this query limit store key queryVector Hdb Hkey Hq) in Hs.
  injection Hs as <-. by exists key, queryVector.
Qed.

End ServiceFacts.

(** The service built on an empty key store holds the key that was
    generated and persisted for it. *)
Lemma new_VectorDbService_key {backend : AeadBackend} (newKey : CryptoKey) :
  new_VectorDbService (mk_KeyEnv true (Some newKey) true) (mk_KeyDb true ∅) true
  = (Some (mk_VectorDbService (Ok tt) (Ok newKey)), mk_KeyDb true {[KEY_ID := newKey]}).
Proof. reflexivity. Qed.

(** After [clear], [search] finds nothing. *)
Lemma search_after_clear {backend : AeadBackend}
    (getEmbedding : jsstring -> result (list float)) (this : VectorDbService)
    (query : jsstring) (limit : Z) (reads : bool) (store : ObjectStore)
    (results : list MemoryContext) :
  search getEmbedding this query limit reads (snd (clear this store)) = Ok results ->
  results = [].
Proof.
  unfold clear, search. destruct (dbPromise this); cbn [bind snd]; [|done].
  destruct (keyPromise this); cbn [bind]; [|done].
  destruct (getEmbedding query); cbn [bind]; [|done].
  destruct reads; cbn [idb_request bind]; [|done].
  now intros [= <-].
Qed.

(** ** The write path *)

(** C6: when the embedding provider fails, [addDocument] fails and the
    store is as it was. *)
Theorem addDocument_all_or_nothing {backend : AeadBackend} {engine : Engine}
    (getEmbedding : jsstring -> result (list float))
    (this : VectorDbService) (rnd : Entropy) (text : jsstring) (type : DocType)
    (store : ObjectStore) (e : JsError) :
  getEmbedding text = Err e ->
  snd (addDocument getEmbedding this rnd text type store) = store
  /\ exists e', fst (addDocument getEmbedding this rnd text type store) = Err e'.
Proof.
  intros He.
  destruct (new_document_embedding_failure getEmbedding this rnd text type e He)
    as [e' Hnew].
  unfold addDocument. rewrite Hnew. split; [reflexivity|]. by exists e'.
Qed.

Lemma addDocument_all_or_nothing_witness :
  snd (addDocument axis_embedding sample_service (sample_entropy "4f1c" 7) [] chat []) = []
  /\ exists e',
       fst (addDocument axis_embedding sample_service (sample_entropy "4f1c" 7) [] chat [])
       = Err e'.
Proof.
  apply (addDocument_all_or_nothing (backend := mirror_backend) axis_embedding
           sample_service (sample_entropy "4f1c" 7) [] chat [] ProviderError).
  reflexivity.
Defined.



(** ** Reading the store *)

Section SequenceFacts.

Context {backend : AeadBackend} {engine : Engine}.
Variable getEmbedding : jsstring -> result (list float).

Lemma add_sequence_sorted this calls store :
  StronglySorted key_lt store ->
  StronglySorted key_lt (snd (add_sequence getEmbedding this calls store)).
Proof.
  revert store. induction calls as [|[[rnd text] type] calls IH]; intros store Hs;
    [exact Hs|].
  cbn [add_sequence].
  pose proof (addDocument_sorted getEmbedding this rnd text type store Hs) as Hs'.
  destruct (addDocument getEmbedding this rnd text type store) as [outcome store'].
  specialize (IH store' Hs'). destruct (add_sequence getEmbedding this calls store') as [added final].
  now destruct outcome, (new_document getEmbedding this rnd text type).
Qed.

Lemma add_sequence_Permutation this calls store :
  Permutation (rev (fst (add_sequence getEmbedding this calls store)) ++ store)
    (snd (add_sequence getEmbedding this calls store)).
Proof.
  revert store. induction calls as [|[[rnd text] type] calls IH]; intros store;
    [reflexivity|].
  cbn [add_sequence].
  destruct (addDocument getEmbedding this rnd text type store) as [outcome store'] eqn:E.
  specialize (IH store'). destruct (add_sequence getEmbedding this calls store') as [added final].
  cbn [fst snd] in IH.
  destruct outcome as [[]|e].
  - apply addDocument_Ok in E as (doc & Hnew & Hadd). rewrite Hnew. cbn [fst snd rev].
    rewrite <- IH, <- app_assoc. apply Permutation_app_head.
    now apply idb_add_Permutation.
  - pose proof (addDocument_Err getEmbedding this rnd text type store e) as H.
    rewrite E in H. cbn [fst snd] in H. rewrite H in IH by reflexivity.
    now destruct (new_document getEmbedding this rnd text type).
Qed.

End SequenceFacts.

(** C3 (as amended): after any sequence of [addDocument] calls on an
    empty store, [getAll] returns the records that were added, each once,
    in strictly ascending order of their [id]. *)
Theorem getAll_key_order {backend : AeadBackend} {engine : Engine}
    (getEmbedding : jsstring -> result (list float)) (this : VectorDbService)
    (calls : list (Entropy * jsstring * DocType)) :
  StronglySorted key_lt (idb_getAll (snd (add_sequence getEmbedding this calls [])))
  /\ Permutation (fst (add_sequence getEmbedding this calls []))
       (idb_getAll (snd (add_sequence getEmbedding this calls []))).
Proof.
  split.
  - apply add_sequence_sorted. constructor.
  - unfold idb_getAll. rewrite <- add_sequence_Permutation, app_nil_r.
    apply Permutation_rev.
Qed.

(** C3 fails as stated: the record added first carries the larger [id]
    and is returned last. *)
Lemma getAll_order_counterexample :
  List.map Doc.timestamp
    (fst (add_sequence axis_embedding sample_service
            [(sample_entropy "c0a8" 1, js "xylophone", chat);
             (sample_entropy "1d4e" 2, js "yodel", chat)] []))
  = [1; 2]%N
  /\ List.map Doc.timestamp
       (idb_getAll
          (snd (add_sequence axis_embedding sample_service
                  [(sample_entropy "c0a8" 1, js "xylophone", chat);
                   (sample_entropy "1d4e" 2, js "yodel", chat)] [])))
     = [2; 1]%N.
Proof. split; vm_compute; reflexivity. Qed.

(** C5: a record that does not decrypt makes [search] neither reject nor
    drop a record.  [search] rejects only when the database, the key, the
    embedding of the query or the records are not to be had.  Otherwise
    it resolves with one entry for each of the records it selected, as
    many of the stored records as [slice(0, limit)] keeps: the entry has
    the timestamp and the score of its record, and its text is the
    decrypted content, or the placeholder where decryption of that record
    failed. *)
Theorem search_isolates_decrypt_failures {backend : AeadBackend}
    (getEmbedding : jsstring -> result (list float)) (this : VectorDbService)
    (query : jsstring) (limit : Z) (reads : bool) (store : ObjectStore) :
  match search getEmbedding this query limit reads store with
  | Ok results =>
      exists key queryVector selected,
        keyPromise this = Ok key /\ getEmbedding query = Ok queryVector
        /\ selected ⊆+ List.map
                         (fun doc => (doc, cosineSimilarity queryVector (Doc.vector doc)))
                         (idb_getAll store)
        /\ length selected = length (slice_to limit (idb_getAll store))
        /\ Forall2
             (fun doc entry =>
                Ctx.timestamp entry = Doc.timestamp (fst doc)
                /\ Ctx.score entry = snd doc
                /\ match decryptData (Doc.content (fst doc)) key with
                   | Ok text => Ctx.text entry = text
                   | Err _ => Ctx.text entry = ENCRYPTED_MEMORY
                   end)
             selected results
  | Err e =>
      dbPromise this = Err e \/ keyPromise this = Err e \/ getEmbedding query = Err e
      \/ (reads = false /\ e = RequestError)
  end.
Proof.
  destruct (search getEmbedding this query limit reads store) as [results|e] eqn:E;
    [|exact (search_Err _ _ _ _ _ _ _ E)].
  apply search_inv in E as (key & queryVector & Hkey & Hq & ->).
  exists key, queryVector, (topDocs queryVector limit (idb_getAll store)).
  split; [exact Hkey|]. split; [exact Hq|]. split; [|split].
  - unfold topDocs, scoredDocs, slice_to.
    set (l := List.map _ (idb_getAll store)).
    transitivity (array_sort (fun a b : scored => (snd b - snd a)%float) l).
    + destruct (limit <? 0)%Z; apply sublist_submseteq, sublist_take.
    + apply Permutation_submseteq. symmetry. apply array_sort_Permutation.
  - unfold topDocs. apply slice_to_length, scoredDocs_length.
  - induction (topDocs queryVector limit (idb_getAll store)) as [|doc l IH];
      cbn [List.map]; constructor; [|exact IH].
    unfold decrypt_entry. now destruct (decryptData (Doc.content (fst doc)) key).
Qed.

(** Three records, the second with a content that is no blob of
    [encryptData]: the others come back decrypted. *)
Example search_corrupted_record :
  let store :=
    snd (add_sequence axis_embedding sample_service
           [(sample_entropy "1d4e" 1, js "xylophone solo", chat);
            (sample_entropy "c0a8" 3, js "x marks the chorus", memory)] []) in
  let corrupted := Doc.mk (js "7e57") (js "not a blob") [1; 0]%float 2 chat in
  (let* store' := idb_add corrupted store in
   let* results := search axis_embedding sample_service (js "xenon") 5 true store' in
   Ok (List.map Doc.id store', List.map Ctx.text results))
  = Ok ([js "1d4e"; js "7e57"; js "c0a8"],
        [js "xylophone solo"; ENCRYPTED_MEMORY; js "x marks the chorus"]).
Proof. vm_compute. reflexivity. Qed.



(* ===================================================================== *)
(** * Part IV: further properties                                         *)
(* ===================================================================== *)

(** ** The cipher, on every text *)

Section Utf8More.
Import Utf8.
Local Open Scope N_scope.

Lemma to_scalars_cons2 (c d : N) (s : jsstring) :
  to_scalars (c :: d :: s) =
    if is_lead c then
      if is_trail d
      then (0x10000 + (c - 0xD800) * 0x400 + (d - 0xDC00)) :: to_scalars s
      else replacement :: to_scalars (d :: s)
    else if is_trail c then replacement :: to_scalars (d :: s)
    else c :: to_scalars (d :: s).
Proof. reflexivity. Qed.

Lemma to_scalars_scalar (s : jsstring) :
  is_string s -> Forall is_scalar (to_scalars s).
Proof.
  assert (Hrep : is_scalar replacement) by (unfold is_scalar, replacement; lia).
  enough (H : is_string s ->
              Forall is_scalar (to_scalars s)
              /\ forall c, c < 0x10000 -> Forall is_scalar (to_scalars (c :: s)))
    by (intros Hs; now apply H).
  induction s as [|d s IH].
  - intros _. split; [constructor|]. intros c Hc. cbn [to_scalars].
    destruct (is_lead c) eqn:Hl; [constructor; [exact Hrep|constructor]|].
    destruct (is_trail c) eqn:Ht; [constructor; [exact Hrep|constructor]|].
    constructor; [now apply is_scalar_unit|constructor].
  - intros [Hd Hs]%Forall_cons. destruct (IH Hs) as [IH0 IH1].
    split; [now apply IH1|]. intros c Hc. rewrite to_scalars_cons2.
    destruct (is_lead c) eqn:Hl.
    + destruct (is_trail d) eqn:Ht.
      * constructor; [|exact IH0]. unfold is_lead, is_trail in Hl, Ht.
        apply andb_true_iff in Hl as [?%N.leb_le ?%N.leb_le].
        apply andb_true_iff in Ht as [?%N.leb_le ?%N.leb_le].
        unfold is_scalar. lia.
      * constructor; [exact Hrep|]. now apply IH1.
    + destruct (is_trail c) eqn:Ht.
      * constructor; [exact Hrep|]. now apply IH1.
      * constructor; [now apply is_scalar_unit|]. now apply IH1.
Qed.

Lemma decode_encode_scalars (s : jsstring) :
  is_string s ->
  TextDecoder_decode (TextEncoder_encode s) = from_scalars (strip_bom (to_scalars s)).
Proof.
  intros Hs. unfold TextDecoder_decode, TextEncoder_encode.
  now rewrite run_encode by now apply to_scalars_scalar.
Qed.

End Utf8More.

Section WellFormedFacts.
Import Utf8.
Local Open Scope N_scope.

Lemma toWellFormed_cons2 (c d : N) (s : jsstring) :
  toWellFormed (c :: d :: s) =
    if is_lead c then
      if is_trail d then c :: d :: toWellFormed s
      else replacement :: toWellFormed (d :: s)
    else if is_trail c then replacement :: toWellFormed (d :: s)
    else c :: toWellFormed (d :: s).
Proof. reflexivity. Qed.

Lemma from_scalars_cons (cp : N) (cps : list N) :
  from_scalars (cp :: cps) = code_units cp ++ from_scalars cps.
Proof. reflexivity. Qed.

Lemma code_units_pair (c d : N) :
  is_lead c = true -> is_trail d = true ->
  code_units (0x10000 + (c - 0xD800) * 0x400 + (d - 0xDC00)) = [c; d].
Proof.
  unfold is_lead, is_trail.
  intros [?%N.leb_le ?%N.leb_le]%andb_true_iff [?%N.leb_le ?%N.leb_le]%andb_true_iff.
  unfold code_units. eval_cmp. f_equal; [lia|f_equal; lia].
Qed.

Lemma code_units_unit (c : N) : c < 0x10000 -> code_units c = [c].
Proof. intros H. unfold code_units. now eval_cmp. Qed.

(** The code units of the scalar values of a string. *)
Lemma from_scalars_to_scalars (s : jsstring) :
  is_string s -> from_scalars (to_scalars s) = toWellFormed s.
Proof.
  enough (H : is_string s ->
              from_scalars (to_scalars s) = toWellFormed s
              /\ forall c, c < 0x10000 ->
                   from_scalars (to_scalars (c :: s)) = toWellFormed (c :: s))
    by (intros Hs; now apply H).
  induction s as [|d s IH].
  - intros _. split; [reflexivity|]. intros c Hc. cbn [to_scalars toWellFormed].
    destruct (is_lead c); [reflexivity|]. destruct (is_trail c); [reflexivity|].
    now rewrite from_scalars_cons, code_units_unit.
  - intros [Hd Hs]%Forall_cons. destruct (IH Hs) as [IH0 IH1].
    split; [now apply IH1|]. intros c Hc.
    rewrite to_scalars_cons2, toWellFormed_cons2.
    destruct (is_lead c) eqn:Hl.
    + destruct (is_trail d) eqn:Ht.
      * now rewrite from_scalars_cons, code_units_pair, IH0.
      * rewrite from_scalars_cons, IH1 by exact Hd. reflexivity.
    + destruct (is_trail c) eqn:Ht.
      * rewrite from_scalars_cons, IH1 by exact Hd. reflexivity.
      * rewrite from_scalars_cons, code_units_unit, IH1 by assumption. reflexivity.
Qed.

Lemma strip_bom_to_scalars_units (s : jsstring) :
  is_string s ->
  from_scalars (strip_bom (to_scalars s)) = strip_bom (toWellFormed s).
Proof.
  intros Hs. pose proof (from_scalars_to_scalars s Hs) as Hall.
  destruct s as [|c s]; [reflexivity|].
  apply Forall_cons in Hs as [Hc Hs].
  destruct s as [|d s].
  - cbn [to_scalars toWellFormed] in *.
    destruct (is_lead c) eqn:Hl; [exact Hall|].
    destruct (is_trail c) eqn:Ht; [exact Hall|].
    cbn [strip_bom]. destruct (c =? BOM); [reflexivity|exact Hall].
  - rewrite to_scalars_cons2, toWellFormed_cons2 in *.
    destruct (is_lead c) eqn:Hl.
    + destruct (is_trail d) eqn:Ht.
      * cbn [strip_bom].
        unfold is_lead, is_trail, BOM in *.
        apply andb_true_iff in Hl as [?%N.leb_le ?%N.leb_le].
        apply andb_true_iff in Ht as [?%N.leb_le ?%N.leb_le].
        eval_cmp. exact Hall.
      * exact Hall.
    + destruct (is_trail c) eqn:Ht; [exact Hall|].
      cbn [strip_bom]. destruct (c =? BOM); [|exact Hall].
      now apply from_scalars_to_scalars.
Qed.

End WellFormedFacts.

Section Base64More.
Import Base64.

Lemma encode_length_exact (bs : list byte) :
  length (encode bs) = (4 * ((length bs + 2) / 3))%nat.
Proof.
  induction bs as [|a|a b|a b c l IH] using list_ind3; try reflexivity.
  cbn [encode length]. rewrite IH.
  replace (S (S (S (length l))) + 2)%nat with (1 * 3 + (length l + 2))%nat by lia.
  rewrite Nat.div_add_l by lia. lia.
Qed.

End Base64More.

(** X1: [encryptData] rejects, with a [RangeError], exactly when the
    twelve bytes of the nonce and the ciphertext are more than the engine
    takes as the arguments of a call.  Otherwise the blob it returns is
    the base64 of the nonce followed by the ciphertext: [atob] gives these
    bytes back, and the blob has four characters for every three bytes,
    rounded up. *)
Theorem encryptData_blob {backend : AeadBackend} {engine : Engine}
    (text : jsstring) (key : CryptoKey) (iv : Nonce) :
  let encrypted := subtle_encrypt key (nonce_bytes iv) (Utf8.TextEncoder_encode text) in
  match encryptData text key iv with
  | Ok blob =>
      (12 + length encrypted <= argument_limit)%nat
      /\ Base64.atob blob = Ok (fromCharCode (nonce_bytes iv ++ encrypted))
      /\ length blob = (4 * ((12 + length encrypted + 2) / 3))%nat
  | Err e => e = RangeError /\ (argument_limit < 12 + length encrypted)%nat
  end.
Proof.
  intros encrypted. destruct (encryptData text key iv) as [blob|e] eqn:E.
  - apply encryptData_Ok in E as [Hlen ->]. split; [exact Hlen|]. split.
    + unfold Base64.atob. now rewrite decode_encode.
    + rewrite encode_length_exact, length_app, (nonce_length iv). reflexivity.
  - exact (encryptData_Err _ _ _ _ E).
Qed.

(** X2: for every string, decrypting a blob [encryptData] made of it
    gives the string with each lone surrogate replaced by U+FFFD and
    without a U+FEFF at its head. *)
Theorem decrypt_encrypt_text {backend : AeadBackend} {engine : Engine}
    (text blob : jsstring) (key : CryptoKey) (iv : Nonce) :
  is_string text ->
  encryptData text key iv = Ok blob ->
  decryptData blob key = Ok (Utf8.strip_bom (toWellFormed text)).
Proof.
  intros Hs E.
  now rewrite (decrypt_encrypt _ _ _ _ E), decode_encode_scalars,
    strip_bom_to_scalars_units.
Qed.

Lemma decrypt_encrypt_text_witness :
  exists blob,
    encryptData (backend := mirror_backend) (engine := sample_engine)
      [0xFEFF; 0xD83C; 0xDFB5; 0xDC00; 0x61]%N Byte.x2a sample_nonce = Ok blob
    /\ decryptData blob Byte.x2a = Ok [0xD83C; 0xDFB5; 0xFFFD; 0x61]%N.
Proof.
  eexists. split; [vm_compute; reflexivity|].
  apply (decrypt_encrypt_text (backend := mirror_backend) (engine := sample_engine)
           [0xFEFF; 0xD83C; 0xDFB5; 0xDC00; 0x61]%N _ Byte.x2a sample_nonce).
  - unfold is_string. repeat constructor.
  - vm_compute. reflexivity.
Defined.

(** ** Redaction and the characters around a match *)

Section BarrierFacts.
Import Regex.

Variables (r : regex) (t : jsstring) (b : N).
Hypothesis Hwf : well_formed r = true.
Hypothesis Hnil : ~ Lang r [].
Hypothesis Hb : alphabet r b = false.

Lemma match_here_at_barrier (y : jsstring) : match_here r (b :: y) = None.
Proof.
  destruct (match_here r (b :: y)) as [rest|] eqn:E; [exfalso|reflexivity].
  destruct (match_here_sound r _ _ Hwf E) as (w & Eq & Hw).
  destruct w as [|ch w]; [done|]. injection Eq as <- _.
  apply Lang_alphabet in Hw. apply Forall_cons in Hw as [Hch _]. congruence.
Qed.

(** The scan does not see across a character outside the alphabet. *)
Lemma replace_all_barrier (x y : jsstring) :
  replace_all r t (x ++ b :: y) = replace_all r t x ++ b :: replace_all r t y.
Proof.
  remember (length x) as n eqn:En. revert x En.
  induction n as [n IH] using lt_wf_ind. intros x ->.
  destruct x as [|ch x].
  - cbn [app]. rewrite (replace_all_nil r t Hwf Hnil).
    now rewrite replace_all_copy by apply match_here_at_barrier.
  - destruct (match_here r (ch :: x)) as [rest|] eqn:E.
    + pose proof (match_here_shorter r Hwf Hnil _ _ E) as Hlen.
      rewrite (replace_all_match r t Hwf Hnil (ch :: x) rest E).
      rewrite (replace_all_match r t Hwf Hnil _ (rest ++ b :: y))
        by now apply match_here_barrier.
      rewrite <- app_assoc. f_equal. now apply (IH (length rest)).
    + rewrite (replace_all_copy r t ch x E). cbn [app].
      rewrite replace_all_copy.
      * f_equal. apply (IH (length x)); [cbn [length]; lia|reflexivity].
      * change (ch :: x ++ b :: y) with ((ch :: x) ++ b :: y).
        apply (match_here_barrier_None r (ch :: x) [] y b Hwf Hb).
        now rewrite app_nil_r.
Qed.

End BarrierFacts.

(** X3: [redactPII] returns a text that holds no [@] and no digit as it
    is. *)
Theorem redactPII_plain_text (text : jsstring) :
  forallb (fun c => negb (N.eqb (N_of_ascii "@") c) && negb (Regex.digit c)) text = true ->
  redactPII text = text.
Proof.
  intros H. unfold redactPII.
  rewrite redact_emails_id.
  - apply redact_phones_id. apply (needs_nomatch _ _ _ phone_needs_digit).
    rewrite forallb_forall in *. intros c Hc. apply H in Hc.
    now apply andb_true_iff in Hc as [_ ?].
  - apply (needs_nomatch _ _ _ email_needs_at).
    rewrite forallb_forall in *. intros c Hc. apply H in Hc.
    now apply andb_true_iff in Hc as [? _].
Qed.

Lemma redactPII_plain_text_witness :
  redactPII (js "Verse two: rain on the window (softly), la la la")
  = js "Verse two: rain on the window (softly), la la la".
Proof. apply redactPII_plain_text. reflexivity. Defined.

Section DelimiterFacts.

Import Regex.

Lemma delimiter_alphabet (b : N) :
  delimiter b = true ->
  alphabet email_pattern b = false /\ alphabet phone_pattern b = false.
Proof.
  unfold delimiter. intros H%negb_true_iff.
  apply orb_false_iff in H as [H Hone].
  apply orb_false_iff in H as [H Hspace].
  apply orb_false_iff in H as [Halpha Hdigit].
  unfold one_of, js in Hone. cbn [list_ascii_of_string List.map existsb] in Hone.
  repeat apply orb_false_iff in Hone as [?%N.eqb_neq Hone].
  assert (Hchr : forall a, N_of_ascii a <> b -> (N_of_ascii a =? b)%N = false)
    by (intros a; apply N.eqb_neq).
  split.
  - cbn [alphabet email_pattern concat fold_right plus at_least chr].
    unfold email_local, email_domain, one_of, js.
    cbn [list_ascii_of_string List.map existsb].
    rewrite Halpha, Hdigit.
    rewrite !Hchr by congruence.
    repeat match goal with
           | |- context [(b =? ?c)%N] => rewrite (proj2 (N.eqb_neq b c)) by congruence
           end.
    reflexivity.
  - cbn [alphabet phone_pattern concat fold_right opt between times chr].
    unfold separator, one_of, js.
    cbn [list_ascii_of_string List.map existsb].
    rewrite Hdigit, Hspace.
    rewrite !Hchr by congruence.
    repeat match goal with
           | |- context [(b =? ?c)%N] => rewrite (proj2 (N.eqb_neq b c)) by congruence
           end.
    reflexivity.
Qed.

End DelimiterFacts.

(** X4: a character that neither pattern can match cuts the text in two
    parts that are redacted each on its own. *)
Theorem redactPII_segments (x y : jsstring) (b : N) :
  delimiter b = true ->
  redactPII (x ++ b :: y) = redactPII x ++ b :: redactPII y.
Proof.
  intros [He Hp]%delimiter_alphabet.
  unfold redactPII, redact_emails, redact_phones.
  rewrite (replace_all_barrier email_pattern _ b email_pattern_well_formed
             (needs_not_nil _ _ email_needs_at) He).
  now rewrite (replace_all_barrier phone_pattern _ b phone_pattern_well_formed
                 (needs_not_nil _ _ phone_needs_digit) Hp).
Qed.

Lemma redactPII_segments_witness :
  redactPII (js "ann@example.com" ++ N_of_ascii "," :: js "555-123-4567")
  = redactPII (js "ann@example.com") ++ N_of_ascii "," :: redactPII (js "555-123-4567").
Proof. apply redactPII_segments. reflexivity. Defined.

(** ** More on the key store *)

(** X5: a call of [getPersistentKey] that no other call overlaps keeps
    every key the store holds.  When it resolves, the key it returns is
    the one stored as [master-session-key].  It rejects when the database
    does not open or the read fails, and it never settles when no key is
    stored and [generateKey] rejects or the write does not complete; the
    store is then as it was. *)
Theorem getPersistentKey_store {backend : AeadBackend}
    (env : KeyEnv) (db : KeyDb) :
  let '(outcome, db') := getPersistentKey env db in
  keys db ⊆ keys db'
  /\ opens db' = opens db
  /\ match outcome with
     | Settled (Ok key) =>
         opens db = true /\ get_succeeds env = true /\ keys db' !! KEY_ID = Some key
     | Settled (Err e) =>
         db' = db
         /\ (opens db = false /\ e = DbOpenError
             \/ opens db = true /\ get_succeeds env = false /\ e = RequestError)
     | Abandoned =>
         db' = db /\ opens db = true /\ get_succeeds env = true
         /\ keys db !! KEY_ID = None
         /\ (generateKey env = None \/ put_completes env = false)
     | Called | Requested | Generating | Writing _ => False
     end.
Proof.
  rewrite getPersistentKey_cases. destruct (opens db) eqn:Ho.
  - destruct (get_succeeds env) eqn:Hg.
    + destruct (keys db !! KEY_ID) as [stored|] eqn:Ek; [by repeat split|].
      destruct (generateKey env) as [newKey|] eqn:Hn.
      * destruct (put_completes env) eqn:Hp.
        -- cbn [keys opens]. split; [now apply insert_subseteq|].
           split; [done|]. split; [done|]. split; [done|]. apply lookup_insert_eq.
        -- repeat split; try done. now right.
      * repeat split; try done. now left.
    + repeat split; try done. right. by repeat split.
  - repeat split; try done. left. by split.
Qed.

(** ** More on the object store *)

Section StoreMore.

Lemma key_compare_refl (a : jsstring) : key_compare a a = Eq.
Proof.
  induction a as [|x a IH]; [reflexivity|]. cbn [key_compare].
  now rewrite N.compare_refl.
Qed.

(** [add] refuses a key the store holds. *)
Lemma idb_add_taken (doc : VectorDocument) (store : ObjectStore) :
  StronglySorted key_lt store -> In (Doc.id doc) (List.map Doc.id store) ->
  idb_add doc store = Err ConstraintError.
Proof.
  induction 1 as [|d store Hs IH Hd]; [done|].
  cbn [List.map In idb_add]. intros Hin.
  destruct (key_compare (Doc.id doc) (Doc.id d)) eqn:E; [reflexivity| |].
  - exfalso. destruct Hin as [Heq|Hin].
    + rewrite Heq, key_compare_refl in E. discriminate.
    + apply in_map_iff in Hin as (d' & Heq & Hin).
      rewrite List.Forall_forall in Hd. specialize (Hd d' Hin). unfold key_lt in Hd.
      rewrite Heq in Hd. rewrite key_compare_antisym, Hd in E. discriminate.
  - destruct Hin as [Heq|Hin].
    + rewrite Heq, key_compare_refl in E. discriminate.
    + now rewrite IH.
Qed.

End StoreMore.

Section ServiceMore.

Context {backend : AeadBackend} {engine : Engine}.
Variable getEmbedding : jsstring -> result (list float).

Lemma new_document_db (this : VectorDbService) (rnd : Entropy)
    (text : jsstring) (type : DocType) (doc : VectorDocument) :
  new_document getEmbedding this rnd text type = Ok doc -> dbPromise this = Ok tt.
Proof. unfold new_document. now destruct (dbPromise this) as [[]|]. Qed.

(** Whatever its outcome, [addDocument] adds at most one record and
    keeps the others. *)
Lemma addDocument_grows (this : VectorDbService) (rnd : Entropy)
    (text : jsstring) (type : DocType) (store : ObjectStore) :
  exists added,
    Permutation (added ++ store) (snd (addDocument getEmbedding this rnd text type store))
    /\ length added <= 1.
Proof.
  unfold addDocument.
  destruct (new_document getEmbedding this rnd text type) as [doc|];
    [|exists []; split; [reflexivity|cbn; lia]].
  destruct (idb_add doc store) as [store'|] eqn:E;
    [|exists []; split; [reflexivity|cbn; lia]].
  exists [doc]. split; [exact (idb_add_Permutation _ _ _ E)|reflexivity].
Qed.

Lemma slice_to_all {A : Type} (stop : Z) (l : list A) :
  (Z.of_nat (length l) <= stop)%Z -> slice_to stop l = l.
Proof.
  intros H. unfold slice_to. destruct (Z.ltb_spec stop 0); [lia|].
  apply take_ge. lia.
Qed.

Lemma slice_to_count {A : Type} (stop : Z) (l : list A) :
  length (slice_to stop l)
  = if (stop <? 0)%Z then (length l - Z.to_nat (- stop))%nat
    else Nat.min (Z.to_nat stop) (length l).
Proof.
  unfold slice_to. destruct (Z.ltb_spec stop 0); rewrite length_take; lia.
Qed.

End ServiceMore.

(** X6: when [addDocument] resolves, the store holds the records it held
    and one more: the drawn id, the encrypted text, the embedding of the
    text, the time and the type that was given. *)
Theorem addDocument_record {backend : AeadBackend} {engine : Engine}
    (getEmbedding : jsstring -> result (list float))
    (this : VectorDbService) (rnd : Entropy) (text : jsstring) (type : DocType)
    (store store' : ObjectStore) :
  addDocument getEmbedding this rnd text type store = (Ok tt, store') ->
  exists key vector encryptedContent,
    keyPromise this = Ok key
    /\ getEmbedding text = Ok vector
    /\ encryptData text key (iv rnd) = Ok encryptedContent
    /\ Permutation
         (Doc.mk (uuid rnd) encryptedContent vector (now rnd) type :: store) store'.
Proof.
  intros (doc & Hdoc & Hadd)%addDocument_Ok.
  destruct (new_document_Ok _ _ _ _ _ _ Hdoc) as (key & vector & blob & Hk & Hv & Hb & ->).
  exists key, vector, blob. repeat split; try assumption.
  exact (idb_add_Permutation _ _ _ Hadd).
Qed.

Lemma addDocument_record_witness :
  exists key vector encryptedContent,
    keyPromise sample_service = Ok key
    /\ axis_embedding (js "x marks the spot") = Ok vector
    /\ encryptData (js "x marks the spot") key (iv (sample_entropy "1d4e" 7)) = Ok encryptedContent
    /\ Permutation
         (Doc.mk (uuid (sample_entropy "1d4e" 7)) encryptedContent vector
            (now (sample_entropy "1d4e" 7)) memory :: [])
         (snd (addDocument axis_embedding sample_service (sample_entropy "1d4e" 7)
                 (js "x marks the spot") memory [])).
Proof.
  apply (addDocument_record (backend := mirror_backend) axis_embedding sample_service
           (sample_entropy "1d4e" 7) (js "x marks the spot") memory []).
  reflexivity.
Defined.

(** X7: [addDocument] never overwrites: when the drawn id is the key of a
    stored record, the call rejects and the store is as it was.  If
    nothing failed before, it is the refused [add] that makes it reject,
    and what it rejects with is [null], not the [ConstraintError] of the
    request: [tx.error] is read before the transaction has aborted. *)
Theorem addDocument_taken_id {backend : AeadBackend} {engine : Engine}
    (getEmbedding : jsstring -> result (list float))
    (this : VectorDbService) (rnd : Entropy) (text : jsstring) (type : DocType)
    (store : ObjectStore) :
  StronglySorted key_lt store -> In (uuid rnd) (List.map Doc.id store) ->
  snd (addDocument getEmbedding this rnd text type store) = store
  /\ match new_document getEmbedding this rnd text type with
     | Ok doc =>
         idb_add doc store = Err ConstraintError
         /\ fst (addDocument getEmbedding this rnd text type store) = Err Null
     | Err e => fst (addDocument getEmbedding this rnd text type store) = Err e
     end.
Proof.
  intros Hs Hin. unfold addDocument.
  destruct (new_document getEmbedding this rnd text type) as [doc|e] eqn:Hdoc;
    [|by split].
  destruct (new_document_Ok _ _ _ _ _ _ Hdoc) as (key & vector & blob & _ & _ & _ & ->).
  now rewrite idb_add_taken.
Qed.

Lemma addDocument_taken_id_witness :
  let store := snd (addDocument axis_embedding sample_service (sample_entropy "1d4e" 7)
                      (js "x marks the spot") memory []) in
  snd (addDocument axis_embedding sample_service (sample_entropy "1d4e" 8)
         (js "y not") chat store) = store
  /\ fst (addDocument axis_embedding sample_service (sample_entropy "1d4e" 8)
            (js "y not") chat store) = Err Null.
Proof.
  intros store.
  destruct (addDocument_taken_id (backend := mirror_backend) (engine := sample_engine)
              axis_embedding sample_service (sample_entropy "1d4e" 8) (js "y not") chat
              store) as [Hstore Hout].
  - repeat constructor.
  - left. reflexivity.
  - split; [exact Hstore|]. exact (proj2 Hout).
Defined.

(** X8: a text that was added is found: a [search] whose limit is not
    below the number of records returns one entry per record, among them
    the text, with the time of the call and its similarity to the
    query. *)
Theorem search_finds_added_document {backend : AeadBackend} {engine : Engine}
    (getEmbedding : jsstring -> result (list float))
    (this : VectorDbService) (rnd : Entropy) (text : jsstring) (type : DocType)
    (store store' : ObjectStore) (query : jsstring) (limit : Z)
    (queryVector : list float) :
  Utf8.isWellFormed text = true -> Utf8.starts_with_bom text = false ->
  addDocument getEmbedding this rnd text type store = (Ok tt, store') ->
  getEmbedding query = Ok queryVector ->
  (Z.of_nat (length store') <= limit)%Z ->
  exists results vector,
    search getEmbedding this query limit true store' = Ok results
    /\ length results = S (length store)
    /\ getEmbedding text = Ok vector
    /\ In (Ctx.mk text (now rnd) (cosineSimilarity queryVector vector)) results.
Proof.
  intros Hwf Hbom Hadd Hq Hlimit.
  destruct (addDocument_Ok _ _ _ _ _ _ _ Hadd) as (doc & Hdoc & Hidb).
  pose proof (new_document_db _ _ _ _ _ _ Hdoc) as Hdb.
  destruct (new_document_Ok _ _ _ _ _ _ Hdoc) as (key & vector & blob & Hk & Hv & Hb & ->).
  apply idb_add_Permutation in Hidb.
  pose proof (Permutation_length Hidb) as Hlen. cbn [length] in Hlen.
  exists (List.map (decrypt_entry key) (topDocs queryVector limit (idb_getAll store'))), vector.
  split; [now apply search_Ok|].
  unfold topDocs, idb_getAll.
  rewrite slice_to_all by (rewrite scoredDocs_length; exact Hlimit).
  split; [now rewrite length_map, scoredDocs_length|]. split; [exact Hv|].
  apply in_map_iff.
  exists (Doc.mk (uuid rnd) blob vector (now rnd) type, cosineSimilarity queryVector vector).
  split.
  - unfold decrypt_entry. cbn [fst snd Doc.content Doc.timestamp].
    rewrite (decrypt_encrypt text blob key (iv rnd) Hb).
    now rewrite decode_encode_text.
  - unfold scoredDocs. rewrite <- array_sort_Permutation.
    apply in_map_iff. exists (Doc.mk (uuid rnd) blob vector (now rnd) type).
    split; [reflexivity|]. rewrite <- Hidb. now left.
Qed.

Lemma search_finds_added_document_witness :
  let store' := snd (addDocument axis_embedding sample_service (sample_entropy "1d4e" 7)
                       (js "x marks the spot") memory []) in
  exists results vector,
    search axis_embedding sample_service (js "y not") 3 true store' = Ok results
    /\ length results = 1
    /\ axis_embedding (js "x marks the spot") = Ok vector
    /\ In (Ctx.mk (js "x marks the spot") 7 (cosineSimilarity [0; 1]%float vector)) results.
Proof.
  apply (search_finds_added_document (backend := mirror_backend) axis_embedding
           sample_service (sample_entropy "1d4e" 7) (js "x marks the spot") memory []
           _ (js "y not") 3 [0; 1]%float); try reflexivity.
  now vm_compute.
Defined.

(** X9: the number of entries [search] resolves with: the limit or the
    number of records, whichever is less; a negative limit counts from
    the back, as [slice] does. *)
Theorem search_result_count {backend : AeadBackend}
    (getEmbedding : jsstring -> result (list float))
    (this : VectorDbService) (query : jsstring) (limit : Z) (reads : bool)
    (store : ObjectStore) (results : list MemoryContext) :
  search getEmbedding this query limit reads store = Ok results ->
  length results
  = if (limit <? 0)%Z then (length store - Z.to_nat (- limit))%nat
    else Nat.min (Z.to_nat limit) (length store).
Proof.
  intros (key & queryVector & _ & _ & ->)%search_inv.
  unfold topDocs, idb_getAll.
  now rewrite length_map, slice_to_count, scoredDocs_length.
Qed.

Lemma search_result_count_witness :
  let store := snd (addDocument axis_embedding sample_service (sample_entropy "1d4e" 7)
                      (js "x marks the spot") memory []) in
  length [Ctx.mk (js "x marks the spot") 7 0%float] = Nat.min (Z.to_nat 3) (length store).
Proof.
  apply (search_result_count (backend := mirror_backend) axis_embedding sample_service
           (js "y not") 3 true). reflexivity.
Defined.

(** X11: after [clear] the store is empty, and a [search] still waits for
    the key, for the embedding of the query and for the records before it
    resolves with no entry. *)
Theorem search_after_clear_is_empty {backend : AeadBackend}
    (getEmbedding : jsstring -> result (list float))
    (this : VectorDbService) (store store' : ObjectStore) (query : jsstring) (limit : Z)
    (reads : bool) :
  clear this store = (Ok tt, store') ->
  store' = []
  /\ search getEmbedding this query limit reads store'
     = (let* _ := keyPromise this in
        let* _ := getEmbedding query in
        let* _ := idb_request reads (idb_getAll store') in
        Ok []).
Proof.
  unfold clear, search. destruct (dbPromise this) as [[]|]; [|done].
  intros [= <-]. split; [reflexivity|]. cbn [bind].
  destruct (keyPromise this); cbn [bind]; [|reflexivity].
  destruct (getEmbedding query); cbn [bind]; [|reflexivity].
  now destruct reads.
Qed.

Lemma search_after_clear_is_empty_witness :
  let store := snd (addDocument axis_embedding sample_service (sample_entropy "1d4e" 7)
                      (js "x marks the spot") memory []) in
  @nil VectorDocument = []
  /\ search axis_embedding sample_service (js "y not") 3 true []
     = (let* _ := keyPromise sample_service in
        let* _ := axis_embedding (js "y not") in
        let* _ := idb_request true (idb_getAll []) in
        Ok []).
Proof.
  intros store.
  apply (search_after_clear_is_empty (backend := mirror_backend) axis_embedding
           sample_service store). reflexivity.
Defined.

(** X12: [handleSend] removes and changes no record; it adds two at
    most. *)
Theorem handleSend_keeps_records {backend : AeadBackend} {engine : Engine}
    (getEmbedding : jsstring -> result (list float))
    (streamChat : list MemoryContext -> jsstring -> result jsstring)
    (this : VectorDbService) (rnd1 rnd2 : Entropy)
    (input : jsstring) (isLoading : bool) (reads : bool) (store : ObjectStore) :
  exists added,
    Permutation (added ++ store)
      (handleSend getEmbedding streamChat this rnd1 rnd2 input isLoading reads store)
    /\ length added <= 2.
Proof.
  unfold handleSend.
  destruct (is_blank input || isLoading); [exists []; split; [reflexivity|cbn; lia]|].
  destruct (streamChat _ _) as [fullResponse|]; [|exists []; split; [reflexivity|cbn; lia]].
  destruct (addDocument_grows getEmbedding this rnd1 (redactPII input) chat store)
    as (a1 & H1 & L1).
  destruct (addDocument getEmbedding this rnd1 (redactPII input) chat store)
    as [r1 store1]. cbn [snd] in H1.
  destruct (addDocument_grows getEmbedding this rnd2 fullResponse chat store1)
    as (a2 & H2 & L2).
  destruct (addDocument getEmbedding this rnd2 fullResponse chat store1)
    as [r2 store2]. cbn [snd] in H2.
  exists (a2 ++ a1). split; [|rewrite length_app; lia].
  now rewrite <- H2, <- H1, app_assoc.
Qed.

(** ** Similarity *)

Section FloatFacts.

Local Open Scope float_scope.

Lemma SFmul_comm (prec emax : Z) (x y : spec_float) :
  SFmul prec emax x y = SFmul prec emax y x.
Proof.
  destruct x as [sx|sx| |sx mx ex], y as [sy|sy| |sy my ey]; cbn [SFmul];
    rewrite ?(xorb_comm sx sy); try reflexivity.
  now rewrite Pos.mul_comm, Z.add_comm.
Qed.

Lemma float_mul_comm (x y : float) : x * y = y * x.
Proof.
  apply Prim2SF_inj. rewrite !mul_spec. apply SFmul_comm.
Qed.

Lemma Prim2SF_nan : Prim2SF nan = S754_nan.
Proof. reflexivity. Qed.

Lemma float_mul_nan (x : float) : x * nan = nan.
Proof.
  apply Prim2SF_inj. rewrite mul_spec, Prim2SF_nan.
  now destruct (Prim2SF x).
Qed.

Lemma float_add_nan_r (x : float) : x + nan = nan.
Proof.
  apply Prim2SF_inj. rewrite add_spec, Prim2SF_nan.
  now destruct (Prim2SF x).
Qed.

Lemma float_add_nan_l (x : float) : nan + x = nan.
Proof.
  apply Prim2SF_inj. rewrite add_spec, Prim2SF_nan. reflexivity.
Qed.

Lemma float_div_nan_l (x : float) : nan / x = nan.
Proof.
  apply Prim2SF_inj. rewrite div_spec, Prim2SF_nan. reflexivity.
Qed.

Lemma float_ltb_nan_r (x : float) : (x <? nan) = false.
Proof.
  rewrite ltb_spec, Prim2SF_nan. unfold SFltb. now destruct (Prim2SF x).
Qed.

Lemma dotProduct_from_comm (sum : float) (a b : list float) :
  length a = length b -> dotProduct_from sum a b = dotProduct_from sum b a.
Proof.
  revert sum b. induction a as [|x a IH]; intros sum [|y b]; cbn [length]; try done.
  intros [= E]. cbn [dotProduct_from]. rewrite (float_mul_comm x y). now apply IH.
Qed.

Lemma dotProduct_from_nan (a b : list float) : dotProduct_from nan a b = nan.
Proof.
  revert b. induction a as [|x a IH]; intros b; [reflexivity|].
  destruct b as [|y b]; cbn [dotProduct_from]; rewrite float_add_nan_l; apply IH.
Qed.

Lemma dotProduct_from_short (sum : float) (a b : list float) :
  (length b < length a)%nat -> dotProduct_from sum a b = nan.
Proof.
  revert sum b. induction a as [|x a IH]; intros sum b; cbn [length]; [lia|].
  destruct b as [|y b]; cbn [length dotProduct_from].
  - intros _. rewrite float_mul_nan, float_add_nan_r. apply dotProduct_from_nan.
  - intros H. apply IH. lia.
Qed.

Lemma fold_zero (n : nat) :
  fold_left (fun sum x => sum + x * x) (repeat 0 n) 0 = 0.
Proof. induction n as [|n IH]; [reflexivity|]. cbn [repeat fold_left]. exact IH. Qed.

Lemma magnitude_zero (n : nat) : magnitude (repeat 0 n) = 0.
Proof. unfold magnitude. now rewrite fold_zero. Qed.

End FloatFacts.

(** X13: for two vectors of the same length, [cosineSimilarity] does not
    depend on their order. *)
Theorem cosineSimilarity_symmetric (a b : list float) :
  length a = length b -> cosineSimilarity a b = cosineSimilarity b a.
Proof.
  intros E. unfold cosineSimilarity, dotProduct.
  rewrite (orb_comm (magnitude a =? 0)%float), (float_mul_comm (magnitude a)).
  now rewrite (dotProduct_from_comm _ a b E).
Qed.

Lemma cosineSimilarity_symmetric_witness :
  cosineSimilarity [1; 2; 3]%float [-4; 0.5; 6]%float
  = cosineSimilarity [-4; 0.5; 6]%float [1; 2; 3]%float.
Proof. apply cosineSimilarity_symmetric. reflexivity. Defined.

(** X14: against a vector of zeros, of any length and the empty vector
    included, the similarity is [0] and not NaN. *)
Theorem cosineSimilarity_zero_vector (a : list float) (n : nat) :
  cosineSimilarity a (repeat 0%float n) = 0%float
  /\ cosineSimilarity (repeat 0%float n) a = 0%float.
Proof.
  unfold cosineSimilarity. rewrite magnitude_zero.
  change (0 =? 0)%float with true. now rewrite orb_true_r.
Qed.

(** X15: when the second vector is shorter than the first, the similarity
    is NaN, or [0] if one of them has magnitude zero; it does not pass the
    threshold of [handleSend]. *)
Theorem cosineSimilarity_short_vector (a b : list float) :
  length b < length a ->
  (cosineSimilarity a b = 0%float \/ cosineSimilarity a b = nan)
  /\ (RELEVANCE <? cosineSimilarity a b)%float = false.
Proof.
  intros H. unfold cosineSimilarity, dotProduct.
  rewrite (dotProduct_from_short _ a b H), float_div_nan_l.
  destruct ((magnitude a =? 0)%float || (magnitude b =? 0)%float).
  - split; [now left|reflexivity].
  - split; [now right|reflexivity].
Qed.

Lemma cosineSimilarity_short_vector_witness :
  (cosineSimilarity [1; 2; 3]%float [1; 2]%float = 0%float
   \/ cosineSimilarity [1; 2; 3]%float [1; 2]%float = nan)
  /\ (RELEVANCE <? cosineSimilarity [1; 2; 3]%float [1; 2]%float)%float = false.
Proof. apply cosineSimilarity_short_vector. cbn. lia. Defined.

(** ** The order of scores *)

Section FloatOrder.

Local Open Scope Z_scope.

(** *** Digits *)

Lemma digits2_pos_size (p : positive) : digits2_pos p = Pos.size p.
Proof. induction p as [p IH|p IH|]; cbn; now rewrite ?IH. Qed.

Lemma digits_bounds (p : positive) :
  2 ^ (Z.pos (digits2_pos p) - 1) <= Z.pos p < 2 ^ Z.pos (digits2_pos p).
Proof.
  rewrite digits2_pos_size.
  pose proof (Pos.size_gt p) as Hgt. pose proof (Pos.size_le p) as Hle.
  assert (E : Z.pos (2 ^ Pos.size p) = 2 ^ Z.pos (Pos.size p)) by apply Pos2Z.inj_pow.
  assert (E2 : 2 ^ Z.pos (Pos.size p) = 2 * 2 ^ (Z.pos (Pos.size p) - 1)).
  { rewrite <- Z.pow_succ_r by lia. f_equal. lia. }
  lia.
Qed.

Lemma iter_xO (m d : positive) : Z.pos (Pos.iter xO m d) = Z.pos m * 2 ^ Z.pos d.
Proof.
  induction d as [|d IH] using Pos.peano_ind.
  - cbn [Pos.iter]. change (2 ^ 1) with 2. lia.
  - rewrite Pos.iter_succ, Pos2Z.inj_succ, Z.pow_succ_r by lia.
    rewrite Pos2Z.inj_xO, IH. lia.
Qed.

Lemma shl_align_value (m : positive) (e e' : Z) :
  e' <= e -> Z.pos (fst (shl_align m e e')) = Z.pos m * 2 ^ (e - e').
Proof.
  intros H. unfold shl_align. destruct (e' - e) as [|p|p] eqn:E; try lia.
  - replace (e - e') with 0 by lia. cbn [fst]. lia.
  - cbn [fst]. rewrite iter_xO. f_equal. f_equal. lia.
Qed.

(** *** Shifting to the right *)

Lemma shr_1_m (mrs : shr_record) :
  0 <= shr_m mrs -> shr_m (shr_1 mrs) = shr_m mrs / 2.
Proof.
  destruct mrs as [m r s]. cbn [shr_m]. intros Hm.
  destruct m as [|[p|p|]|p]; cbn [shr_1 shr_m]; try lia.
Qed.

Lemma pow2_xO (p : positive) : 2 ^ Z.pos p~0 = 2 ^ Z.pos p * 2 ^ Z.pos p.
Proof.
  assert (E : Z.pos p~0 = Z.pos p + Z.pos p) by lia.
  rewrite E. apply Z.pow_add_r; lia.
Qed.

Lemma pow2_xI (p : positive) : 2 ^ Z.pos p~1 = 2 * (2 ^ Z.pos p * 2 ^ Z.pos p).
Proof.
  assert (E : Z.pos p~1 = 1 + (Z.pos p + Z.pos p)) by lia.
  rewrite E, Z.pow_add_r, Z.pow_add_r by lia. reflexivity.
Qed.

Lemma iter_shr_1_m (p : positive) (mrs : shr_record) :
  0 <= shr_m mrs -> shr_m (SpecFloat.iter_pos shr_1 p mrs) = shr_m mrs / 2 ^ Z.pos p.
Proof.
  revert mrs. induction p as [p IH|p IH|]; intros mrs Hm; cbn [SpecFloat.iter_pos].
  - assert (H1 : 0 <= shr_m (shr_1 mrs)) by (rewrite shr_1_m; lia).
    assert (H2 : 0 <= shr_m (SpecFloat.iter_pos shr_1 p (shr_1 mrs))).
    { rewrite IH by exact H1. apply Z.div_pos; lia. }
    rewrite IH, IH, shr_1_m by assumption.
    rewrite !Z.div_div by lia. now rewrite pow2_xI, Z.mul_assoc.
  - assert (H2 : 0 <= shr_m (SpecFloat.iter_pos shr_1 p mrs)).
    { rewrite IH by exact Hm. apply Z.div_pos; lia. }
    rewrite IH, IH by assumption.
    rewrite !Z.div_div by lia. now rewrite pow2_xO.
  - rewrite shr_1_m by exact Hm. reflexivity.
Qed.

(** *** Rounding a positive integer *)

Lemma shr_record_of_loc_m (m : Z) (l : location) : shr_m (shr_record_of_loc m l) = m.
Proof. now destruct l as [|[]]. Qed.

Lemma shr_fexp_pos (M : positive) (E : Z) (l : location) :
  -1074 <= E ->
  0 < shr_m (fst (shr_fexp prec emax (Z.pos M) E l))
  /\ -1074 <= snd (shr_fexp prec emax (Z.pos M) E l).
Proof.
  intros HE. unfold shr_fexp, shr, fexp, SpecFloat.emin, prec, emax. cbn [Zdigits2].
  pose proof (digits_bounds M) as [Hlo Hhi].
  destruct (Z.max (Z.pos (digits2_pos M) + E - 53) (3 - 1024 - 53) - E) as [|p|p] eqn:En;
    cbn [fst snd]; rewrite ?shr_record_of_loc_m; try lia.
  rewrite iter_shr_1_m by (rewrite shr_record_of_loc_m; lia).
  rewrite shr_record_of_loc_m. split; [|lia].
  apply Z.div_str_pos. split; [apply Z.pow_pos_nonneg; lia|].
  etransitivity; [|exact Hlo]. apply Z.pow_le_mono_r; lia.
Qed.

Lemma round_nearest_even_pos (m : Z) (l : location) :
  0 < m -> 0 < round_nearest_even m l.
Proof.
  intros H. unfold round_nearest_even. destruct l as [|[]]; try lia.
  destruct (Z.even m); lia.
Qed.

Lemma binary_round_aux_pos (s : bool) (M : positive) (E : Z) (l : location) :
  -1074 <= E -> signed s (binary_round_aux prec emax s (Z.pos M) E l).
Proof.
  intros HE. unfold binary_round_aux.
  destruct (shr_fexp_pos M E l HE) as [H1 H2].
  destruct (shr_fexp prec emax (Z.pos M) E l) as [mrs' e']. cbn [fst snd] in *.
  pose proof (round_nearest_even_pos (shr_m mrs') (loc_of_shr_record mrs') H1) as H3.
  destruct (round_nearest_even (shr_m mrs') (loc_of_shr_record mrs')) as [|M'|M'];
    try lia.
  destruct (shr_fexp_pos M' e' loc_Exact H2) as [H4 H5].
  destruct (shr_fexp prec emax (Z.pos M') e' loc_Exact) as [mrs'' e''].
  cbn [fst snd] in *.
  destruct (shr_m mrs'') as [|m|m]; try lia.
  now destruct (e'' <=? emax - prec).
Qed.

Lemma binary_round_pos (s : bool) (M : positive) (E : Z) :
  -1074 <= E -> signed s (binary_round prec emax s M E).
Proof.
  intros HE. unfold binary_round.
  destruct (shl_align M E (fexp prec emax (Z.pos (digits2_pos M) + E))) as [mz ez] eqn:Es.
  apply binary_round_aux_pos. unfold shl_align in Es.
  destruct (fexp prec emax (Z.pos (digits2_pos M) + E) - E) eqn:En;
    injection Es as <- <-; try lia.
  unfold fexp, SpecFloat.emin, prec, emax. lia.
Qed.

Lemma SFltb_zero_signed (s : bool) (r : spec_float) :
  signed s r -> SFltb (S754_zero false) r = negb s.
Proof. destruct r as [| | |s' m e]; cbn; try done; intros ->; now destruct s. Qed.

(** The sign of a sum that is rounded. *)
Lemma binary_normalize_sign (D E : Z) :
  -1074 <= E ->
  SFltb (S754_zero false) (binary_normalize prec emax D E false) = (0 <? D).
Proof.
  intros HE. destruct D as [|M|M]; cbn [binary_normalize].
  - reflexivity.
  - now rewrite (SFltb_zero_signed false) by now apply binary_round_pos.
  - now rewrite (SFltb_zero_signed true) by now apply binary_round_pos.
Qed.

(** *** Comparison *)

Lemma bounded_bounds (m : positive) (e : Z) :
  bounded prec emax m e = true ->
  Z.pos (digits2_pos m) <= 53 /\ -1074 <= e
  /\ (Z.pos (digits2_pos m) = 53 \/ e = -1074).
Proof.
  unfold bounded, canonical_mantissa, fexp, SpecFloat.emin, prec, emax.
  intros [H%Z.eqb_eq _]%andb_true_iff. lia.
Qed.

(** Two numbers in canonical form compare by exponent and then by
    mantissa. *)
Lemma aligned_compare (mx my : positive) (ex ey : Z) :
  bounded prec emax mx ex = true -> bounded prec emax my ey = true ->
  (Z.pos (fst (shl_align mx ex (Z.min ex ey)))
   ?= Z.pos (fst (shl_align my ey (Z.min ex ey))))
  = match ex ?= ey with
    | Lt => Lt
    | Gt => Gt
    | Eq => Pos.compare_cont Eq mx my
    end.
Proof.
  intros (Hdx & Hex & Hx)%bounded_bounds (Hdy & Hey & Hy)%bounded_bounds.
  rewrite !shl_align_value by lia.
  pose proof (digits_bounds mx) as [Hx1 Hx2]. pose proof (digits_bounds my) as [Hy1 Hy2].
  assert (Hp53 : forall d, d <= 53 -> 2 ^ d <= 2 ^ 53)
    by (intros d Hd; apply Z.pow_le_mono_r; lia).
  assert (Hp52 : forall d, d = 53 -> 2 ^ (d - 1) = 2 ^ 52) by (intros d ->; reflexivity).
  assert (Hk : forall k, 1 <= k -> 2 <= 2 ^ k).
  { intros k Hk. change 2 with (2 ^ 1) at 1. apply Z.pow_le_mono_r; lia. }
  destruct (Z.compare_spec ex ey) as [->|Hlt|Hgt].
  - rewrite Z.min_id, Z.sub_diag. change (2 ^ 0) with 1. rewrite !Z.mul_1_r.
    reflexivity.
  - rewrite Z.min_l, Z.sub_diag by lia. change (2 ^ 0) with 1. rewrite Z.mul_1_r.
    apply Z.compare_lt_iff.
    assert (Hdy53 : Z.pos (digits2_pos my) = 53) by lia.
    specialize (Hk (ey - ex) ltac:(lia)). specialize (Hp53 _ Hdx).
    rewrite (Hp52 _ Hdy53) in Hy1. change (2 ^ 53) with (2 ^ 52 * 2) in Hp53. nia.
  - rewrite Z.min_r, Z.sub_diag by lia. change (2 ^ 0) with 1. rewrite Z.mul_1_r.
    apply Z.compare_gt_iff.
    assert (Hdx53 : Z.pos (digits2_pos mx) = 53) by lia.
    specialize (Hk (ex - ey) ltac:(lia)). specialize (Hp53 _ Hdy).
    rewrite (Hp52 _ Hdx53) in Hx1. change (2 ^ 53) with (2 ^ 52 * 2) in Hp53. nia.
Qed.

Lemma SFsub_sign (x y : spec_float) :
  valid_binary x = true -> valid_binary y = true ->
  SFltb (S754_zero false) (SF64sub y x) = SFltb x y.
Proof.
  intros Hx Hy.
  destruct x as [sx|sx| |sx mx ex], y as [sy|sy| |sy my ey];
    try (cbn; try destruct sx; try destruct sy; reflexivity).
  cbn [valid_binary SpecFloat.valid_binary] in Hx, Hy.
  unfold SF64sub, SFsub.
  rewrite binary_normalize_sign
    by (apply bounded_bounds in Hx, Hy; lia).
  pose proof (aligned_compare mx my ex ey Hx Hy) as Hc.
  rewrite (Z.min_comm ey ex).
  unfold SFltb, SFcompare. 
  set (X := Z.pos (fst (shl_align mx ex (Z.min ex ey)))) in *.
  set (Y := Z.pos (fst (shl_align my ey (Z.min ex ey)))) in *.
  assert (HX : 0 < X) by (unfold X; lia). assert (HY : 0 < Y) by (unfold Y; lia).
  destruct sx, sy; cbn [cond_Zopp].
  - (* both negative *)
    replace (match ex ?= ey with
             | Eq => CompOpp (Pos.compare_cont Eq mx my)
             | Lt => Gt
             | Gt => Lt
             end)
      with (CompOpp (X ?= Y)) by (rewrite Hc; now destruct (ex ?= ey)).
    destruct (Z.compare_spec X Y); cbn [CompOpp]; lia.
  - destruct (Z.ltb_spec 0 (Y - - X)); [reflexivity|lia].
  - destruct (Z.ltb_spec 0 (- Y - X)); [lia|reflexivity].
  - rewrite <- Hc. destruct (Z.compare_spec X Y); lia.
Qed.

(** The comparator of [search]: [b.score - a.score] is positive exactly
    when [a.score < b.score]. *)
Lemma float_sub_pos (x y : float) : (0 <? y - x)%float = (x <? y)%float.
Proof.
  rewrite !ltb_spec, sub_spec. change (Prim2SF 0) with (S754_zero false).
  apply SFsub_sign; apply Prim2SF_valid.
Qed.

Lemma SFcompare_antisym (x y : spec_float) :
  SFcompare y x = option_map CompOpp (SFcompare x y).
Proof.
  destruct x as [sx|sx| |sx mx ex], y as [sy|sy| |sy my ey]; cbn;
    try destruct sx; try destruct sy; try reflexivity.
  all: rewrite (Z.compare_antisym ex ey); destruct (ex ?= ey); cbn [CompOpp];
    try reflexivity.
  all: rewrite !Pos.compare_cont_spec, (Pos.compare_antisym mx my); cbn [Pos.switch_Eq].
  all: now destruct (mx ?= my)%positive.
Qed.

Lemma float_ltb_asym (x y : float) : (x <? y)%float = true -> (y <? x)%float = false.
Proof.
  rewrite !ltb_spec. unfold SFltb. rewrite (SFcompare_antisym (Prim2SF x) (Prim2SF y)).
  now destruct (SFcompare (Prim2SF x) (Prim2SF y)) as [[]|].
Qed.

(** *** The order of the numbers that are not NaN *)

Lemma SFleb_trans (x y z : spec_float) :
  SFleb x y = true -> SFleb y z = true -> SFleb x z = true.
Proof.
  unfold SFleb.
  destruct x as [sx|sx| |sx mx ex], y as [sy|sy| |sy my ey], z as [sz|sz| |sz mz ez];
    cbn [SFcompare]; try destruct sx; try destruct sy; try destruct sz;
    try discriminate; try reflexivity.
  all: rewrite ?Pos.compare_cont_spec; cbn [Pos.switch_Eq].
  all: destruct (Z.compare_spec ex ey); try discriminate;
    destruct (Z.compare_spec ey ez); try discriminate;
    destruct (Z.compare_spec ex ez); try lia; try reflexivity.
  all: rewrite ?Pos.compare_cont_spec; cbn [Pos.switch_Eq].
  all: destruct (Pos.compare_spec mx my); cbn [CompOpp]; try discriminate;
    destruct (Pos.compare_spec my mz); cbn [CompOpp]; try discriminate;
    destruct (Pos.compare_spec mx mz); cbn [CompOpp]; try lia; try reflexivity.
Qed.

Lemma float_leb_trans (x y z : float) :
  (x <=? y)%float = true -> (y <=? z)%float = true -> (x <=? z)%float = true.
Proof. rewrite !leb_spec. apply SFleb_trans. Qed.

Lemma float_ltb_leb (x y : float) : (x <? y)%float = true -> (x <=? y)%float = true.
Proof.
  rewrite ltb_spec, leb_spec. unfold SFltb, SFleb.
  now destruct (SFcompare (Prim2SF x) (Prim2SF y)) as [[]|].
Qed.

Lemma is_nan_spec (x : float) : is_nan x = false -> Prim2SF x <> S754_nan.
Proof.
  unfold is_nan. rewrite FloatAxioms.eqb_spec. intros H E. rewrite E in H. discriminate H.
Qed.

Lemma float_leb_total (x y : float) :
  is_nan x = false -> is_nan y = false ->
  (x <? y)%float = false -> (y <=? x)%float = true.
Proof.
  intros Hx%is_nan_spec Hy%is_nan_spec. rewrite ltb_spec, leb_spec.
  unfold SFltb, SFleb. rewrite (SFcompare_antisym (Prim2SF x) (Prim2SF y)).
  destruct (Prim2SF x) as [sx|sx| |sx mx ex], (Prim2SF y) as [sy|sy| |sy my ey];
    try done; cbn [SFcompare option_map];
    match goal with
    | |- context [CompOpp ?c] => generalize c; now intros []
    end.
Qed.

End FloatOrder.

Section RankingFacts.

Context {backend : AeadBackend} {engine : Engine}.

Lemma StronglySorted_map {A B : Type} (f : A -> B) (R : B -> B -> Prop) (l : list A) :
  StronglySorted (fun a b => R (f a) (f b)) l -> StronglySorted R (List.map f l).
Proof.
  induction 1 as [|a l Hs IH Ha]; [constructor|].
  cbn [List.map]. constructor; [exact IH|]. now apply List.Forall_map.
Qed.

Lemma sort_insert_descending (x : scored) (l : list scored) :
  is_nan (snd x) = false -> Forall (fun d => is_nan (snd d) = false) l ->
  StronglySorted (fun a b => (snd b <=? snd a)%float = true) l ->
  StronglySorted (fun a b => (snd b <=? snd a)%float = true)
    (sort_insert (fun a b => (snd b - snd a)%float) x l).
Proof.
  intros Hx Hl Hs. induction Hs as [|y l Hs IH Hy]; [by repeat constructor|].
  apply Forall_cons in Hl as [Hny Hl]. cbn [sort_insert].
  rewrite float_sub_pos. destruct (snd x <? snd y)%float eqn:E.
  - constructor; [now apply IH|].
    eapply Permutation_Forall; [apply sort_insert_Permutation|].
    constructor; [now apply float_ltb_leb|exact Hy].
  - pose proof (float_leb_total _ _ Hx Hny E) as Hyx.
    constructor; [now constructor|]. constructor; [exact Hyx|].
    eapply Forall_impl; [exact Hy|]. intros z Hz. cbn beta in Hz.
    exact (float_leb_trans _ _ _ Hz Hyx).
Qed.

Lemma array_sort_descending_scores (l : list scored) :
  Forall (fun d => is_nan (snd d) = false) l ->
  StronglySorted (fun a b => (snd b <=? snd a)%float = true)
    (array_sort (fun a b => (snd b - snd a)%float) l).
Proof.
  induction 1 as [|x l Hx Hl IH]; [constructor|].
  cbn [array_sort fold_right]. fold (array_sort (fun a b : scored => (snd b - snd a)%float) l).
  apply sort_insert_descending; [exact Hx| |exact IH].
  eapply Permutation_Forall; [apply array_sort_Permutation|exact Hl].
Qed.

Lemma decrypt_entry_score (key : CryptoKey) (doc : scored) :
  Ctx.score (decrypt_entry key doc) = snd doc.
Proof. unfold decrypt_entry. now destruct (decryptData _ _). Qed.

End RankingFacts.

(** X10: when no score is NaN and the limit is not negative, [search]
    returns the highest scores in descending order: the scores of its
    entries, followed by the scores of the records it left out, are the
    scores of all records from the highest to the lowest. *)
Theorem search_returns_highest_scores {backend : AeadBackend}
    (getEmbedding : jsstring -> result (list float))
    (this : VectorDbService) (query : jsstring) (limit : Z) (reads : bool)
    (store : ObjectStore) (queryVector : list float) (results : list MemoryContext) :
  (0 <= limit)%Z ->
  getEmbedding query = Ok queryVector ->
  Forall (fun doc => is_nan (cosineSimilarity queryVector (Doc.vector doc)) = false) store ->
  search getEmbedding this query limit reads store = Ok results ->
  exists rest,
    Permutation (List.map Ctx.score results ++ rest)
      (List.map (fun doc => cosineSimilarity queryVector (Doc.vector doc)) store)
    /\ descending (List.map Ctx.score results ++ rest).
Proof.
  intros Hlimit Hq Hnan (key & qv & _ & Hq' & ->)%search_inv.
  rewrite Hq in Hq'. injection Hq' as <-.
  unfold topDocs, idb_getAll, slice_to.
  destruct (Z.ltb_spec limit 0) as [|_]; [lia|].
  set (sd := scoredDocs queryVector store).
  exists (List.map snd (drop (Z.to_nat limit) sd)).
  assert (E : List.map Ctx.score (List.map (decrypt_entry key) (take (Z.to_nat limit) sd))
              ++ List.map snd (drop (Z.to_nat limit) sd) = List.map snd sd).
  { rewrite List.map_map.
    rewrite (List.map_ext (fun d => Ctx.score (decrypt_entry key d)) snd
               (decrypt_entry_score key)).
    now rewrite <- List.map_app, take_drop. }
  rewrite E. split.
  - unfold sd, scoredDocs. rewrite <- array_sort_Permutation. now rewrite List.map_map.
  - apply StronglySorted_map. apply array_sort_descending_scores.
    apply List.Forall_map. exact Hnan.
Qed.

Lemma search_returns_highest_scores_witness :
  let results :=
    List.map (decrypt_entry (backend := mirror_backend) Byte.x2a)
      (topDocs [1; 0]%float 2 sample_store) in
  exists rest,
    Permutation (List.map Ctx.score results ++ rest)
      (List.map (fun doc => cosineSimilarity [1; 0]%float (Doc.vector doc)) sample_store)
    /\ descending (List.map Ctx.score results ++ rest).
Proof.
  apply (search_returns_highest_scores (backend := mirror_backend) axis_embedding
           sample_service (js "x") 2 true sample_store [1; 0]%float).
  - lia.
  - reflexivity.
  - repeat constructor.
  - reflexivity.
Defined.

Section TieFacts.

Context {backend : AeadBackend} {engine : Engine}.

Lemma cosineSimilarity_zero_query (n : nat) (b : list float) :
  cosineSimilarity (repeat 0%float n) b = 0%float.
Proof. unfold cosineSimilarity. now rewrite magnitude_zero. Qed.

Lemma array_sort_cons {A : Type} (f : A -> A -> float) (x : A) (l : list A) :
  array_sort f (x :: l) = sort_insert f x (array_sort f l).
Proof. reflexivity. Qed.

(** When the query vector is zero every score is [0] and the sort moves
    nothing. *)
Lemma scoredDocs_zero_query (n : nat) (allDocs : list VectorDocument) :
  scoredDocs (repeat 0%float n) allDocs = List.map (fun doc => (doc, 0%float)) allDocs.
Proof.
  unfold scoredDocs.
  rewrite (List.map_ext (fun doc => (doc, cosineSimilarity (repeat 0%float n) (Doc.vector doc)))
             (fun doc => (doc, 0%float)))
    by (intros doc; now rewrite cosineSimilarity_zero_query).
  set (l := List.map (fun doc => (doc, 0%float)) allDocs).
  assert (Hl : Forall (fun d : scored => snd d = 0%float) l)
    by (apply List.Forall_map, List.Forall_forall; reflexivity).
  clearbody l. induction Hl as [|x l Hx Hl IH]; [reflexivity|].
  rewrite array_sort_cons, IH. destruct Hl as [|y l Hy Hl]; [reflexivity|].
  cbn [sort_insert]. now rewrite Hx, Hy.
Qed.

End TieFacts.

(** X25: when the embedding of the query is a vector of zeros, every
    score is [0] and [search] returns the first records in the order of
    their keys. *)
Theorem search_zero_query {backend : AeadBackend}
    (getEmbedding : jsstring -> result (list float))
    (this : VectorDbService) (query : jsstring) (limit : Z) (reads : bool)
    (store : ObjectStore) (n : nat) (results : list MemoryContext) :
  getEmbedding query = Ok (repeat 0%float n) ->
  search getEmbedding this query limit reads store = Ok results ->
  List.map Ctx.timestamp results = List.map Doc.timestamp (slice_to limit store)
  /\ Forall (fun entry => Ctx.score entry = 0%float) results.
Proof.
  intros Hq (key & qv & _ & Hq' & ->)%search_inv.
  rewrite Hq in Hq'. injection Hq' as <-.
  unfold topDocs, idb_getAll. rewrite scoredDocs_zero_query.
  unfold slice_to. rewrite length_map.
  destruct (limit <? 0)%Z; rewrite firstn_map, !List.map_map; split.
  all: try (apply List.map_ext; intros doc; unfold decrypt_entry; cbn [fst snd];
            now destruct (decryptData _ _)).
  all: apply List.Forall_map, List.Forall_forall; intros doc _;
    apply decrypt_entry_score.
Qed.

Lemma search_zero_query_witness :
  let results :=
    List.map (decrypt_entry (backend := mirror_backend) Byte.x2a)
      (topDocs [0; 0]%float 2 sample_store) in
  List.map Ctx.timestamp results = List.map Doc.timestamp (slice_to 2 sample_store)
  /\ Forall (fun entry => Ctx.score entry = 0%float) results.
Proof.
  apply (search_zero_query (backend := mirror_backend)
           (fun _ => Ok [0; 0]%float) sample_service (js "x") 2 true sample_store 2);
    reflexivity.
Defined.

Lemma StronglySorted_filter {A : Type} (R : A -> A -> Prop) (f : A -> bool) (l : list A) :
  StronglySorted R l -> StronglySorted R (List.filter f l).
Proof.
  induction 1 as [|x l Hs IH Hx]; [constructor|]. cbn [List.filter].
  destruct (f x); [|exact IH]. constructor; [exact IH|].
  apply List.Forall_forall. intros y [Hy _]%List.filter_In.
  rewrite List.Forall_forall in Hx. now apply Hx.
Qed.

Lemma StronglySorted_take {A : Type} (R : A -> A -> Prop) (n : nat) (l : list A) :
  StronglySorted R l -> StronglySorted R (take n l).
Proof.
  intros Hs. revert n. induction Hs as [|x l Hs IH Hx]; intros [|n]; try constructor.
  - apply IH.
  - now apply Forall_take.
Qed.

(** X26: the context [handleSend] hands to the model holds three entries
    at most; it is empty when the search fails, and its scores descend
    when no score is NaN. *)
Theorem retrieve_context_bound {backend : AeadBackend}
    (getEmbedding : jsstring -> result (list float))
    (this : VectorDbService) (cleanInput : jsstring) (reads : bool)
    (store : ObjectStore) :
  length (retrieve_context getEmbedding this cleanInput reads store) <= 3
  /\ (forall e, search getEmbedding this cleanInput 3 reads store = Err e ->
        retrieve_context getEmbedding this cleanInput reads store = [])
  /\ (forall queryVector,
        getEmbedding cleanInput = Ok queryVector ->
        Forall (fun doc => is_nan (cosineSimilarity queryVector (Doc.vector doc)) = false)
          store ->
        descending
          (List.map Ctx.score (retrieve_context getEmbedding this cleanInput reads store))).
Proof.
  unfold retrieve_context.
  destruct (search getEmbedding this cleanInput 3 reads store) as [results|e] eqn:Hs;
    [|split; [cbn; lia|]; split; [done|]; intros; constructor].
  destruct (search_inv _ _ _ _ _ _ _ Hs) as (key & qv & _ & Hq & ->).
  unfold topDocs, idb_getAll, slice_to. change (3 <? 0)%Z with false.
  change (Z.to_nat 3) with 3.
  split; [|split; [done|]].
  - etransitivity; [apply List.filter_length_le|].
    rewrite length_map, length_take. lia.
  - intros queryVector Hq' Hnan. rewrite Hq' in Hq. injection Hq as <-.
    set (sd := scoredDocs queryVector store).
    assert (Hsd : StronglySorted (fun a b : scored => (snd b <=? snd a)%float = true) sd).
    { apply array_sort_descending_scores. apply List.Forall_map. exact Hnan. }
    apply (StronglySorted_take _ 3) in Hsd.
    unfold descending.
    assert (Hres : StronglySorted
                     (fun a b : MemoryContext => (Ctx.score b <=? Ctx.score a)%float = true)
                     (List.map (decrypt_entry key) (take 3 sd))).
    { clear -Hsd. induction Hsd as [|x l Hl IH Hx]; [constructor|].
      cbn [List.map]. constructor; [exact IH|].
      apply List.Forall_map. eapply Forall_impl; [exact Hx|].
      intros y Hy. cbn beta. now rewrite !decrypt_entry_score. }
    apply StronglySorted_map. now apply StronglySorted_filter.
Qed.

(** ** The AI service *)

(** ** Splitting a string *)

Section SplitFacts.

Variable sep : N.

Lemma split_on_cons (c : N) (s : jsstring) :
  split_on sep (c :: s) =
    if N.eqb c sep then [] :: split_on sep s
    else match split_on sep s with
         | piece :: pieces => (c :: piece) :: pieces
         | [] => [[c]]
         end.
Proof. reflexivity. Qed.

Lemma split_on_not_nil (s : jsstring) : split_on sep s <> [].
Proof.
  destruct s as [|c s]; [done|]. rewrite split_on_cons.
  destruct (N.eqb c sep); [done|]. now destruct (split_on sep s).
Qed.

Lemma split_on_no_sep (s : jsstring) : ~ In sep s -> split_on sep s = [s].
Proof.
  induction s as [|c s IH]; [reflexivity|]. intros Hin. rewrite split_on_cons.
  destruct (N.eqb_spec c sep) as [->|_]; [exfalso; apply Hin; now left|].
  rewrite IH; [reflexivity|]. intros H. apply Hin. now right.
Qed.

(** The piece behind the last separator holds none. *)
Lemma split_on_last (s : jsstring) : ~ In sep (List.last (split_on sep s) []).
Proof.
  induction s as [|c s IH]; [cbn; tauto|]. rewrite split_on_cons.
  pose proof (split_on_not_nil s) as Hne.
  destruct (N.eqb_spec c sep) as [->|Hc].
  - destruct (split_on sep s) as [|p ps]; [done|]. exact IH.
  - destruct (split_on sep s) as [|p [|q ps]]; [done| |exact IH].
    cbn [List.last] in *. intros [H|H]; [congruence|tauto].
Qed.

(** What is appended goes on with the last piece. *)
Lemma split_on_app (s t : jsstring) :
  split_on sep (s ++ t)
  = removelast (split_on sep s) ++ split_on sep (List.last (split_on sep s) [] ++ t).
Proof.
  induction s as [|c s IH]; [reflexivity|].
  cbn [app]. rewrite !split_on_cons, IH.
  pose proof (split_on_not_nil s) as Hne.
  destruct (N.eqb c sep) eqn:E.
  - destruct (split_on sep s) as [|p ps]; [done|]. reflexivity.
  - destruct (split_on sep s) as [|p [|q ps]]; [done| |reflexivity].
    cbn [removelast List.last app]. now rewrite split_on_cons, E.
Qed.

End SplitFacts.

(** ** The streaming decoder *)

Section StreamFacts.

Import Utf8.
Local Open Scope N_scope.

Lemma decode_bytes_app (st : dstate) (a b : list byte) :
  decode_bytes st (a ++ b)
  = let '(st1, out1) := decode_bytes st a in
    let '(st2, out2) := decode_bytes st1 b in
    (st2, out1 ++ out2).
Proof.
  revert st. induction a as [|x a IH]; intros st.
  - cbn [app decode_bytes]. now destruct (decode_bytes st b).
  - cbn [app decode_bytes]. destruct (step st (Byte.to_N x)) as [st' out].
    rewrite IH. destruct (decode_bytes st' a) as [st1 out1].
    destruct (decode_bytes st1 b) as [st2 out2]. now rewrite app_assoc.
Qed.

Lemma from_scalars_app (a b : list N) :
  from_scalars (a ++ b) = from_scalars a ++ from_scalars b.
Proof. unfold from_scalars. now rewrite List.map_app, List.concat_app. Qed.

(** Feeding a decoder [a] and then [b] is feeding it [a ++ b]. *)
Lemma decode_stream_app (d : TextDecoder) (a b : list byte) :
  decode_stream d (a ++ b)
  = let '(d1, text1) := decode_stream d a in
    let '(d2, text2) := decode_stream d1 b in
    (d2, text1 ++ text2).
Proof.
  unfold decode_stream. rewrite decode_bytes_app.
  destruct (decode_bytes (pending d) a) as [st1 out1]. cbn [pending BOM_seen].
  destruct (decode_bytes st1 b) as [st2 out2].
  rewrite length_app.
  destruct (BOM_seen d); cbn [orb].
  - now rewrite from_scalars_app.
  - destruct out1 as [|c out1].
    + reflexivity.
    + cbn [length Nat.eqb negb app strip_bom].
      destruct (c =? BOM); now rewrite <- from_scalars_app.
Qed.

Lemma decode_stream_nil (d : TextDecoder) : snd (decode_stream d []) = [].
Proof. unfold decode_stream. cbn. now destruct (BOM_seen d). Qed.

Lemma lead_open (b : N) :
  b < 256 ->
  open_sequence (fst (lead b)) /\ (In LF (snd (lead b)) -> b = LF).
Proof.
  intros Hb. unfold lead, open_sequence, LF.
  destruct (N.leb_spec b 0x7F).
  { cbn. split; [now left|]. intros [Hin|[]]. now symmetry. }
  destruct (N.leb_spec 0xC2 b), (N.leb_spec b 0xDF); cbn [andb].
  { cbn [fst snd d_needed d_lower d_upper d_cp]. split; [right|intros []].
    change 0x1F with (N.ones 5). rewrite land_mask. change (2 ^ 5) with 32. lia. }
  all: destruct (N.leb_spec 0xE0 b), (N.leb_spec b 0xEF); cbn [andb].
  all: try (cbn [fst snd d_needed d_lower d_upper d_cp]; split; [right|intros []];
            change 0xF with (N.ones 4); rewrite land_mask; change (2 ^ 4) with 16;
            destruct (N.eqb_spec b 0xE0), (N.eqb_spec b 0xED); lia).
  all: destruct (N.leb_spec 0xF0 b), (N.leb_spec b 0xF4); cbn [andb].
  all: try (cbn [fst snd d_needed d_lower d_upper d_cp]; split; [right|intros []];
            change 0x7 with (N.ones 3); rewrite land_mask; change (2 ^ 3) with 8;
            destruct (N.eqb_spec b 0xF0), (N.eqb_spec b 0xF4); lia).
  all: cbn; split; [now left|]; intros [Hin|[]]; discriminate Hin.
Qed.

Lemma step_open (st : dstate) (b : N) :
  b < 256 -> open_sequence st ->
  open_sequence (fst (step st b)) /\ (In LF (snd (step st b)) -> b = LF).
Proof.
  intros Hb Hst. unfold step.
  destruct (N.eqb_spec (d_needed st) 0) as [E|E]; [now apply lead_open|].
  destruct Hst as [Hst|(Hlo & Hup & Hcp)]; [done|].
  destruct (N.ltb_spec b (d_lower st)) as [H1|H1]; cbn [orb].
  { destruct (lead_open b Hb) as [Ho Hlf]. destruct (lead b) as [st' out].
    cbn [fst snd] in *. split; [exact Ho|]. intros [H|H]; [discriminate H|auto]. }
  destruct (N.ltb_spec (d_upper st) b) as [H2|H2].
  { destruct (lead_open b Hb) as [Ho Hlf]. destruct (lead b) as [st' out].
    cbn [fst snd] in *. split; [exact Ho|]. intros [H|H]; [discriminate H|auto]. }
  change 0x3F with (N.ones 6). rewrite land_mask. change (2 ^ 6) with 64.
  rewrite lor_shiftl by (change (2 ^ 6) with 64; lia). change (2 ^ 6) with 64.
  destruct (d_seen st + 1 =? d_needed st).
  - cbn [fst snd]. split; [now left|]. unfold LF. intros [H|[]]. lia.
  - cbn [fst snd]. split; [|intros []]. right. cbn [d_lower d_upper d_cp]. lia.
Qed.

Lemma decode_bytes_open (st : dstate) (bs : list byte) :
  open_sequence st ->
  open_sequence (fst (decode_bytes st bs))
  /\ (In LF (snd (decode_bytes st bs)) -> In Byte.x0a bs).
Proof.
  revert st. induction bs as [|b bs IH]; intros st Hst; [cbn; tauto|].
  cbn [decode_bytes].
  assert (Hb : Byte.to_N b < 256) by (pose proof (Byte.to_N_bounded b); lia).
  destruct (step_open st (Byte.to_N b) Hb Hst) as [Ho Hlf].
  destruct (step st (Byte.to_N b)) as [st' out]. cbn [fst snd] in *.
  destruct (IH st' Ho) as [Ho' Hlf']. destruct (decode_bytes st' bs) as [st'' out'].
  cbn [fst snd] in *. split; [exact Ho'|].
  intros [H|H]%in_app_iff.
  - left. apply Hlf in H. apply (f_equal u8) in H. rewrite u8_to_N in H.
    rewrite H. reflexivity.
  - right. auto.
Qed.

End StreamFacts.

Lemma from_scalars_LF (out : list N) : In LF (Utf8.from_scalars out) -> In LF out.
Proof.
  unfold Utf8.from_scalars. induction out as [|cp out IH]; [done|].
  cbn [List.map List.concat]. intros [H|H]%in_app_iff; [left|right; auto].
  unfold Utf8.code_units, LF in *.
  destruct (N.ltb_spec cp 0x10000); cbn [In] in H; lia.
Qed.

Lemma strip_bom_In (x : N) (out : list N) : In x (Utf8.strip_bom out) -> In x out.
Proof.
  destruct out as [|c out]; [done|]. cbn [Utf8.strip_bom].
  destruct (N.eqb c Utf8.BOM); [now right|done].
Qed.

(** A chunk without a line feed byte decodes to a text without line
    feed. *)
Lemma decode_stream_LF (d : TextDecoder) (value : list byte) :
  open_sequence (pending d) -> ~ In Byte.x0a value ->
  ~ In LF (snd (decode_stream d value)).
Proof.
  intros Ho Hv H. apply Hv. unfold decode_stream in H.
  destruct (decode_bytes_open (pending d) value Ho) as [_ Hlf].
  destruct (decode_bytes (pending d) value) as [st out]. cbn [snd] in *.
  apply Hlf. apply from_scalars_LF in H.
  destruct (BOM_seen d); [exact H|now apply strip_bom_In].
Qed.

Lemma decode_stream_open (d : TextDecoder) (value : list byte) :
  open_sequence (pending d) -> open_sequence (pending (fst (decode_stream d value))).
Proof.
  intros Ho. unfold decode_stream.
  destruct (decode_bytes_open (pending d) value Ho) as [Ho' _].
  now destruct (decode_bytes (pending d) value) as [st out].
Qed.

Lemma removelast_snoc {A : Type} (l : list A) (x : A) : removelast (l ++ [x]) = l.
Proof. apply removelast_last. Qed.

Section ReadingFacts.

Variable JSON_parse : jsstring -> option json.

(** The calls of [onChunk] are those of the lines that are complete. *)
Lemma read_loop_lines (r : Reading) (values : list (list byte)) :
  ~ In LF (buffer r) ->
  read_loop JSON_parse r values
  = flat_map (on_line JSON_parse)
      (removelast
         (split_on LF (buffer r ++ snd (decode_stream (decoder r) (List.concat values))))).
Proof.
  revert r. induction values as [|v values IH]; intros r Hbuf.
  - cbn [read_loop List.concat]. rewrite decode_stream_nil, app_nil_r.
    now rewrite split_on_no_sep.
  - cbn [read_loop List.concat]. unfold read_value. rewrite decode_stream_app.
    destruct (decode_stream (decoder r) v) as [d1 t1].
    rewrite IH by apply split_on_last. cbn [decoder buffer].
    destruct (decode_stream d1 (List.concat values)) as [d2 t2]. cbn [snd].
    rewrite (app_assoc (buffer r) t1 t2), (split_on_app LF (buffer r ++ t1) t2).
    rewrite removelast_app by apply split_on_not_nil.
    now rewrite flat_map_app.
Qed.

End ReadingFacts.

(** X20: the calls of [onChunk] that the reading loop of
    [streamOllamaChat] makes are those of the lines of the decoded stream
    that end with a line feed, in order; how the stream is cut into chunks
    makes no difference. *)
Theorem read_loop_complete_lines (JSON_parse : jsstring -> option json)
    (values : list (list byte)) :
  read_loop JSON_parse new_Reading values
  = flat_map (on_line JSON_parse) (removelast (split_on LF (stream_text values)))
  /\ forall values',
       List.concat values' = List.concat values ->
       read_loop JSON_parse new_Reading values'
       = read_loop JSON_parse new_Reading values.
Proof.
  assert (H : forall vs, read_loop JSON_parse new_Reading vs
    = flat_map (on_line JSON_parse) (removelast (split_on LF (stream_text vs)))).
  { intros vs. rewrite read_loop_lines by (cbn; tauto). reflexivity. }
  split; [apply H|]. intros values' E. rewrite !H. unfold stream_text. now rewrite E.
Qed.

(** X21: what the stream holds behind its last line feed is never handed
    to [onChunk]: a last chunk without a line feed changes nothing. *)
Theorem read_loop_drops_unfinished_line (JSON_parse : jsstring -> option json)
    (values : list (list byte)) (tail : list byte) :
  ~ In Byte.x0a tail ->
  read_loop JSON_parse new_Reading (values ++ [tail])
  = read_loop JSON_parse new_Reading values.
Proof.
  intros Htail. rewrite !read_loop_lines by (cbn; tauto). cbn [buffer new_Reading app].
  change (decoder new_Reading) with new_TextDecoder.
  rewrite List.concat_app. cbn [List.concat]. rewrite app_nil_r, decode_stream_app.
  pose proof (decode_stream_open new_TextDecoder (List.concat values)) as Ho.
  destruct (decode_stream new_TextDecoder (List.concat values)) as [d1 t1].
  cbn [fst snd decoder] in *.
  pose proof (decode_stream_LF d1 tail (Ho (or_introl eq_refl)) Htail) as Ht.
  destruct (decode_stream d1 tail) as [d2 t2]. cbn [snd] in *.
  rewrite split_on_app, (split_on_no_sep LF (_ ++ t2)).
  - now rewrite removelast_snoc.
  - intros [H|H]%in_app_iff; [|auto]. exact (split_on_last LF t1 H).
Qed.

Lemma read_loop_drops_unfinished_line_witness :
  read_loop (fun line => Some (JString line)) new_Reading
    [List.map u8 [34; 97; 34; 10; 34]%N; List.map u8 [98; 34]%N]
  = read_loop (fun line => Some (JString line)) new_Reading
      [List.map u8 [34; 97; 34; 10; 34]%N].
Proof.
  apply (read_loop_drops_unfinished_line _ [_]). cbn. intros [H|[H|[]]]; discriminate H.
Defined.

(** ** The provider configuration *)

Lemma last_cons_default {A : Type} (l : list A) (x d : A) :
  List.last (x :: l) d = List.last l x.
Proof.
  revert x d. induction l as [|y l IH]; intros x d; [reflexivity|].
  change (List.last (x :: y :: l) d) with (List.last (y :: l) d). now rewrite !IH.
Qed.

Lemma or_keep_not_nil (s : option jsstring) (old : jsstring) :
  old <> [] -> or_keep s old <> [].
Proof. now destruct s as [[|c s]|]. Qed.

(** X16: whatever calls of [setProviderConfig] are made, the model name
    and the base URL are never empty, and the provider is the one of the
    last call. *)
Theorem setProviderConfig_names
    (calls : list (AIProvider * option jsstring * option jsstring)) :
  localModelName (configure calls initial_ProviderConfig) <> []
  /\ localBaseUrl (configure calls initial_ProviderConfig) <> []
  /\ currentProvider (configure calls initial_ProviderConfig)
     = List.last (List.map (fun call => fst (fst call)) calls) GEMINI.
Proof.
  assert (H : forall cfg,
    localModelName cfg <> [] -> localBaseUrl cfg <> [] ->
    localModelName (configure calls cfg) <> []
    /\ localBaseUrl (configure calls cfg) <> []
    /\ currentProvider (configure calls cfg)
       = List.last (List.map (fun call => fst (fst call)) calls) (currentProvider cfg)).
  { induction calls as [|[[provider model] url] calls IH]; intros cfg Hm Hu; [done|].
    cbn [configure fold_left]. fold (configure calls (setProviderConfig provider model url cfg)).
    destruct (IH (setProviderConfig provider model url cfg)) as (H1 & H2 & H3).
    - now apply or_keep_not_nil.
    - now apply or_keep_not_nil.
    - split; [exact H1|]. split; [exact H2|]. rewrite H3.
      cbn [List.map fst currentProvider setProviderConfig].
      now rewrite last_cons_default. }
  now apply H.
Qed.

(** ** Gemini only *)

(** X17: once [setProviderConfig] has set the provider to OLLAMA,
    [analyzeImage] resolves with its notice, [generateImage] and
    [editImage] reject, all three without a call of the Gemini API, and
    [streamChat] is [streamOllamaChat]. *)
Theorem ollama_calls_no_gemini_api
    (JSON_parse : jsstring -> option json) (fetch : Request -> settled Response)
    (sendMessageStream : list History.item -> jsstring -> settled ChatStream)
    (generateContent : GenerateRequest -> settled GenerateResponse)
    (model url : option jsstring) (cfg : ProviderConfig) :
  let cfg' := setProviderConfig OLLAMA model url cfg in
  (forall base64Image prompt,
     analyzeImage generateContent cfg' base64Image prompt = Resolved OLLAMA_VISION_NOTICE)
  /\ (forall prompt,
        generateImage generateContent cfg' prompt
        = Rejected (Error (js "Image generation requires Gemini Cloud.")))
  /\ (forall base64Image prompt,
        editImage generateContent cfg' base64Image prompt
        = Rejected (Error (js "Image editing requires Gemini Cloud.")))
  /\ (forall history newMessage,
        streamChat JSON_parse fetch sendMessageStream cfg' history newMessage
        = streamOllamaChat JSON_parse fetch cfg' history newMessage).
Proof. by repeat split. Qed.

(** ** Images *)

Lemma images_of_In (response : GenerateResponse) (url : jsstring) :
  In url (images_of response) ->
  exists payload, url = DATA_URL_PREFIX ++ payload /\ payload <> [].
Proof.
  unfold images_of. destruct (candidates response) as [[|[content] ?]|]; try done.
  destruct content as [[parts]|]; [|done]. destruct parts as [parts|]; [|done].
  intros (part & _ & H)%in_flat_map.
  destruct (Part.inlineData part) as [blob|]; [|done].
  destruct (Part.data blob) as [[|c d]|]; try done.
  destruct H as [<-|[]]. by exists (c :: d).
Qed.

Lemma split_on_first (sep : N) (s t : jsstring) :
  ~ In sep s -> split_on sep (s ++ sep :: t) = s :: split_on sep t.
Proof.
  induction s as [|c s IH]; intros Hs.
  - cbn [app]. rewrite split_on_cons. now rewrite N.eqb_refl.
  - cbn [app]. rewrite split_on_cons.
    destruct (N.eqb_spec c sep) as [->|_]; [exfalso; apply Hs; now left|].
    rewrite IH; [reflexivity|]. intros H. apply Hs. now right.
Qed.

Lemma base64Data_data_url (payload : jsstring) :
  payload <> [] -> ~ In COMMA payload -> base64Data (DATA_URL_PREFIX ++ payload) = payload.
Proof.
  intros Hne Hc. unfold base64Data.
  change (DATA_URL_PREFIX ++ payload)
    with (js "data:image/png;base64" ++ COMMA :: payload).
  rewrite split_on_first.
  - rewrite split_on_no_sep by exact Hc. now destruct payload.
  - cbn. unfold COMMA. cbn. intros H. repeat destruct H as [H|H]; try discriminate H.
    exact H.
Qed.

(** X24: every image [generateImage] resolves with is a PNG data URL with
    a payload that is not empty, and [editImage] called with it sends that
    payload, the prefix stripped, when the payload holds no comma. *)
Theorem editImage_sends_generated_image
    (generateContent : GenerateRequest -> settled GenerateResponse)
    (cfg : ProviderConfig) (prompt : jsstring) (images : list jsstring) (url : jsstring) :
  generateImage generateContent cfg prompt = Resolved images -> In url images ->
  exists payload,
    url = DATA_URL_PREFIX ++ payload
    /\ payload <> []
    /\ (~ In COMMA payload ->
        forall editPrompt,
          edit_request url editPrompt
          = mk_GenerateRequest MODEL_IMAGE
              [Part.mk (Some (Part.mk_Blob (Some (js "image/png")) (Some payload))) None;
               Part.mk None (Some editPrompt)]
              (Some (js "1:1"))).
Proof.
  unfold generateImage. destruct (currentProvider cfg); [|done].
  destruct (generateContent _) as [response|]; [|done]. intros [= <-] Hin.
  destruct (images_of_In response url Hin) as (payload & -> & Hne).
  exists payload. split; [reflexivity|]. split; [exact Hne|]. intros Hc editPrompt.
  unfold edit_request. now rewrite base64Data_data_url.
Qed.

Lemma editImage_sends_generated_image_witness :
  exists payload,
    js "data:image/png;base64,R0lGODdh" = DATA_URL_PREFIX ++ payload
    /\ payload <> []
    /\ (~ In COMMA payload ->
        forall editPrompt,
          edit_request (js "data:image/png;base64,R0lGODdh") editPrompt
          = mk_GenerateRequest MODEL_IMAGE
              [Part.mk (Some (Part.mk_Blob (Some (js "image/png")) (Some payload))) None;
               Part.mk None (Some editPrompt)]
              (Some (js "1:1"))).
Proof.
  apply (editImage_sends_generated_image (fun _ => Resolved sample_response)
           initial_ProviderConfig (js "a cover")
           [js "data:image/png;base64,iVBORw0KGgo="; js "data:image/png;base64,R0lGODdh"]).
  - reflexivity.
  - right. left. reflexivity.
Defined.

(** ** The models of an Ollama server *)

Lemma endsWith_snoc (c : N) (s : jsstring) : endsWith c (s ++ [c]) = true.
Proof. unfold endsWith. rewrite last_snoc. apply N.eqb_refl. Qed.

(** X18: one slash at the end of the base URL makes no difference to
    [getOllamaModels]. *)
Theorem getOllamaModels_trailing_slash (fetch : Request -> settled Response)
    (baseUrl : jsstring) :
  endsWith SLASH baseUrl = false ->
  getOllamaModels fetch (baseUrl ++ [SLASH]) = getOllamaModels fetch baseUrl.
Proof.
  intros H. unfold getOllamaModels.
  now rewrite endsWith_snoc, removelast_last, H.
Qed.

Lemma getOllamaModels_trailing_slash_witness :
  getOllamaModels sample_fetch (js "http://localhost:11434" ++ [SLASH])
  = getOllamaModels sample_fetch (js "http://localhost:11434").
Proof. apply getOllamaModels_trailing_slash. reflexivity. Defined.

(** ** The chat *)

(** X19: the history [streamOllamaChat] sends: one message per item, in
    order, with the first part as content and the role [user] kept, every
    other role being [assistant]; the conversion throws a [TypeError]
    exactly when an item has no part. *)
Theorem to_ollama_messages_history (history : list History.item) :
  match to_ollama_messages history with
  | Resolved messages =>
      List.map Ollama.content messages
      = List.map (fun h => hd [] (History.parts h)) history
      /\ Forall2 (fun h m =>
                    History.parts h <> []
                    /\ (History.role h = js "user" /\ Ollama.role m = js "user"
                        \/ History.role h <> js "user" /\ Ollama.role m = js "assistant"))
           history messages
  | Rejected e => e = TypeError /\ Exists (fun h => History.parts h = []) history
  end.
Proof.
  induction history as [|h history IH]; [by split|].
  cbn [to_ollama_messages]. destruct (History.parts h) as [|text rest] eqn:Ep.
  - split; [reflexivity|]. now left.
  - destruct (to_ollama_messages history) as [messages|e].
    + destruct IH as [IH1 IH2]. split.
      * cbn [List.map Ollama.content hd]. rewrite Ep. cbn [hd]. now rewrite IH1.
      * constructor; [|exact IH2]. split; [now rewrite Ep|].
        cbn [Ollama.role]. destruct (decide (History.role h = js "user")); [left|right]; done.
    + destruct IH as [-> IH]. split; [reflexivity|]. now right.
Qed.

Section ChatFacts.

Variable JSON_parse : jsstring -> option json.

Lemma on_line_truthy (line : jsstring) :
  Forall (fun v => truthy (Some v) = true) (on_line JSON_parse line).
Proof.
  unfold on_line. destruct (is_blank line); [constructor|].
  destruct (JSON_parse line) as [data|]; [|constructor].
  destruct (get_property "message" data) as [message|]; [|constructor].
  destruct (truthy (get_opt "content" message)) eqn:E.
  - destruct (get_opt "content" message) as [content|]; [|constructor].
    cbn [option_list]. by repeat constructor.
  - destruct (get_property "response" data) as [response|]; [|constructor].
    destruct (truthy response) eqn:Er; [|constructor].
    destruct response as [response|]; [|constructor].
    cbn [option_list]. by repeat constructor.
Qed.

Lemma read_loop_truthy (r : Reading) (values : list (list byte)) :
  Forall (fun v => truthy (Some v) = true) (read_loop JSON_parse r values).
Proof.
  revert r. induction values as [|value values IH]; intros r; [constructor|].
  cbn [read_loop]. unfold read_value.
  destruct (decode_stream (decoder r) value) as [d text].
  apply Forall_app. split; [|apply IH].
  apply Forall_flat_map. apply List.Forall_forall. intros line _. apply on_line_truthy.
Qed.

End ChatFacts.

Lemma system_error_truthy (cfg : ProviderConfig) :
  truthy (Some (JString (system_error cfg))) = true.
Proof. reflexivity. Qed.

(** X22: with either provider, [streamChat] never calls [onChunk] with an
    empty string or another value that is falsy. *)
Theorem streamChat_calls_are_truthy
    (JSON_parse : jsstring -> option json) (fetch : Request -> settled Response)
    (sendMessageStream : list History.item -> jsstring -> settled ChatStream)
    (cfg : ProviderConfig) (history : list History.item) (newMessage : jsstring) :
  Forall (fun v => truthy (Some v) = true)
    (fst (streamChat JSON_parse fetch sendMessageStream cfg history newMessage)).
Proof.
  assert (Hnotice : forall calls,
    Forall (fun v => truthy (Some v) = true) calls ->
    Forall (fun v => truthy (Some v) = true) (calls ++ [JString (system_error cfg)])).
  { intros calls H. apply Forall_app. split; [exact H|]. by repeat constructor. }
  unfold streamChat. destruct (currentProvider cfg).
  - destruct (sendMessageStream history newMessage) as [result|]; [|constructor].
    cbn [fst]. apply Forall_flat_map. apply List.Forall_forall.
    intros [[|c t]|] _; by repeat constructor.
  - unfold streamOllamaChat.
    destruct (to_ollama_messages history) as [messages|]; [|now apply Hnotice].
    destruct (fetch _) as [response|]; [|now apply Hnotice].
    destruct (ok response); cbn [negb]; [|now apply Hnotice].
    destruct (body response) as [stream|]; [|now apply Hnotice].
    destruct (ending stream); cbn [fst]; [apply Hnotice|]; apply read_loop_truthy.
Qed.

(** X23: [streamOllamaChat] does not fail silently: when it rejects, its
    last call of [onChunk] carries the system error message with the base
    URL.  It resolves only when the history converts and the request it
    posts to [/api/chat] of the base URL, with the local model, the
    converted history and the new message as the last one, is answered
    by an [ok] response whose body was read to its end; the calls of
    [onChunk] are then those the lines of this body give. *)
Theorem streamOllamaChat_failure_is_reported
    (JSON_parse : jsstring -> option json) (fetch : Request -> settled Response)
    (cfg : ProviderConfig) (history : list History.item) (newMessage : jsstring) :
  match streamOllamaChat JSON_parse fetch cfg history newMessage with
  | (calls, Rejected _) => List.last calls JNull = JString (system_error cfg)
  | (calls, Resolved _) =>
      exists messages response stream,
        to_ollama_messages history = Resolved messages
        /\ fetch (POST_chat (localBaseUrl cfg ++ js "/api/chat") (localModelName cfg)
                    (messages ++ [Ollama.mk (js "user") newMessage]))
           = Resolved response
        /\ ok response = true /\ body response = Some stream /\ ending stream = None
        /\ calls = read_loop JSON_parse new_Reading (chunks stream)
  end.
Proof.
  unfold streamOllamaChat.
  destruct (to_ollama_messages history) as [messages|]; [|reflexivity].
  destruct (fetch _) as [response|] eqn:Ef; [|reflexivity].
  destruct (ok response) eqn:Eok; cbn [negb]; [|reflexivity].
  destruct (body response) as [stream|] eqn:Eb; [|reflexivity].
  destruct (ending stream) eqn:Ee.
  - apply last_last.
  - by exists messages, response, stream.
Qed.
